(** * model_organizer.py: the reconciliation engine, embedded and verified

    The script walks the [models] directory twice.  The first walk (the
    classifier) catalogs the files that already sit in a type bucket; the
    second walk (the relocator) moves the files that sit directly under
    [models] to their place and catalogs them.  Both talk to a SQLite
    catalog through one connection and to the Civitai registry over HTTP.

    The embedding keeps the script's shape: module constants, the helper
    functions, and the two loop bodies of [__main__], written in a small
    monad that threads the filesystem and the connection, may raise a
    Python exception, may hang (the retry loop of [send_get_request]) and
    records the effects it performs. *)

From Stdlib Require Import List String Ascii Bool Arith PeanoNat Lia.
Import ListNotations.
Open Scope string_scope.
Open Scope list_scope.

Set Implicit Arguments.

(** ** Paths

    A [pathlib.Path] is modelled by its [parts] tuple.  Names that come
    from the registry (base model, creator) are taken as single path
    segments; [str(path)], which the catalog stores, is one-to-one on
    parts, so the [path] column holds the parts themselves. *)

Definition Path := list string.
Definition Hash := string.

Fixpoint path_eqb (p q : Path) : bool :=
  match p, q with
  | [], [] => true
  | a :: p', b :: q' => String.eqb a b && path_eqb p' q'
  | _, _ => false
  end.

(** [Path(p, s1, ..., sn)] and [p.joinpath(s)], each segment taken
    as one component.  That is what [pathlib] does with a [plain_segment];
    an empty segment or [.] is dropped by it, a segment with a separator is
    split, an absolute one replaces what precedes it, and [..] is left to
    the file system to resolve. *)
Definition joinpath (p : Path) (segments : list string) : Path := p ++ segments.

Fixpoint has_char (c : ascii) (s : string) : bool :=
  match s with
  | EmptyString => false
  | String a r => Ascii.eqb a c || has_char c r
  end.

Definition backslash : ascii := ascii_of_nat 92.

(** A name that is one path component and nothing else: not empty, not
    [.] or [..], without a separator, a drive colon or a NUL. *)
Definition plain_segment (s : string) : bool :=
  negb (String.eqb s "") && negb (String.eqb s ".") && negb (String.eqb s "..")
  && negb (has_char "/" s) && negb (has_char backslash s)
  && negb (has_char ":" s) && negb (has_char Ascii.zero s).

(** [path.name]: the final component, [''] for the empty path. *)
Definition name (p : Path) : string := last p "".

(** [path.parent]. *)
Definition parent (p : Path) : Path := removelast p.

(** [str.rfind('.')], counting from [i]. *)
Fixpoint rfind_dot (s : string) (i : nat) : option nat :=
  match s with
  | EmptyString => None
  | String c r =>
      match rfind_dot r (S i) with
      | Some j => Some j
      | None => if Ascii.eqb c "."%char then Some i else None
      end
  end.

(** [path.suffix] (Python 3.12):
    [i = name.rfind('.'); name[i:] if 0 < i < len(name) - 1 else '']. *)
Definition suffix (p : Path) : string :=
  let n := name p in
  match rfind_dot n 0 with
  | Some i =>
      if (Nat.ltb 0 i && Nat.ltb i (String.length n - 1))%nat
      then substring i (String.length n - i)%nat n
      else ""
  | None => ""
  end.

(** ** Module constants *)

Definition MODEL_PATH : Path := ["models"].
Definition MODEL_EXTENSIONS : list string := [".safetensors"].
Definition MODEL_TYPE_PATHS : list Path :=
  [ joinpath MODEL_PATH ["checkpoints"];
    joinpath MODEL_PATH ["embeddings"];
    joinpath MODEL_PATH ["loras"];
    joinpath MODEL_PATH ["vae"] ].
Definition MODEL_NOT_FOUND_PATH : Path := joinpath MODEL_PATH ["loras"; "null"].

(** A Python dict keeps insertion order, and the comprehension of line 148
    iterates over it: an association list, first binding of a key first. *)
Definition dict := list (string * string).

Definition MODEL_TYPE_TO_DIRECTORY_MAP : dict :=
  [ ("Checkpoint", "checkpoints");
    ("TextualInversion", "embeddings");
    ("LORA", "loras");
    ("LoCon", "loras");
    ("DoRA", "loras");
    ("VAE", "vae") ].

(** [d.get(k)] *)
Fixpoint dict_get (d : dict) (k : string) : option string :=
  match d with
  | [] => None
  | (k', v) :: r => if String.eqb k k' then Some v else dict_get r k
  end.

(** [d[k] = v]: overwrite in place, or append a new key. *)
Fixpoint dict_set (d : dict) (k v : string) : dict :=
  match d with
  | [] => [(k, v)]
  | (k', v') :: r =>
      if String.eqb k k' then (k', v) :: r else (k', v') :: dict_set r k v
  end.

Definition str_in (s : string) (l : list string) : bool :=
  existsb (String.eqb s) l.

Definition path_in (p : Path) (l : list Path) : bool :=
  existsb (path_eqb p) l.

(** [{value: key for key, value in MODEL_TYPE_TO_DIRECTORY_MAP.items()
      if key not in ['LoCon', 'DoRA']}] *)
Definition REVERSE_MAP : dict :=
  fold_left
    (fun acc kv => dict_set acc (snd kv) (fst kv))
    (filter (fun kv => negb (str_in (fst kv) ["LoCon"; "DoRA"]))
            MODEL_TYPE_TO_DIRECTORY_MAP)
    [].

(** ** The catalog (SQL_CREATE_TABLES) *)

Record ModelRow := {
  m_id : nat;
  m_path : Path;                       (* TEXT UNIQUE NOT NULL *)
  m_hash : Hash;                       (* TEXT UNIQUE NOT NULL *)
  m_civitai_model_id : option nat      (* INTEGER UNIQUE, DEFAULT NULL *)
}.

Record CivitaiRow := {
  c_id : nat;
  c_type_id : nat;
  c_base_model_id : nat;
  c_creator_id : option nat
}.

Record NameRow := {
  n_id : nat;
  n_name : string                      (* TEXT UNIQUE NOT NULL *)
}.

Record DB := {
  models : list ModelRow;
  civitai_models : list CivitaiRow;
  types : list NameRow;
  base_models : list NameRow;
  creators : list NameRow
}.

Definition empty_db : DB :=
  {| models := []; civitai_models := []; types := [];
     base_models := []; creators := [] |}.

(** INTEGER PRIMARY KEY AUTOINCREMENT: one more than the largest id so far
    (no row is ever deleted, so the sequence table and the largest rowid
    agree). *)
Definition next_id (ids : list nat) : nat := S (list_max ids).

Inductive NameTable := Types | BaseModels | Creators.

Definition name_rows (t : NameTable) (db : DB) : list NameRow :=
  match t with
  | Types => types db
  | BaseModels => base_models db
  | Creators => creators db
  end.

Definition set_name_rows (t : NameTable) (rows : list NameRow) (db : DB) : DB :=
  match t with
  | Types =>
      {| models := models db; civitai_models := civitai_models db;
         types := rows; base_models := base_models db; creators := creators db |}
  | BaseModels =>
      {| models := models db; civitai_models := civitai_models db;
         types := types db; base_models := rows; creators := creators db |}
  | Creators =>
      {| models := models db; civitai_models := civitai_models db;
         types := types db; base_models := base_models db; creators := rows |}
  end.

(** The INSERT statements the script issues.  A name bound to a statement
    is a Python value that may be [None]. *)
Inductive Insert :=
| InsName (t : NameTable) (name : option string)
| InsCivitai (type_id base_model_id creator_id : nat)
| InsModels (path : Path) (hash : Hash) (civitai_model_id : option nat).

Definition has_name (rows : list NameRow) (s : string) : bool :=
  existsb (fun r => String.eqb (n_name r) s) rows.

Definition has_path (db : DB) (p : Path) : bool :=
  existsb (fun r => path_eqb (m_path r) p) (models db).

Definition has_hash (db : DB) (h : Hash) : bool :=
  existsb (fun r => String.eqb (m_hash r) h) (models db).

Definition has_civitai_link (db : DB) (c : option nat) : bool :=
  match c with
  | None => false                      (* NULLs never collide *)
  | Some i =>
      existsb (fun r => match m_civitai_model_id r with
                        | Some j => Nat.eqb i j
                        | None => false
                        end) (models db)
  end.

(** [cursor.execute(INSERT ...)]: [None] is [sqlite3.IntegrityError] (a
    NOT NULL or UNIQUE constraint failed, the statement changes nothing);
    otherwise the new database and the new row's id. *)
Definition execute_insert (ins : Insert) (db : DB) : option (DB * nat) :=
  match ins with
  | InsName t None => None
  | InsName t (Some s) =>
      let rows := name_rows t db in
      if has_name rows s then None
      else
        let i := next_id (map n_id rows) in
        Some (set_name_rows t (rows ++ [{| n_id := i; n_name := s |}]) db, i)
  | InsCivitai ty bm cr =>
      let i := next_id (map c_id (civitai_models db)) in
      Some ({| models := models db;
               civitai_models :=
                 civitai_models db ++
                 [{| c_id := i; c_type_id := ty; c_base_model_id := bm;
                     c_creator_id := Some cr |}];
               types := types db; base_models := base_models db;
               creators := creators db |}, i)
  | InsModels p h c =>
      if has_path db p || has_hash db h || has_civitai_link db c then None
      else
        let i := next_id (map m_id (models db)) in
        Some ({| models :=
                   models db ++
                   [{| m_id := i; m_path := p; m_hash := h;
                       m_civitai_model_id := c |}];
                 civitai_models := civitai_models db;
                 types := types db; base_models := base_models db;
                 creators := creators db |}, i)
  end.

(** [SELECT id FROM <table> WHERE name = ?] followed by [fetchone()];
    [name = NULL] matches no row. *)
Definition select_id (t : NameTable) (name : option string) (db : DB) : option nat :=
  match name with
  | None => None
  | Some s =>
      option_map n_id (find (fun r => String.eqb (n_name r) s) (name_rows t db))
  end.

(** The connection: what is durable, what the open transaction sees, and
    the cursor's [lastrowid]. *)
Record Conn := {
  committed : DB;
  work : DB;
  lastrowid : option nat
}.

(** [connect_to_database()] on a database file holding [db]. *)
Definition connect (db : DB) : Conn :=
  {| committed := db; work := db; lastrowid := None |}.

(** ** The filesystem

    The files under the working directory with the SHA-256 digest of their
    content, in the order [os.walk] lists them.  Directories are the
    proper prefixes of file paths. *)

Definition FS := list (Path * Hash).

Fixpoint lookup_file (fs : FS) (p : Path) : option Hash :=
  match fs with
  | [] => None
  | (q, h) :: r => if path_eqb q p then Some h else lookup_file r p
  end.

Definition is_file (fs : FS) (p : Path) : bool :=
  match lookup_file fs p with Some _ => true | None => false end.

Fixpoint is_prefix (p q : Path) : bool :=
  match p, q with
  | [], _ => true
  | a :: p', b :: q' => String.eqb a b && is_prefix p' q'
  | _ :: _, [] => false
  end.

Definition is_dir (fs : FS) (p : Path) : bool :=
  existsb (fun f => is_prefix p (fst f) && negb (path_eqb p (fst f))) fs.

(** [path.exists()] *)
Definition exists_ (fs : FS) (p : Path) : bool := is_file fs p || is_dir fs p.

(** The non-empty prefixes of a path, shortest first. *)
Fixpoint prefixes (p : Path) : list Path :=
  match p with
  | [] => []
  | a :: r => [a] :: map (cons a) (prefixes r)
  end.

(** [path.mkdir(parents = True, exist_ok = True)] fails exactly when the
    path or one of its ancestors is a file. *)
Definition mkdir_blocked (fs : FS) (d : Path) : bool :=
  existsb (is_file fs) (prefixes d).

Definition remove_file (fs : FS) (p : Path) : FS :=
  filter (fun f => negb (path_eqb (fst f) p)) fs.

(** [src.rename(dst)] for a file [src] with digest [h]: [dst] is replaced
    if it is there. *)
Definition rename_file (fs : FS) (src dst : Path) (h : Hash) : FS :=
  remove_file (remove_file fs src) dst ++ [(dst, h)].

(** ** The registry

    A response carries its status code and, when the body parses as JSON,
    the fields the script reads.  A field that is absent makes the
    subscript raise [KeyError]. *)

Record ModelVersion := {
  mv_modelId : option nat;             (* ['modelId'] *)
  mv_model_type : option string;       (* ['model']['type'] *)
  mv_baseModel : option string         (* ['baseModel'] *)
}.

Record Model := {
  (* [None]: no 'creator' key; [Some None]: the key without a username *)
  md_creator : option (option string)
}.

Record Response (B : Type) := {
  status_code : nat;
  json : option B                      (* [None]: [response.json()] raises *)
}.

(** What the service answers to successive GETs of one URL.  A list that
    runs out stands for a service that keeps answering 500. *)
Record Registry := {
  model_versions_by_hash : Hash -> list (Response ModelVersion);
  models_by_id : nat -> list (Response Model)
}.

(** The base model and creator names the registry gives are plain path
    segments. *)
Definition well_named (reg : Registry) : Prop :=
  (forall h r v b,
      In r (model_versions_by_hash reg h) -> json r = Some v ->
      mv_baseModel v = Some b -> plain_segment b = true)
  /\ (forall id r m u,
        In r (models_by_id reg id) -> json r = Some m ->
        md_creator m = Some (Some u) -> plain_segment u = true).

Inductive Url :=
| UrlByHash (h : Hash)                 (* .../model-versions/by-hash/{hash} *)
| UrlModel (id : nat).                 (* .../models/{modelId} *)

(** ** Effects

    What a run does to the outside world, in order. *)

Inductive Event :=
| EvLog (p : Path)                     (* log(model_path) *)
| EvLogMoved (p : Path)                (* log('    Moved into ...') *)
| EvLogException                       (* log(exception) *)
| EvSelectPath (p : Path)              (* SELECT 1 FROM models WHERE path = ? *)
| EvHash (p : Path)                    (* calculate_hash(p) *)
| EvSelectHash (h : Hash)              (* SELECT 1 FROM models WHERE hash = ? *)
| EvGet (u : Url)                      (* requests.get(url) *)
| EvSleep                              (* time.sleep(REQUEST_INTERVAL) *)
| EvInsert (ins : Insert)
| EvSelectId (t : NameTable) (n : option string)
| EvExists (p : Path)                  (* p.exists() *)
| EvMkdir (p : Path)
| EvRename (src dst : Path)
| EvRollback
| EvCommit.

(** The exception classes the script can end with.  A constructor is the
    class an exception is raised as: [ValueError] is what the unpacking of
    line 144 raises, [JSONDecodeError] what [response.json()] raises,
    [OperationalError] what [sqlite3] raises when the database file cannot
    be written. *)
Inductive PyError :=
| TypeError | KeyError | ValueError | JSONDecodeError
| IntegrityError | OSError | SystemExit | OperationalError.


Inductive Result (A : Type) :=
| Ok (a : A)
| Raise (e : PyError)                  (* uncaught: the process terminates *)
| Hang.                                (* never returns *)
Arguments Ok {A} a.
Arguments Raise {A} e.
Arguments Hang {A}.

Record World := {
  fs : FS;
  conn : Conn
}.

Record Out (A : Type) := {
  events : list Event;
  result : Result A;
  world : World
}.

Definition M (A : Type) := World -> Out A.

Definition ret {A} (a : A) : M A :=
  fun w => {| events := []; result := Ok a; world := w |}.

Definition bind {A B} (m : M A) (k : A -> M B) : M B :=
  fun w =>
    let o := m w in
    match result o with
    | Ok a =>
        let o' := k a (world o) in
        {| events := events o ++ events o'; result := result o';
           world := world o' |}
    | Raise e => {| events := events o; result := Raise e; world := world o |}
    | Hang => {| events := events o; result := Hang; world := world o |}
    end.

Declare Scope py_scope.
Delimit Scope py_scope with py.
Notation "x <- m ;; k" := (bind m (fun x => k))
  (at level 100, m at next level, right associativity) : py_scope.
Notation "m ;; k" := (bind m (fun _ => k))
  (at level 100, right associativity) : py_scope.
Open Scope py_scope.

Definition raise {A} (e : PyError) : M A :=
  fun w => {| events := []; result := Raise e; world := w |}.

Definition hang {A} : M A :=
  fun w => {| events := []; result := Hang; world := w |}.

Definition emit (e : Event) : M unit :=
  fun w => {| events := [e]; result := Ok tt; world := w |}.

Definition get_fs : M FS :=
  fun w => {| events := []; result := Ok (fs w); world := w |}.

Definition get_conn : M Conn :=
  fun w => {| events := []; result := Ok (conn w); world := w |}.

Definition put_fs (f : FS) : M unit :=
  fun w => {| events := []; result := Ok tt;
              world := {| fs := f; conn := conn w |} |}.

Definition put_conn (c : Conn) : M unit :=
  fun w => {| events := []; result := Ok tt;
              world := {| fs := fs w; conn := c |} |}.

(** [for x in l: body(x)] *)
Fixpoint for_each {A} (l : list A) (body : A -> M unit) : M unit :=
  match l with
  | [] => ret tt
  | x :: r => body x ;; for_each r body
  end.

(** ** The helper functions *)

(** [connection.commit()], when it goes through; [commit_in] below is the
    commit that can raise. *)
Definition commit : M unit :=
  emit EvCommit ;;
  c <- get_conn ;;
  put_conn {| committed := work c; work := work c; lastrowid := lastrowid c |}.

(** [connection.rollback()] *)
Definition rollback : M unit :=
  emit EvRollback ;;
  c <- get_conn ;;
  put_conn {| committed := committed c; work := committed c;
              lastrowid := lastrowid c |}.

(** [cursor.execute('INSERT ...')]: an [IntegrityError] is not caught. *)
Definition execute (ins : Insert) : M unit :=
  emit (EvInsert ins) ;;
  c <- get_conn ;;
  match execute_insert ins (work c) with
  | Some (db', i) =>
      put_conn {| committed := committed c; work := db'; lastrowid := Some i |}
  | None => raise IntegrityError
  end.

(** [insert_into_database(cursor, connection, table, columns,
    enable_exception, commit)] *)
Definition insert_into_database
    (ins : Insert) (enable_exception commit_ : bool) : M unit :=
  emit (EvInsert ins) ;;
  c <- get_conn ;;
  match execute_insert ins (work c) with
  | Some (db', i) =>
      put_conn {| committed := committed c; work := db'; lastrowid := Some i |}
  | None =>
      if enable_exception then emit EvLogException ;; raise SystemExit
      else ret tt
  end ;;
  if commit_ then commit else ret tt.

(** [get_all_models_path()]: [os.walk(MODEL_PATH)] *)
Definition get_all_models_path : M (list Path) :=
  f <- get_fs ;;
  ret (filter (is_prefix MODEL_PATH) (map fst f)).

(** [log(message)], when the line gets written and printed; [log_in]
    below is the call that can raise. *)
Definition log (p : Path) : M unit := emit (EvLog p).

(** [calculate_hash(filepath)]: the digest of the content the file system
    holds for the path; opening a path that is not a file raises. *)
Definition calculate_hash (filepath : Path) : M Hash :=
  emit (EvHash filepath) ;;
  f <- get_fs ;;
  match lookup_file f filepath with
  | Some h => ret h
  | None => raise OSError
  end.

(** [send_get_request(url)], over the answers the service gives to the
    successive attempts.  A [requests.get] that gets no answer (it raises,
    or waits, there being no timeout) is not among them. *)
Fixpoint send_get_request {B} (url : Url) (answers : list (Response B))
  : M (Response B) :=
  match answers with
  | [] => hang
  | r :: rest =>
      emit (EvGet url) ;;
      if Nat.eqb (status_code r) 500 then emit EvSleep ;; send_get_request url rest
      else ret r
  end.

(** [response.json()] *)
Definition response_json {B} (r : Response B) : M B :=
  match json r with
  | Some b => ret b
  | None => raise JSONDecodeError
  end.

(** [obj[key]] on a field that may be absent. *)
Definition subscript {A} (field : option A) : M A :=
  match field with
  | Some a => ret a
  | None => raise KeyError
  end.

(** [cursor.execute('SELECT 1 FROM models WHERE path = ?', ...)] and
    [cursor.fetchone() != None] *)
Definition select_models_by_path (p : Path) : M bool :=
  emit (EvSelectPath p) ;;
  c <- get_conn ;;
  ret (has_path (work c) p).

Definition select_models_by_hash (h : Hash) : M bool :=
  emit (EvSelectHash h) ;;
  c <- get_conn ;;
  ret (has_hash (work c) h).

(** [cursor.execute('SELECT id FROM t WHERE name = ?', (n, ))] and
    [dict(cursor.fetchone())['id']]: [dict(None)] is a [TypeError]. *)
Definition fetch_id (t : NameTable) (n : option string) : M nat :=
  emit (EvSelectId t n) ;;
  c <- get_conn ;;
  match select_id t n (work c) with
  | Some i => ret i
  | None => raise TypeError
  end.

(** Lines 152-162 and 202-212: the three insert-then-select pairs. *)
Definition resolve_refs (model_type : option string)
    (model_base_model model_creator : string) : M (nat * nat * nat) :=
  insert_into_database (InsName Types model_type) false false ;;
  model_type_id <- fetch_id Types model_type ;;
  insert_into_database (InsName BaseModels (Some model_base_model)) false false ;;
  model_base_model_id <- fetch_id BaseModels (Some model_base_model) ;;
  insert_into_database (InsName Creators (Some model_creator)) false false ;;
  model_creator_id <- fetch_id Creators (Some model_creator) ;;
  ret (model_type_id, model_base_model_id, model_creator_id).

(** [new_model_path.exists()] *)
Definition path_exists (p : Path) : M bool :=
  emit (EvExists p) ;;
  f <- get_fs ;;
  ret (exists_ f p).

(** [d.mkdir(parents = True, exist_ok = True)] *)
Definition mkdir (d : Path) : M unit :=
  emit (EvMkdir d) ;;
  f <- get_fs ;;
  if mkdir_blocked f d then raise OSError else ret tt.

(** [src.rename(dst)] *)
Definition rename (src dst : Path) : M unit :=
  emit (EvRename src dst) ;;
  f <- get_fs ;;
  match lookup_file f src with
  | Some h => put_fs (rename_file f src dst h)
  | None => raise OSError
  end.

(** ** The classifier: the body of the first loop (lines 125-169) *)

(** Lines 152-167: the reference rows, the CatalogEntry and the ModelFile
    row of a classified file. *)
Definition stage_classified (model_path : Path) (model_hash : Hash)
    (model_type : option string) (model_base_model model_creator : string)
  : M unit :=
  ids <- resolve_refs model_type model_base_model model_creator ;;
  let '(model_type_id, model_base_model_id, model_creator_id) := ids in
  insert_into_database
    (InsCivitai model_type_id model_base_model_id model_creator_id)
    false false ;;
  c <- get_conn ;;
  execute (InsModels model_path model_hash (lastrowid c)).

(** Lines 144-167: the file sits in a type bucket, below the directories
    that name its base model and creator. *)
Definition classify_entry (reg : Registry) (model_path : Path) (model_hash : Hash)
  : M unit :=
  match firstn 3 model_path with
  | [model_type; model_base_model; model_creator] =>
      response <- send_get_request (UrlByHash model_hash)
                    (model_versions_by_hash reg model_hash) ;;
      model_type <-
        (if Nat.eqb (status_code response) 404 then
           ret (dict_get REVERSE_MAP model_type)
         else
           model_version <- response_json response ;;
           t <- subscript (mv_model_type model_version) ;;
           ret (Some t)) ;;
      stage_classified model_path model_hash model_type
        model_base_model model_creator
  | _ => raise ValueError              (* tuple unpacking *)
  end.

(** Lines 141-167: what is staged for a file that is new. *)
Definition classify_new (reg : Registry) (model_path : Path) (model_hash : Hash)
  : M unit :=
  if path_eqb (parent model_path) MODEL_NOT_FOUND_PATH then
    insert_into_database (InsModels model_path model_hash None) false false
  else
    classify_entry reg model_path model_hash.

Definition classify (reg : Registry) (model_path : Path) : M unit :=
  if negb (str_in (suffix model_path) MODEL_EXTENSIONS) then ret tt else
  if negb (path_in (firstn 2 model_path) MODEL_TYPE_PATHS) then ret tt else
  log model_path ;;
  known_path <- select_models_by_path model_path ;;
  if known_path then ret tt else
  model_hash <- calculate_hash model_path ;;
  known_hash <- select_models_by_hash model_hash ;;
  if known_hash then ret tt else
  classify_new reg model_path model_hash ;;
  commit.

(** ** The relocator: the body of the second loop (lines 172-227) *)

(** Lines 202-217: the reference rows, the CatalogEntry and the ModelFile
    row of a file about to be moved to [new_model_path]. *)
Definition stage_found (new_model_path : Path) (model_hash : Hash)
    (model_type model_base_model model_creator : string) : M Path :=
  ids <- resolve_refs (Some model_type) model_base_model model_creator ;;
  let '(model_type_id, model_base_model_id, model_creator_id) := ids in
  insert_into_database
    (InsCivitai model_type_id model_base_model_id model_creator_id)
    true false ;;
  c <- get_conn ;;
  insert_into_database
    (InsModels new_model_path model_hash (lastrowid c)) true false ;;
  ret new_model_path.

(** Lines 188-217: the registry knows the file; the target path and the
    staged catalog rows. *)
Definition relocate_found (reg : Registry) (model_path : Path) (model_hash : Hash)
    (response : Response ModelVersion) : M Path :=
  model_version <- response_json response ;;
  modelId <- subscript (mv_modelId model_version) ;;
  response <- send_get_request (UrlModel modelId) (models_by_id reg modelId) ;;
  model <- response_json response ;;
  model_type <- subscript (mv_model_type model_version) ;;
  model_base_model <- subscript (mv_baseModel model_version) ;;
  model_creator <-
    match md_creator model with
    | Some username => subscript username
    | None => ret "null"
    end ;;
  new_model_path <-
    match dict_get MODEL_TYPE_TO_DIRECTORY_MAP model_type with
    | Some directory =>
        ret (joinpath MODEL_PATH
               [directory; model_base_model; model_creator; name model_path])
    | None => raise TypeError          (* Path('models', None, ...) *)
    end ;;
  stage_found new_model_path model_hash model_type model_base_model
    model_creator.

(** Lines 219-227: the conflict check, the move and the commit, when the
    log of line 225 and the commit go through; [move_and_commit_in] below
    lets them raise. *)
Definition move_and_commit (model_path new_model_path : Path) : M unit :=
  target_exists <- path_exists new_model_path ;;
  if target_exists then rollback else
  mkdir (parent new_model_path) ;;
  rename model_path new_model_path ;;
  emit (EvLogMoved new_model_path) ;;
  commit.

(** Lines 184-217: ask the registry, settle the target path. *)
Definition relocate_target (reg : Registry) (model_path : Path) (model_hash : Hash)
  : M Path :=
  response <- send_get_request (UrlByHash model_hash)
                (model_versions_by_hash reg model_hash) ;;
  if Nat.eqb (status_code response) 404 then
    ret (joinpath MODEL_NOT_FOUND_PATH [name model_path])
  else
    relocate_found reg model_path model_hash response.

Definition relocate (reg : Registry) (model_path : Path) : M unit :=
  if negb (str_in (suffix model_path) MODEL_EXTENSIONS) then ret tt else
  if negb (path_eqb (parent model_path) MODEL_PATH) then ret tt else
  log model_path ;;
  model_hash <- calculate_hash model_path ;;
  known_hash <- select_models_by_hash model_hash ;;
  if known_hash then ret tt else
  new_model_path <- relocate_target reg model_path model_hash ;;
  move_and_commit model_path new_model_path.

(** ** The loop bodies when the log, the move or the commit fails

    [log] opens the log file, appends a line and prints it (lines 97-101);
    [mkdir] and [rename] change the disk; [connection.commit()] writes the
    database file.  Each of them can raise for reasons the script does not
    look at (a full disk, a missing permission, a locked database).  An
    [Env] says how these calls go for one pass through a loop body. *)

Inductive LogOutcome :=
| Logged                               (* the line is written and printed *)
| LogRaises (written : bool) (e : PyError).
                                       (* raised, after or before the write *)

Record Env := {
  log_path : LogOutcome;               (* lines 129 and 176 *)
  mkdir_raises : option PyError;       (* line 223 *)
  rename_raises : option PyError;      (* line 224 *)
  log_moved : LogOutcome;              (* line 225 *)
  commit_raises : option PyError       (* lines 169 and 227 *)
}.

(** Nothing fails: the loop bodies [classify] and [relocate]. *)
Definition no_failure : Env :=
  {| log_path := Logged; mkdir_raises := None; rename_raises := None;
     log_moved := Logged; commit_raises := None |}.

(** [log(message)], with the line it leaves as event. *)
Definition log_in (lo : LogOutcome) (line : Event) : M unit :=
  match lo with
  | Logged => emit line
  | LogRaises true e => emit line ;; raise e
  | LogRaises false e => raise e
  end.

(** [connection.commit()]: a commit that raises makes nothing durable. *)
Definition commit_in (failure : option PyError) : M unit :=
  match failure with
  | None => commit
  | Some e => raise e
  end.

(** [d.mkdir(parents = True, exist_ok = True)]: blocked by a file, or
    failing for a reason of the environment. *)
Definition mkdir_in (failure : option PyError) (d : Path) : M unit :=
  match failure with
  | None => mkdir d
  | Some e => raise e
  end.

(** [src.rename(dst)]: a rename that raises has moved nothing. *)
Definition rename_in (failure : option PyError) (src dst : Path) : M unit :=
  match failure with
  | None => rename src dst
  | Some e => raise e
  end.

(** Lines 219-227. *)
Definition move_and_commit_in (env : Env) (model_path new_model_path : Path)
  : M unit :=
  target_exists <- path_exists new_model_path ;;
  if target_exists then rollback else
  mkdir_in (mkdir_raises env) (parent new_model_path) ;;
  rename_in (rename_raises env) model_path new_model_path ;;
  log_in (log_moved env) (EvLogMoved new_model_path) ;;
  commit_in (commit_raises env).

(** Lines 172-227. *)
Definition relocate_in (env : Env) (reg : Registry) (model_path : Path)
  : M unit :=
  if negb (str_in (suffix model_path) MODEL_EXTENSIONS) then ret tt else
  if negb (path_eqb (parent model_path) MODEL_PATH) then ret tt else
  log_in (log_path env) (EvLog model_path) ;;
  model_hash <- calculate_hash model_path ;;
  known_hash <- select_models_by_hash model_hash ;;
  if known_hash then ret tt else
  new_model_path <- relocate_target reg model_path model_hash ;;
  move_and_commit_in env model_path new_model_path.

(** The move itself fails: [mkdir] or [rename] raises. *)
Definition move_fails (env : Env) : bool :=
  match mkdir_raises env, rename_raises env with
  | None, None => false
  | _, _ => true
  end.

(** The log of line 225 or the commit of line 227 raises. *)
Definition fails_after_move (env : Env) : bool :=
  match log_moved env, commit_raises env with
  | Logged, None => false
  | _, _ => true
  end.

(** The file is at its new path, the transaction is still open. *)
Definition renamed (w : World) (src dst : Path) (h : Hash) : World :=
  {| fs := rename_file (fs w) src dst h; conn := conn w |}.

(** Lines 125-169, with the log of line 129 and the commit of line 169
    going as [env] says. *)
Definition classify_in (env : Env) (reg : Registry) (model_path : Path)
  : M unit :=
  if negb (str_in (suffix model_path) MODEL_EXTENSIONS) then ret tt else
  if negb (path_in (firstn 2 model_path) MODEL_TYPE_PATHS) then ret tt else
  log_in (log_path env) (EvLog model_path) ;;
  known_path <- select_models_by_path model_path ;;
  if known_path then ret tt else
  model_hash <- calculate_hash model_path ;;
  known_hash <- select_models_by_hash model_hash ;;
  if known_hash then ret tt else
  classify_new reg model_path model_hash ;;
  commit_in (commit_raises env).

(** ** [__main__] *)

Definition classifier_pass (reg : Registry) : M unit :=
  paths <- get_all_models_path ;;
  for_each paths (classify reg).

Definition relocator_pass (reg : Registry) : M unit :=
  paths <- get_all_models_path ;;
  for_each paths (relocate reg).

Definition main (reg : Registry) : M unit :=
  insert_into_database (InsName Creators (Some "null")) false true ;;
  classifier_pass reg ;;
  relocator_pass reg.

(** One run of the script on a disk holding the files [f] and the database
    [db]: the tables exist ([CREATE TABLE IF NOT EXISTS]), the connection
    is fresh. *)
Definition run (reg : Registry) (f : FS) (db : DB) : Out unit :=
  main reg {| fs := f; conn := connect db |}.

(** What is on disk once the process is gone: the files, and the committed
    part of the catalog. *)
Definition disk_after {A} (o : Out A) : FS * DB :=
  (fs (world o), committed (conn (world o))).

(** * Verification *)

Unset Implicit Arguments.

(** ** Equality tests *)

Lemma path_eqb_eq (p q : Path) : path_eqb p q = true <-> p = q.
Proof.
  revert q; induction p as [|a p IH]; intros [|b q]; simpl; split;
    try congruence; try easy.
  - intros H. apply andb_true_iff in H as [Hab Hpq].
    apply String.eqb_eq in Hab. apply IH in Hpq. congruence.
  - intros H. injection H as -> ->. rewrite String.eqb_refl. simpl.
    now apply IH.
Qed.

Lemma path_eqb_refl (p : Path) : path_eqb p p = true.
Proof. now apply path_eqb_eq. Qed.

Lemma path_eqb_neq (p q : Path) : path_eqb p q = false <-> p <> q.
Proof.
  split.
  - intros H E. apply path_eqb_eq in E. congruence.
  - intros H. destruct (path_eqb p q) eqn:E; [|reflexivity].
    apply path_eqb_eq in E. contradiction.
Qed.

Lemma path_eqb_sym (p q : Path) : path_eqb p q = path_eqb q p.
Proof.
  destruct (path_eqb p q) eqn:E.
  - apply path_eqb_eq in E. subst. now rewrite path_eqb_refl.
  - symmetry. apply path_eqb_neq. apply path_eqb_neq in E. congruence.
Qed.

(** ** The retry loop *)

(** The first answer that is not a 500, if there is one. *)
Definition final_answer {B} (answers : list (Response B)) : option (Response B) :=
  find (fun r => negb (Nat.eqb (status_code r) 500)) answers.

Fixpoint request_events {B} (url : Url) (answers : list (Response B)) : list Event :=
  match answers with
  | [] => []
  | r :: rest =>
      EvGet url ::
      (if Nat.eqb (status_code r) 500 then EvSleep :: request_events url rest
       else [])
  end.

Lemma send_get_request_eq {B} (url : Url) (answers : list (Response B)) (w : World) :
  send_get_request url answers w =
  {| events := request_events url answers;
     result := match final_answer answers with
               | Some r => Ok r
               | None => Hang
               end;
     world := w |}.
Proof.
  induction answers as [|r rest IH]; [reflexivity|].
  unfold final_answer in *. cbn.
  destruct (Nat.eqb (status_code r) 500) eqn:E; cbn; [|reflexivity].
  rewrite IH. cbn. destruct (find _ rest); reflexivity.
Qed.

Lemma final_answer_not_500 {B} (answers : list (Response B)) r :
  final_answer answers = Some r -> status_code r <> 500.
Proof.
  unfold final_answer. intros H. apply find_some in H as [_ H].
  apply negb_true_iff in H. now apply Nat.eqb_neq.
Qed.

(** ** Running a computation step by step

    [wp m Q w]: running [m] in [w] ends in an outcome that satisfies [Q]. *)

Definition wp {A} (m : M A) (Q : Out A -> Prop) (w : World) : Prop := Q (m w).

Definition prepend {A} (e : list Event) (o : Out A) : Out A :=
  {| events := e ++ events o; result := result o; world := world o |}.

Definition bind_post {A B} (k : A -> M B) (Q : Out B -> Prop) (o : Out A) : Prop :=
  match result o with
  | Ok a => wp (k a) (fun o' => Q (prepend (events o) o')) (world o)
  | Raise e => Q {| events := events o; result := Raise e; world := world o |}
  | Hang => Q {| events := events o; result := Hang; world := world o |}
  end.

Lemma bind_eq {A B} (m : M A) (k : A -> M B) (w : World) :
  bind m k w =
  match result (m w) with
  | Ok a => prepend (events (m w)) (k a (world (m w)))
  | Raise e => {| events := events (m w); result := Raise e; world := world (m w) |}
  | Hang => {| events := events (m w); result := Hang; world := world (m w) |}
  end.
Proof. unfold bind. destruct (result (m w)); reflexivity. Qed.

Lemma wp_bind {A B} (m : M A) (k : A -> M B) (Q : Out B -> Prop) (w : World) :
  wp m (bind_post k Q) w -> wp (bind m k) Q w.
Proof.
  unfold wp, bind_post. rewrite bind_eq. destruct (result (m w)); auto.
Qed.

Lemma wp_send_get_request {B} url (answers : list (Response B)) Q w :
  Q {| events := request_events url answers;
       result := match final_answer answers with
                 | Some r => Ok r
                 | None => Hang
                 end;
       world := w |} ->
  wp (send_get_request url answers) Q w.
Proof. unfold wp. now rewrite send_get_request_eq. Qed.

Ltac unfold_small :=
  unfold log, calculate_hash, select_models_by_hash, select_models_by_path,
    fetch_id, path_exists, mkdir, rename, commit, rollback, response_json,
    subscript.

Ltac unfold_prims :=
  unfold resolve_refs, insert_into_database, execute; unfold_small.

Ltac wp_simpl :=
  cbn [ret raise hang emit get_fs get_conn put_fs put_conn bind_post prepend
       events result world fs conn committed work lastrowid app].

Ltac wp_base := unfold wp at 1; wp_simpl.

(** Use what the context says about a test before splitting on it. *)
Ltac split_on x :=
  first
    [ match goal with H : x = _ |- _ => rewrite H end
    | destruct x eqn:? ].

Ltac wp_step :=
  lazymatch goal with
  | |- wp (bind _ _) _ _ => apply wp_bind
  | |- wp (send_get_request _ _) _ _ => apply wp_send_get_request; wp_simpl
  | |- wp (ret _) _ _ => wp_base
  | |- wp (raise _) _ _ => wp_base
  | |- wp hang _ _ => wp_base
  | |- wp (emit _) _ _ => wp_base
  | |- wp get_fs _ _ => wp_base
  | |- wp get_conn _ _ => wp_base
  | |- wp (put_fs _) _ _ => wp_base
  | |- wp (put_conn _) _ _ => wp_base
  | |- wp (let '(_, _) := ?x in _) _ _ => destruct x
  | |- wp (if ?b then _ else _) _ _ => split_on b
  | |- wp (match ?x with _ => _ end) _ _ => split_on x
  | |- match ?x with _ => _ end => split_on x; wp_simpl
  | |- bind_post _ _ {| events := _; result := match ?x with _ => _ end;
                        world := _ |} => split_on x; wp_simpl
  end.

Ltac wp_run := unfold_prims; repeat wp_step.

(** ** The conflict check, the move and the commit, case by case *)

Definition rolled_back (w : World) : World :=
  {| fs := fs w;
     conn := {| committed := committed (conn w); work := committed (conn w);
                lastrowid := lastrowid (conn w) |} |}.

Definition moved (w : World) (src dst : Path) (h : Hash) : World :=
  {| fs := rename_file (fs w) src dst h;
     conn := {| committed := work (conn w); work := work (conn w);
                lastrowid := lastrowid (conn w) |} |}.

Lemma move_and_commit_eq (p t : Path) (w : World) :
  move_and_commit p t w =
  if exists_ (fs w) t then
    {| events := [EvExists t; EvRollback]; result := Ok tt;
       world := rolled_back w |}
  else if mkdir_blocked (fs w) (parent t) then
    {| events := [EvExists t; EvMkdir (parent t)]; result := Raise OSError;
       world := w |}
  else
    match lookup_file (fs w) p with
    | None =>
        {| events := [EvExists t; EvMkdir (parent t); EvRename p t];
           result := Raise OSError; world := w |}
    | Some h =>
        {| events := [EvExists t; EvMkdir (parent t); EvRename p t;
                      EvLogMoved t; EvCommit];
           result := Ok tt; world := moved w p t h |}
    end.
Proof.
  unfold move_and_commit.
  match goal with |- ?m w = ?r => change (wp m (fun o => o = r) w) end.
  wp_run; reflexivity.
Qed.

(** ** Inserts that swallow the constraint failure *)

(** The world once a statement ran: changed only if the insert went
    through. *)
Definition staged (ins : Insert) (w : World) : World :=
  match execute_insert ins (work (conn w)) with
  | Some (db', i) =>
      {| fs := fs w;
         conn := {| committed := committed (conn w); work := db';
                    lastrowid := Some i |} |}
  | None => w
  end.

Lemma insert_ignore_eq (ins : Insert) (w : World) :
  insert_into_database ins false false w =
  {| events := [EvInsert ins]; result := Ok tt; world := staged ins w |}.
Proof.
  unfold staged.
  match goal with |- ?m w = ?r => change (wp m (fun o => o = r) w) end.
  wp_run; reflexivity.
Qed.

Lemma insert_strict_eq (ins : Insert) (w : World) :
  insert_into_database ins true false w =
  match execute_insert ins (work (conn w)) with
  | Some _ => {| events := [EvInsert ins]; result := Ok tt; world := staged ins w |}
  | None => {| events := [EvInsert ins; EvLogException];
               result := Raise SystemExit; world := w |}
  end.
Proof.
  unfold staged.
  match goal with |- ?m w = ?r => change (wp m (fun o => o = r) w) end.
  wp_run; reflexivity.
Qed.

(** Stepping with the inserts kept whole. *)
Ltac wp_insert :=
  lazymatch goal with
  | |- wp (insert_into_database _ false false) _ _ =>
      unfold wp at 1; rewrite insert_ignore_eq; wp_simpl
  | |- wp (insert_into_database ?ins true false) _ ?w =>
      unfold wp at 1; rewrite insert_strict_eq;
      split_on (execute_insert ins (work (conn w))); wp_simpl
  end.

Ltac wp_go :=
  unfold resolve_refs, execute; unfold_small;
  repeat first [wp_insert | wp_step].

(** ** The files a pass looks at *)

(** [model_path.suffix in MODEL_EXTENSIONS] *)
Definition recognized (p : Path) : bool := str_in (suffix p) MODEL_EXTENSIONS.

(** The classifier's location filter (line 127). *)
Definition in_type_bucket (p : Path) : bool :=
  path_in (firstn 2 p) MODEL_TYPE_PATHS.

(** The relocator's location filter (line 174). *)
Definition in_root (p : Path) : bool := path_eqb (parent p) MODEL_PATH.

Lemma classify_filtered reg p w :
  recognized p && in_type_bucket p = false ->
  classify reg p w = ret tt w.
Proof.
  unfold recognized, in_type_bucket, classify. intros H.
  apply andb_false_iff in H as [-> | ->]; cbn [negb]; [reflexivity|].
  now destruct (negb _).
Qed.

Lemma relocate_filtered reg p w :
  recognized p && in_root p = false ->
  relocate reg p w = ret tt w.
Proof.
  unfold recognized, in_root, relocate. intros H.
  apply andb_false_iff in H as [-> | ->]; cbn [negb]; [reflexivity|].
  now destruct (negb _).
Qed.

(** ** The registry of the scenarios: every lookup answers 404 *)

Definition not_found {B} : Response B := {| status_code := 404; json := None |}.

Definition offline : Registry :=
  {| model_versions_by_hash := fun _ => [not_found];
     models_by_id := fun _ => [not_found] |}.

Definition fresh (f : FS) : World := {| fs := f; conn := connect empty_db |}.

(** ** C1: the directory fallback of the classifier *)

Definition x_safetensors : Path :=
  ["models"; "loras"; "SDXL"; "creatorX"; "x.safetensors"].

(** The reverse map itself is as the specification describes it. *)
Lemma REVERSE_MAP_eq :
  REVERSE_MAP =
  [ ("checkpoints", "Checkpoint"); ("embeddings", "TextualInversion");
    ("loras", "LORA"); ("vae", "VAE") ].
Proof. reflexivity. Qed.

(** Whatever passes the location filter starts with ["models"], and that
    is what line 144 takes for the type directory. *)
Lemma in_type_bucket_head (p : Path) :
  in_type_bucket p = true ->
  exists bucket rest, p = "models" :: bucket :: rest
    /\ In bucket ["checkpoints"; "embeddings"; "loras"; "vae"].
Proof.
  unfold in_type_bucket, path_in, MODEL_TYPE_PATHS. intros H.
  apply existsb_exists in H as (q & Hq & E). apply path_eqb_eq in E.
  destruct p as [|a [|b rest]]; cbn in E, Hq;
    try (repeat destruct Hq as [<- | Hq]; try discriminate; contradiction).
  exists b, rest.
  repeat destruct Hq as [<- | Hq]; try contradiction;
    injection E as -> ->; (split; [reflexivity|cbn; tauto]).
Qed.

(** The classifier's fallback never gets to the reverse-mapped type: the
    slice [parts[:3]] starts at ["models"], the reverse map has no such
    key, the type name is [None], the insert into [types] is swallowed, the
    select finds nothing and [dict(None)] raises. *)
Lemma classify_entry_not_found_raises reg (p : Path) (h : Hash) (w : World) r :
  in_type_bucket p = true ->
  3 <= List.length p ->
  final_answer (model_versions_by_hash reg h) = Some r ->
  status_code r = 404 ->
  result (classify_entry reg p h w) = Raise TypeError
  /\ world (classify_entry reg p h w) = w.
Proof.
  intros Hb Hlen Hr H404.
  destruct (in_type_bucket_head p Hb) as (bucket & rest & -> & _).
  destruct rest as [|c rest]; [cbn in Hlen; lia|].
  unfold classify_entry, stage_classified. cbn [firstn].
  match goal with |- result (?m w) = _ /\ _ =>
    change (wp m (fun o => result o = Raise TypeError /\ world o = w) w) end.
  apply Nat.eqb_eq in H404.
  rewrite REVERSE_MAP_eq. cbn [dict_get String.eqb Ascii.eqb Bool.eqb].
  wp_go; try (split; reflexivity);
    match goal with H : select_id Types None _ = Some _ |- _ => discriminate H end.
Qed.

(** C1 (code defect).  On [models/loras/SDXL/creatorX/x.safetensors], not
    cataloged, with a registry that answers 404: the slice of line 144 is
    [('models', 'loras', 'SDXL')], the reverse map does send ["loras"] to
    ["LORA"] but is asked for ["models"], and the classifier raises
    [TypeError] with no CatalogEntry and no ModelFile row written. *)
Theorem C1_directory_fallback_raises :
  let o := classify offline x_safetensors (fresh [(x_safetensors, "h1")]) in
  firstn 3 x_safetensors = ["models"; "loras"; "SDXL"]
  /\ dict_get REVERSE_MAP "loras" = Some "LORA"
  /\ dict_get REVERSE_MAP "models" = None
  /\ result o = Raise TypeError
  /\ civitai_models (work (conn (world o))) = []
  /\ models (work (conn (world o))) = []
  /\ committed (conn (world o)) = empty_db.
Proof. vm_compute. repeat split; reflexivity. Qed.

(** ** The two loop bodies, up to the point where they stage writes *)

Lemma relocate_eq reg p w :
  relocate reg p w =
  if negb (recognized p && in_root p) then ret tt w else
  match lookup_file (fs w) p with
  | None =>
      {| events := [EvLog p; EvHash p]; result := Raise OSError; world := w |}
  | Some h =>
      if has_hash (work (conn w)) h then
        {| events := [EvLog p; EvHash p; EvSelectHash h]; result := Ok tt;
           world := w |}
      else
        prepend [EvLog p; EvHash p; EvSelectHash h]
          (bind (relocate_target reg p h) (move_and_commit p) w)
  end.
Proof.
  unfold recognized, in_root, relocate.
  destruct (str_in (suffix p) MODEL_EXTENSIONS); [|reflexivity].
  destruct (path_eqb (parent p) MODEL_PATH); [|reflexivity].
  cbn [negb andb].
  match goal with |- ?m w = ?r => change (wp m (fun o => o = r) w) end.
  unfold_small.
  repeat
    lazymatch goal with
    | |- wp (bind (relocate_target _ _ _) _) _ _ => fail
    | _ => wp_step
    end;
    reflexivity.
Qed.

Lemma classify_eq reg p w :
  classify reg p w =
  if negb (recognized p && in_type_bucket p) then ret tt w else
  if has_path (work (conn w)) p then
    {| events := [EvLog p; EvSelectPath p]; result := Ok tt; world := w |}
  else
    match lookup_file (fs w) p with
    | None =>
        {| events := [EvLog p; EvSelectPath p; EvHash p];
           result := Raise OSError; world := w |}
    | Some h =>
        if has_hash (work (conn w)) h then
          {| events := [EvLog p; EvSelectPath p; EvHash p; EvSelectHash h];
             result := Ok tt; world := w |}
        else
          prepend [EvLog p; EvSelectPath p; EvHash p; EvSelectHash h]
            (bind (classify_new reg p h) (fun _ => commit) w)
    end.
Proof.
  unfold recognized, in_type_bucket, classify.
  destruct (str_in (suffix p) MODEL_EXTENSIONS); [|reflexivity].
  destruct (path_in (firstn 2 p) MODEL_TYPE_PATHS); [|reflexivity].
  cbn [negb andb].
  match goal with |- ?m w = ?r => change (wp m (fun o => o = r) w) end.
  unfold log, calculate_hash, select_models_by_hash, select_models_by_path.
  repeat
    lazymatch goal with
    | |- wp (bind (classify_new _ _ _) _) _ _ => fail
    | _ => wp_step
    end;
    reflexivity.
Qed.

(** ** Files *)

Lemma path_eqb_fst_sym (q p : Path) : path_eqb q p = path_eqb p q.
Proof. apply path_eqb_sym. Qed.

Lemma lookup_file_app (f g : FS) (p : Path) :
  lookup_file (f ++ g) p =
  match lookup_file f p with
  | Some h => Some h
  | None => lookup_file g p
  end.
Proof.
  induction f as [|[q h] f IH]; [reflexivity|].
  cbn. destruct (path_eqb q p); [reflexivity|apply IH].
Qed.

Lemma lookup_file_remove_same (f : FS) (p : Path) :
  lookup_file (remove_file f p) p = None.
Proof.
  unfold remove_file.
  induction f as [|[q h] f IH]; [reflexivity|].
  cbn. destruct (path_eqb q p) eqn:E; cbn; [apply IH|].
  now rewrite E.
Qed.

Lemma lookup_file_remove_other (f : FS) (p q : Path) :
  p <> q -> lookup_file (remove_file f q) p = lookup_file f p.
Proof.
  intros Hpq. unfold remove_file.
  induction f as [|[r h] f IH]; [reflexivity|].
  cbn. destruct (path_eqb r q) eqn:E; cbn.
  - apply path_eqb_eq in E. subst r.
    destruct (path_eqb q p) eqn:E'; [|apply IH].
    apply path_eqb_eq in E'. congruence.
  - now rewrite IH.
Qed.

Lemma lookup_file_rename_dst (f : FS) (src dst : Path) (h : Hash) :
  lookup_file (rename_file f src dst h) dst = Some h.
Proof.
  unfold rename_file. rewrite lookup_file_app, lookup_file_remove_same.
  cbn. now rewrite path_eqb_refl.
Qed.

Lemma lookup_file_rename_other (f : FS) (src dst p : Path) (h : Hash) :
  p <> src -> p <> dst ->
  lookup_file (rename_file f src dst h) p = lookup_file f p.
Proof.
  intros Hs Hd. unfold rename_file.
  rewrite lookup_file_app, !lookup_file_remove_other by assumption.
  destruct (lookup_file f p); [reflexivity|].
  cbn. destruct (path_eqb dst p) eqn:E; [|reflexivity].
  apply path_eqb_eq in E. congruence.
Qed.

Lemma lookup_file_rename_src (f : FS) (src dst : Path) (h : Hash) :
  src <> dst -> lookup_file (rename_file f src dst h) src = None.
Proof.
  intros Hsd. unfold rename_file.
  rewrite lookup_file_app, lookup_file_remove_other by assumption.
  rewrite lookup_file_remove_same. cbn.
  destruct (path_eqb dst src) eqn:E; [|reflexivity].
  apply path_eqb_eq in E. congruence.
Qed.

Lemma name_joinpath (d : Path) (n : string) : name (joinpath d [n]) = n.
Proof. unfold name, joinpath. apply last_last. Qed.

Lemma recognized_name (p q : Path) :
  name p = name q -> recognized p = recognized q.
Proof. unfold recognized, suffix. now intros ->. Qed.

Lemma parent_joinpath (d : Path) (n : string) : parent (joinpath d [n]) = d.
Proof. unfold parent, joinpath. apply removelast_last. Qed.

(** ** C2: a file the registry does not know *)

(** Where the relocator puts a file the registry does not know. *)
Definition uncertain_target (p : Path) : Path :=
  joinpath MODEL_NOT_FOUND_PATH [name p].

Lemma parent_uncertain_target (p : Path) :
  parent (uncertain_target p) = MODEL_NOT_FOUND_PATH.
Proof. apply parent_joinpath. Qed.

Lemma name_uncertain_target (p : Path) : name (uncertain_target p) = name p.
Proof. apply name_joinpath. Qed.

Lemma relocate_target_not_found reg p h w r :
  final_answer (model_versions_by_hash reg h) = Some r ->
  status_code r = 404 ->
  relocate_target reg p h w =
  {| events := request_events (UrlByHash h) (model_versions_by_hash reg h);
     result := Ok (uncertain_target p); world := w |}.
Proof.
  intros Hr H404. apply Nat.eqb_eq in H404. unfold relocate_target.
  match goal with |- ?m w = ?r => change (wp m (fun o => o = r) w) end.
  wp_go. unfold prepend, ret. cbn [events result world].
  now rewrite app_nil_r.
Qed.

Definition a_safetensors : Path := ["models"; "a.safetensors"].

(** C2, refuted as stated: [models/a.safetensors], unknown to the
    registry, is moved to [models/loras/null/a.safetensors], and the
    relocation leaves the catalog without any ModelFile row for it. *)
Lemma C2_counterexample :
  let o := relocate offline a_safetensors (fresh [(a_safetensors, "h1")]) in
  result o = Ok tt
  /\ lookup_file (fs (world o)) ["models"; "loras"; "null"; "a.safetensors"]
     = Some "h1"
  /\ ~ (exists row, In row (models (work (conn (world o))))
                    /\ m_hash row = "h1"
                    /\ m_path row = ["models"; "loras"; "null"; "a.safetensors"]).
Proof.
  vm_compute. repeat split; try reflexivity.
  intros (row & [] & _).
Qed.

(** ** C9: a type the directory map does not know *)

Definition mapped_types : list string :=
  ["Checkpoint"; "TextualInversion"; "LORA"; "LoCon"; "DoRA"; "VAE"].

Lemma dict_get_None (d : dict) (k : string) :
  ~ In k (map fst d) -> dict_get d k = None.
Proof.
  induction d as [|[k' v] d IH]; [reflexivity|].
  cbn. intros H. destruct (String.eqb k k') eqn:E.
  - apply String.eqb_eq in E. subst. tauto.
  - apply IH. tauto.
Qed.

Lemma unmapped_type (t : string) :
  ~ In t mapped_types -> dict_get MODEL_TYPE_TO_DIRECTORY_MAP t = None.
Proof. intros H. now apply dict_get_None. Qed.

(** Neither a move, nor a commit, nor a catalog write. *)
Definition harmless (e : Event) : Prop :=
  match e with
  | EvRename _ _ | EvCommit | EvInsert _ | EvMkdir _ => False
  | _ => True
  end.

Lemma request_events_harmless {B} url (answers : list (Response B)) :
  Forall harmless (request_events url answers).
Proof.
  induction answers as [|r rest IH]; cbn; [constructor|].
  constructor; [exact I|].
  destruct (Nat.eqb _ _); constructor; [exact I|exact IH].
Qed.

(** C9.  A found response whose [model.type] is none of the six mapped
    names makes line 200 call [Path] with [None]: the relocator raises
    [TypeError] and the run ends there, before any insert, move or commit
    for that file. *)
Theorem C9_unmapped_type_raises reg (p : Path) (h : Hash) (w : World)
    r v id r2 m t b :
  recognized p = true ->
  in_root p = true ->
  lookup_file (fs w) p = Some h ->
  has_hash (work (conn w)) h = false ->
  final_answer (model_versions_by_hash reg h) = Some r ->
  status_code r <> 404 ->
  json r = Some v ->
  mv_modelId v = Some id ->
  final_answer (models_by_id reg id) = Some r2 ->
  json r2 = Some m ->
  mv_model_type v = Some t ->
  mv_baseModel v = Some b ->
  md_creator m <> Some None ->
  ~ In t mapped_types ->
  let o := relocate reg p w in
  dict_get MODEL_TYPE_TO_DIRECTORY_MAP t = None
  /\ result o = Raise TypeError
  /\ world o = w
  /\ Forall harmless (events o).
Proof.
  intros Hrec Hroot Hfile Hhash Hr H404 Hv Hid Hr2 Hm Ht Hb Hc Hunmapped o.
  pose proof (unmapped_type t Hunmapped) as Hdir.
  split; [exact Hdir|].
  apply Nat.eqb_neq in H404.
  assert (Ho : o = prepend [EvLog p; EvHash p; EvSelectHash h]
                 (prepend (request_events (UrlByHash h) (model_versions_by_hash reg h))
                    {| events := request_events (UrlModel id) (models_by_id reg id);
                       result := Raise TypeError; world := w |})).
  { unfold o. rewrite relocate_eq, Hrec, Hroot, Hfile, Hhash. cbn [negb andb].
    f_equal.
    match goal with |- ?m w = ?r => change (wp m (fun o => o = r) w) end.
    unfold relocate_target, relocate_found, stage_found.
    destruct (md_creator m) as [[u|]|] eqn:Hcre; [| congruence |];
      wp_go; unfold prepend; cbn [events result world];
      now rewrite ?app_nil_r. }
  rewrite Ho. cbn [prepend result world events].
  repeat split.
  repeat (constructor; [exact I|]).
  apply Forall_app. split; apply request_events_harmless.
Qed.

Definition found_version (t : string) : Response ModelVersion :=
  {| status_code := 200;
     json := Some {| mv_modelId := Some 7; mv_model_type := Some t;
                     mv_baseModel := Some "SDXL" |} |}.

Definition anonymous_model : Response Model :=
  {| status_code := 200; json := Some {| md_creator := None |} |}.

(** A registry that knows every hash as a model of type [t], published
    without a creator. *)
Definition knows_as (t : string) : Registry :=
  {| model_versions_by_hash := fun _ => [found_version t];
     models_by_id := fun _ => [anonymous_model] |}.

Lemma C9_witness :
  result (relocate (knows_as "Hypernetwork") a_safetensors
            (fresh [(a_safetensors, "h1")])) = Raise TypeError.
Proof.
  refine (proj1 (proj2
    (C9_unmapped_type_raises (knows_as "Hypernetwork") a_safetensors "h1"
       (fresh [(a_safetensors, "h1")]) (found_version "Hypernetwork")
       _ 7 anonymous_model _ "Hypernetwork" "SDXL"
       eq_refl eq_refl eq_refl eq_refl eq_refl _ eq_refl eq_refl eq_refl
       eq_refl eq_refl eq_refl _ _))).
  - cbn. lia.
  - cbn. discriminate.
  - cbn. intuition discriminate.
Defined.

(** ** Blocks that only stage catalog rows

    Between the hash lookup and the commit, both loop bodies ask the
    registry and stage rows; they neither touch the files nor what is
    committed.  Every ModelFile row they stage lies in a type bucket. *)

Definition ins_ok (ins : Insert) : Prop :=
  match ins with
  | InsModels p _ _ => in_type_bucket p = true
  | _ => True
  end.

Inductive stages : World -> World -> Prop :=
| stages_refl w : stages w w
| stages_insert w w' ins : stages w w' -> ins_ok ins -> stages w (staged ins w').

Lemma stages_trans w1 w2 w3 : stages w1 w2 -> stages w2 w3 -> stages w1 w3.
Proof.
  intros H12 H23. induction H23; [assumption|].
  apply stages_insert; auto.
Qed.

Lemma staged_fs ins w : fs (staged ins w) = fs w.
Proof. unfold staged. now destruct (execute_insert _ _) as [[? ?]|]. Qed.

Lemma staged_committed ins w :
  committed (conn (staged ins w)) = committed (conn w).
Proof. unfold staged. now destruct (execute_insert _ _) as [[? ?]|]. Qed.

Lemma stages_fs w w' : stages w w' -> fs w' = fs w.
Proof. induction 1; [reflexivity|]. now rewrite staged_fs. Qed.

Lemma stages_committed w w' :
  stages w w' -> committed (conn w') = committed (conn w).
Proof. induction 1; [reflexivity|]. now rewrite staged_committed. Qed.

(** Events of a staging block. *)
Definition quiet (e : Event) : Prop :=
  match e with
  | EvGet _ | EvSleep | EvSelectId _ _ | EvLogException => True
  | EvInsert ins => ins_ok ins
  | _ => False
  end.

Definition staging {A} (m : M A) (Q : A -> Prop) : Prop :=
  forall w,
    stages w (world (m w))
    /\ Forall quiet (events (m w))
    /\ forall a, result (m w) = Ok a -> Q a.

Lemma staging_ret {A} (a : A) (Q : A -> Prop) : Q a -> staging (ret a) Q.
Proof.
  intros H w. cbn. repeat split; [constructor|constructor|].
  intros a' E. now injection E as <-.
Qed.

Lemma staging_raise {A} e (Q : A -> Prop) : staging (raise e) Q.
Proof. intros w. cbn. repeat split; [constructor|constructor|discriminate]. Qed.

Lemma staging_bind {A B} (m : M A) (k : A -> M B) Q R :
  staging m Q -> (forall a, Q a -> staging (k a) R) -> staging (bind m k) R.
Proof.
  intros Hm Hk w. rewrite bind_eq.
  destruct (Hm w) as (Hs & He & Hq).
  destruct (result (m w)) as [a| |] eqn:Er; cbn [prepend events result world].
  - destruct (Hk a (Hq a eq_refl) (world (m w))) as (Hs' & He' & Hq').
    repeat split.
    + eapply stages_trans; eassumption.
    + apply Forall_app. now split.
    + exact Hq'.
  - repeat split; [assumption|assumption|discriminate].
  - repeat split; [assumption|assumption|discriminate].
Qed.

Lemma staging_weaken {A} (m : M A) (Q R : A -> Prop) :
  staging m Q -> (forall a, Q a -> R a) -> staging m R.
Proof.
  intros Hm HQR w. destruct (Hm w) as (Hs & He & Hq). repeat split; auto.
Qed.

Lemma staging_send_get_request {B} url (answers : list (Response B)) :
  staging (send_get_request url answers) (fun _ => True).
Proof.
  intros w. rewrite send_get_request_eq. cbn. repeat split; [constructor|].
  induction answers as [|r rest IH]; cbn; [constructor|].
  constructor; [exact I|].
  destruct (Nat.eqb _ _); constructor; [exact I|exact IH].
Qed.

Lemma staging_insert ins (strict : bool) :
  ins_ok ins -> staging (insert_into_database ins strict false) (fun _ => True).
Proof.
  intros Hok w. destruct strict.
  - rewrite insert_strict_eq.
    destruct (execute_insert ins (work (conn w))) eqn:E; cbn.
    + repeat split; [|repeat constructor; exact Hok].
      apply stages_insert; [constructor|exact Hok].
    + repeat split; [constructor|repeat constructor; exact Hok].
  - rewrite insert_ignore_eq. cbn.
    repeat split; [|repeat constructor; exact Hok].
    apply stages_insert; [constructor|exact Hok].
Qed.

Lemma execute_eq ins w :
  execute ins w =
  match execute_insert ins (work (conn w)) with
  | Some _ => {| events := [EvInsert ins]; result := Ok tt; world := staged ins w |}
  | None => {| events := [EvInsert ins]; result := Raise IntegrityError;
               world := w |}
  end.
Proof.
  unfold staged.
  match goal with |- ?m w = ?r => change (wp m (fun o => o = r) w) end.
  wp_run; reflexivity.
Qed.

Lemma staging_execute ins : ins_ok ins -> staging (execute ins) (fun _ => True).
Proof.
  intros Hok w. rewrite execute_eq.
  destruct (execute_insert ins (work (conn w))) eqn:E; cbn.
  - repeat split; [|repeat constructor; exact Hok].
    apply stages_insert; [constructor|exact Hok].
  - repeat split; [constructor|repeat constructor; exact Hok].
Qed.

Lemma staging_fetch_id t n : staging (fetch_id t n) (fun _ => True).
Proof.
  intros w. unfold fetch_id.
  match goal with |- context [?m w] =>
    change (wp m (fun o => stages w (world o) /\ Forall quiet (events o)
                           /\ forall a, result o = Ok a -> True) w) end.
  wp_run; cbn; repeat split; repeat constructor.
Qed.

Lemma staging_get_conn : staging get_conn (fun _ => True).
Proof. intros w. cbn. repeat split; constructor. Qed.

Lemma staging_response_json {B} (r : Response B) :
  staging (response_json r) (fun _ => True).
Proof.
  unfold response_json. destruct (json r);
    [now apply staging_ret|apply staging_raise].
Qed.

Lemma staging_subscript {A} (field : option A) :
  staging (subscript field) (fun _ => True).
Proof.
  unfold subscript. destruct field;
    [now apply staging_ret|apply staging_raise].
Qed.

Lemma staging_resolve_refs t b c :
  staging (resolve_refs t b c) (fun _ => True).
Proof.
  unfold resolve_refs.
  repeat first
    [ apply staging_insert; exact I
    | apply staging_fetch_id
    | now apply staging_ret
    | eapply staging_bind; [|intros ? _] ].
Qed.

Lemma mapped_directory_in_bucket t d (rest : list string) :
  dict_get MODEL_TYPE_TO_DIRECTORY_MAP t = Some d ->
  in_type_bucket (joinpath MODEL_PATH (d :: rest)) = true.
Proof.
  unfold MODEL_TYPE_TO_DIRECTORY_MAP. cbn [dict_get].
  repeat (destruct (String.eqb t _);
          [intros E; injection E as <-; reflexivity|]).
  discriminate.
Qed.

Lemma staging_classify_entry reg p h :
  in_type_bucket p = true ->
  staging (classify_entry reg p h) (fun _ => True).
Proof.
  intros Hb. unfold classify_entry.
  destruct (firstn 3 p) as [|a [|b [|c [|? ?]]]]; try apply staging_raise.
  eapply staging_bind; [apply staging_send_get_request|intros r _].
  eapply staging_bind with (Q := fun _ => True).
  { destruct (Nat.eqb _ _); [now apply staging_ret|].
    eapply staging_bind; [apply staging_response_json|intros v _].
    eapply staging_bind; [apply staging_subscript|intros t _].
    now apply staging_ret. }
  intros t _. unfold stage_classified.
  eapply staging_bind; [apply staging_resolve_refs|intros [[i j] k] _].
  eapply staging_bind; [apply staging_insert; exact I|intros _ _].
  eapply staging_bind; [apply staging_get_conn|intros cn _].
  apply staging_execute. exact Hb.
Qed.

Lemma staging_classify_new reg p h :
  in_type_bucket p = true ->
  staging (classify_new reg p h) (fun _ => True).
Proof.
  intros Hb. unfold classify_new. destruct (path_eqb _ _).
  - apply staging_insert. exact Hb.
  - now apply staging_classify_entry.
Qed.

Lemma staging_relocate_found reg p h r :
  staging (relocate_found reg p h r) (fun t => in_type_bucket t = true).
Proof.
  unfold relocate_found.
  eapply staging_bind; [apply staging_response_json|intros v _].
  eapply staging_bind; [apply staging_subscript|intros id _].
  eapply staging_bind; [apply staging_send_get_request|intros r2 _].
  eapply staging_bind; [apply staging_response_json|intros m _].
  eapply staging_bind; [apply staging_subscript|intros t _].
  eapply staging_bind; [apply staging_subscript|intros b _].
  eapply staging_bind with (Q := fun _ => True).
  { destruct (md_creator m); [apply staging_subscript|now apply staging_ret]. }
  intros c _.
  eapply staging_bind with (Q := fun t => in_type_bucket t = true).
  { destruct (dict_get _ _) eqn:E; [|apply staging_raise].
    apply staging_ret. eapply mapped_directory_in_bucket; eassumption. }
  intros target Ht. unfold stage_found.
  eapply staging_bind; [apply staging_resolve_refs|intros [[i j] k] _].
  eapply staging_bind; [apply staging_insert; exact I|intros _ _].
  eapply staging_bind; [apply staging_get_conn|intros cn _].
  eapply staging_bind; [apply staging_insert; exact Ht|intros _ _].
  now apply staging_ret.
Qed.

Lemma staging_relocate_target reg p h :
  staging (relocate_target reg p h) (fun t => in_type_bucket t = true).
Proof.
  unfold relocate_target.
  eapply staging_bind; [apply staging_send_get_request|intros r _].
  destruct (Nat.eqb _ _).
  - now apply staging_ret.
  - apply staging_relocate_found.
Qed.

(** ** One file through the relocator: every way it can go *)

Definition committed_ (w : World) : World :=
  {| fs := fs w;
     conn := {| committed := work (conn w); work := work (conn w);
                lastrowid := lastrowid (conn w) |} |}.

Inductive relocate_outcome (p : Path) (w : World) (o : Out unit) : Prop :=
| ro_filtered :
    recognized p && in_root p = false ->
    o = ret tt w ->
    relocate_outcome p w o
| ro_unreadable :
    recognized p && in_root p = true ->
    lookup_file (fs w) p = None ->
    o = {| events := [EvLog p; EvHash p]; result := Raise OSError; world := w |} ->
    relocate_outcome p w o
| ro_known h :
    recognized p && in_root p = true ->
    lookup_file (fs w) p = Some h ->
    has_hash (work (conn w)) h = true ->
    o = {| events := [EvLog p; EvHash p; EvSelectHash h]; result := Ok tt;
           world := w |} ->
    relocate_outcome p w o
| ro_halted h evs w1 r :
    recognized p && in_root p = true ->
    lookup_file (fs w) p = Some h ->
    has_hash (work (conn w)) h = false ->
    stages w w1 -> Forall quiet evs ->
    r <> Ok tt ->
    o = {| events := [EvLog p; EvHash p; EvSelectHash h] ++ evs; result := r;
           world := w1 |} ->
    relocate_outcome p w o
| ro_conflict h evs w1 t :
    recognized p && in_root p = true ->
    lookup_file (fs w) p = Some h ->
    has_hash (work (conn w)) h = false ->
    stages w w1 -> Forall quiet evs ->
    in_type_bucket t = true ->
    exists_ (fs w) t = true ->
    o = {| events := [EvLog p; EvHash p; EvSelectHash h] ++ evs ++
                     [EvExists t; EvRollback];
           result := Ok tt; world := rolled_back w1 |} ->
    relocate_outcome p w o
| ro_blocked h evs w1 t :
    recognized p && in_root p = true ->
    lookup_file (fs w) p = Some h ->
    has_hash (work (conn w)) h = false ->
    stages w w1 -> Forall quiet evs ->
    in_type_bucket t = true ->
    exists_ (fs w) t = false ->
    mkdir_blocked (fs w) (parent t) = true ->
    o = {| events := [EvLog p; EvHash p; EvSelectHash h] ++ evs ++
                     [EvExists t; EvMkdir (parent t)];
           result := Raise OSError; world := w1 |} ->
    relocate_outcome p w o
| ro_moved h evs w1 t :
    recognized p && in_root p = true ->
    lookup_file (fs w) p = Some h ->
    has_hash (work (conn w)) h = false ->
    stages w w1 -> Forall quiet evs ->
    in_type_bucket t = true ->
    exists_ (fs w) t = false ->
    mkdir_blocked (fs w) (parent t) = false ->
    o = {| events := [EvLog p; EvHash p; EvSelectHash h] ++ evs ++
                     [EvExists t; EvMkdir (parent t); EvRename p t;
                      EvLogMoved t; EvCommit];
           result := Ok tt; world := moved w1 p t h |} ->
    relocate_outcome p w o.

Lemma relocate_outcome_holds reg p w : relocate_outcome p w (relocate reg p w).
Proof.
  rewrite relocate_eq.
  destruct (recognized p && in_root p) eqn:Hf; cbn [negb];
    [|apply ro_filtered; auto].
  destruct (lookup_file (fs w) p) as [h|] eqn:Hl; [|apply ro_unreadable; auto].
  destruct (has_hash (work (conn w)) h) eqn:Hh; [eapply ro_known; eauto|].
  rewrite bind_eq.
  destruct (staging_relocate_target reg p h w) as (Hs & He & Hq).
  pose proof (stages_fs _ _ Hs) as Hfs.
  destruct (result (relocate_target reg p h w)) as [t| |] eqn:Er.
  - specialize (Hq t eq_refl). rewrite move_and_commit_eq, Hfs.
    destruct (exists_ (fs w) t) eqn:Hex.
    { eapply ro_conflict with (h := h) (t := t); eauto. }
    destruct (mkdir_blocked (fs w) (parent t)) eqn:Hmk.
    { eapply ro_blocked with (h := h) (t := t); eauto. }
    rewrite Hl. eapply ro_moved with (h := h) (t := t); eauto.
  - eapply ro_halted with (h := h) (r := Raise e); eauto. discriminate.
  - eapply ro_halted with (h := h) (r := Hang); eauto. discriminate.
Qed.

(** ** One file through the classifier *)

Inductive classify_outcome (p : Path) (w : World) (o : Out unit) : Prop :=
| co_filtered :
    recognized p && in_type_bucket p = false ->
    o = ret tt w ->
    classify_outcome p w o
| co_known_path :
    recognized p && in_type_bucket p = true ->
    has_path (work (conn w)) p = true ->
    o = {| events := [EvLog p; EvSelectPath p]; result := Ok tt; world := w |} ->
    classify_outcome p w o
| co_unreadable :
    recognized p && in_type_bucket p = true ->
    has_path (work (conn w)) p = false ->
    lookup_file (fs w) p = None ->
    o = {| events := [EvLog p; EvSelectPath p; EvHash p];
           result := Raise OSError; world := w |} ->
    classify_outcome p w o
| co_known_hash h :
    recognized p && in_type_bucket p = true ->
    has_path (work (conn w)) p = false ->
    lookup_file (fs w) p = Some h ->
    has_hash (work (conn w)) h = true ->
    o = {| events := [EvLog p; EvSelectPath p; EvHash p; EvSelectHash h];
           result := Ok tt; world := w |} ->
    classify_outcome p w o
| co_halted h evs w1 r :
    recognized p && in_type_bucket p = true ->
    has_path (work (conn w)) p = false ->
    lookup_file (fs w) p = Some h ->
    has_hash (work (conn w)) h = false ->
    stages w w1 -> Forall quiet evs ->
    r <> Ok tt ->
    o = {| events := [EvLog p; EvSelectPath p; EvHash p; EvSelectHash h] ++ evs;
           result := r; world := w1 |} ->
    classify_outcome p w o
| co_cataloged h evs w1 :
    recognized p && in_type_bucket p = true ->
    has_path (work (conn w)) p = false ->
    lookup_file (fs w) p = Some h ->
    has_hash (work (conn w)) h = false ->
    stages w w1 -> Forall quiet evs ->
    o = {| events := [EvLog p; EvSelectPath p; EvHash p; EvSelectHash h] ++ evs
                     ++ [EvCommit];
           result := Ok tt; world := committed_ w1 |} ->
    classify_outcome p w o.

Lemma commit_eq w :
  commit w = {| events := [EvCommit]; result := Ok tt; world := committed_ w |}.
Proof. reflexivity. Qed.

Lemma classify_outcome_holds reg p w : classify_outcome p w (classify reg p w).
Proof.
  rewrite classify_eq.
  destruct (recognized p && in_type_bucket p) eqn:Hf; cbn [negb];
    [|apply co_filtered; auto].
  destruct (has_path (work (conn w)) p) eqn:Hp; [apply co_known_path; auto|].
  destruct (lookup_file (fs w) p) as [h|] eqn:Hl; [|apply co_unreadable; auto].
  destruct (has_hash (work (conn w)) h) eqn:Hh; [eapply co_known_hash; eauto|].
  rewrite bind_eq.
  apply andb_true_iff in Hf as Hf'. destruct Hf' as [_ Hb].
  destruct (staging_classify_new reg p h Hb w) as (Hs & He & _).
  destruct (result (classify_new reg p h w)) as [[]| |] eqn:Er.
  - rewrite commit_eq. eapply co_cataloged with (h := h); eauto.
  - eapply co_halted with (h := h) (r := Raise e); eauto. discriminate.
  - eapply co_halted with (h := h) (r := Hang); eauto. discriminate.
Qed.

(** ** C4: the order of move and commit *)

Definition is_rename (e : Event) : bool :=
  match e with EvRename _ _ => true | _ => false end.

Definition is_commit (e : Event) : bool :=
  match e with EvCommit => true | _ => false end.

(** Some commit is followed by a move. *)
Fixpoint commit_precedes_move (tr : list Event) : bool :=
  match tr with
  | [] => false
  | e :: rest =>
      (is_commit e && existsb is_rename rest) || commit_precedes_move rest
  end.

(** Some move is followed by a commit. *)
Fixpoint move_precedes_commit (tr : list Event) : bool :=
  match tr with
  | [] => false
  | e :: rest =>
      (is_rename e && existsb is_commit rest) || move_precedes_commit rest
  end.

Lemma quiet_not_commit evs : Forall quiet evs -> existsb is_commit evs = false.
Proof.
  induction 1 as [|e evs He _ IH]; [reflexivity|].
  cbn. rewrite IH. now destruct e.
Qed.

Lemma quiet_not_rename evs : Forall quiet evs -> existsb is_rename evs = false.
Proof.
  induction 1 as [|e evs He _ IH]; [reflexivity|].
  cbn. rewrite IH. now destruct e.
Qed.

Lemma commit_precedes_move_quiet evs tail :
  Forall quiet evs ->
  commit_precedes_move (evs ++ tail) = commit_precedes_move tail.
Proof.
  induction 1 as [|e evs He _ IH]; [reflexivity|].
  cbn. rewrite IH. now destruct e.
Qed.

Lemma move_precedes_commit_quiet evs tail :
  Forall quiet evs ->
  move_precedes_commit (evs ++ tail) = move_precedes_commit tail.
Proof.
  induction 1 as [|e evs He _ IH]; [reflexivity|].
  cbn. rewrite IH. now destruct e.
Qed.

Lemma commit_precedes_move_quiet_only evs :
  Forall quiet evs -> commit_precedes_move evs = false.
Proof.
  intros H. rewrite <- (app_nil_r evs).
  now rewrite commit_precedes_move_quiet.
Qed.

Lemma existsb_rename_quiet evs tail :
  Forall quiet evs ->
  existsb is_rename (evs ++ tail) = existsb is_rename tail.
Proof.
  intros H. rewrite existsb_app, quiet_not_rename by assumption. reflexivity.
Qed.

(** C4, refuted as stated: in the relocation of [models/a.safetensors]
    the file is moved and no commit comes before the move. *)
Lemma C4_counterexample :
  let o := relocate offline a_safetensors (fresh [(a_safetensors, "h1")]) in
  existsb is_rename (events o) = true
  /\ commit_precedes_move (events o) = false.
Proof. vm_compute. split; reflexivity. Qed.

(** A plain file sits where the directory [models/checkpoints] should be:
    the move of a file the registry knows as a checkpoint fails. *)
Definition blocked_disk : FS :=
  [(a_safetensors, "h1"); (["models"; "checkpoints"], "h0")].

Lemma move_failure_leaves_catalog :
  let w := fresh blocked_disk in
  let o := relocate (knows_as "Checkpoint") a_safetensors w in
  result o = Raise OSError
  /\ existsb is_commit (events o) = false
  /\ disk_after o = (blocked_disk, empty_db).
Proof. vm_compute. repeat split; reflexivity. Qed.

Lemma relocate_in_no_failure reg p w :
  relocate_in no_failure reg p w = relocate reg p w.
Proof. reflexivity. Qed.

Lemma move_and_commit_in_eq env (p t : Path) (w : World) :
  move_and_commit_in env p t w =
  if exists_ (fs w) t then
    {| events := [EvExists t; EvRollback]; result := Ok tt;
       world := rolled_back w |}
  else
    match mkdir_raises env with
    | Some e => {| events := [EvExists t]; result := Raise e; world := w |}
    | None =>
        if mkdir_blocked (fs w) (parent t) then
          {| events := [EvExists t; EvMkdir (parent t)];
             result := Raise OSError; world := w |}
        else
          match rename_raises env with
          | Some e =>
              {| events := [EvExists t; EvMkdir (parent t)];
                 result := Raise e; world := w |}
          | None =>
              match lookup_file (fs w) p with
              | None =>
                  {| events := [EvExists t; EvMkdir (parent t); EvRename p t];
                     result := Raise OSError; world := w |}
              | Some h =>
                  prepend [EvExists t; EvMkdir (parent t); EvRename p t]
                    ((log_in (log_moved env) (EvLogMoved t) ;;
                      commit_in (commit_raises env)) (renamed w p t h))
              end
          end
    end.
Proof.
  unfold move_and_commit_in, mkdir_in, rename_in.
  destruct (mkdir_raises env) as [e1|], (rename_raises env) as [e2|];
    (match goal with |- ?m w = ?r => change (wp m (fun o => o = r) w) end;
     unfold_small;
     repeat
       lazymatch goal with
       | |- wp (bind (log_in _ _) _) _ _ => fail
       | _ => wp_step
       end;
     reflexivity).
Qed.

(** What follows the rename: the log of line 225 and the commit. *)
Definition after_move (env : Env) (t : Path) (w : World) : Out unit :=
  match log_moved env, commit_raises env with
  | Logged, None =>
      {| events := [EvLogMoved t; EvCommit]; result := Ok tt;
         world := committed_ w |}
  | Logged, Some e =>
      {| events := [EvLogMoved t]; result := Raise e; world := w |}
  | LogRaises written e, _ =>
      {| events := if written then [EvLogMoved t] else [];
         result := Raise e; world := w |}
  end.

Lemma after_move_eq env t w :
  (log_in (log_moved env) (EvLogMoved t) ;; commit_in (commit_raises env)) w
  = after_move env t w.
Proof.
  unfold after_move, log_in, commit_in.
  destruct (log_moved env) as [|[] e1], (commit_raises env) as [e2|];
    reflexivity.
Qed.

Lemma relocate_in_eq env reg p w :
  relocate_in env reg p w =
  if negb (recognized p && in_root p) then ret tt w else
  match log_path env with
  | LogRaises written e =>
      {| events := if written then [EvLog p] else []; result := Raise e;
         world := w |}
  | Logged =>
      match lookup_file (fs w) p with
      | None =>
          {| events := [EvLog p; EvHash p]; result := Raise OSError;
             world := w |}
      | Some h =>
          if has_hash (work (conn w)) h then
            {| events := [EvLog p; EvHash p; EvSelectHash h]; result := Ok tt;
               world := w |}
          else
            prepend [EvLog p; EvHash p; EvSelectHash h]
              (bind (relocate_target reg p h) (move_and_commit_in env p) w)
      end
  end.
Proof.
  unfold recognized, in_root, relocate_in.
  destruct (str_in (suffix p) MODEL_EXTENSIONS); [|reflexivity].
  destruct (path_eqb (parent p) MODEL_PATH); [|reflexivity].
  cbn [negb andb].
  unfold log_in. destruct (log_path env) as [|[] e]; [| reflexivity | reflexivity].
  match goal with |- ?m w = ?r => change (wp m (fun o => o = r) w) end.
  unfold_small.
  repeat
    lazymatch goal with
    | |- wp (bind (relocate_target _ _ _) _) _ _ => fail
    | _ => wp_step
    end;
    reflexivity.
Qed.

(** One file through the relocator, every way it can go when the log and
    the commit can fail. *)
Inductive relocate_in_outcome (env : Env) (p : Path) (w : World) (o : Out unit)
  : Prop :=
| rio_filtered :
    recognized p && in_root p = false ->
    o = ret tt w ->
    relocate_in_outcome env p w o
| rio_log_failed written e :
    recognized p && in_root p = true ->
    log_path env = LogRaises written e ->
    o = {| events := if written then [EvLog p] else []; result := Raise e;
           world := w |} ->
    relocate_in_outcome env p w o
| rio_unreadable :
    recognized p && in_root p = true ->
    lookup_file (fs w) p = None ->
    o = {| events := [EvLog p; EvHash p]; result := Raise OSError; world := w |} ->
    relocate_in_outcome env p w o
| rio_known h :
    recognized p && in_root p = true ->
    lookup_file (fs w) p = Some h ->
    has_hash (work (conn w)) h = true ->
    o = {| events := [EvLog p; EvHash p; EvSelectHash h]; result := Ok tt;
           world := w |} ->
    relocate_in_outcome env p w o
| rio_halted h evs w1 r :
    recognized p && in_root p = true ->
    lookup_file (fs w) p = Some h ->
    has_hash (work (conn w)) h = false ->
    stages w w1 -> Forall quiet evs ->
    r <> Ok tt ->
    o = {| events := [EvLog p; EvHash p; EvSelectHash h] ++ evs; result := r;
           world := w1 |} ->
    relocate_in_outcome env p w o
| rio_conflict h evs w1 t :
    recognized p && in_root p = true ->
    lookup_file (fs w) p = Some h ->
    has_hash (work (conn w)) h = false ->
    stages w w1 -> Forall quiet evs ->
    exists_ (fs w) t = true ->
    o = {| events := [EvLog p; EvHash p; EvSelectHash h] ++ evs ++
                     [EvExists t; EvRollback];
           result := Ok tt; world := rolled_back w1 |} ->
    relocate_in_outcome env p w o
| rio_blocked h evs w1 t :
    recognized p && in_root p = true ->
    lookup_file (fs w) p = Some h ->
    has_hash (work (conn w)) h = false ->
    stages w w1 -> Forall quiet evs ->
    exists_ (fs w) t = false ->
    mkdir_blocked (fs w) (parent t) = true ->
    o = {| events := [EvLog p; EvHash p; EvSelectHash h] ++ evs ++
                     [EvExists t; EvMkdir (parent t)];
           result := Raise OSError; world := w1 |} ->
    relocate_in_outcome env p w o
| rio_move_failed h evs w1 t e made :
    recognized p && in_root p = true ->
    lookup_file (fs w) p = Some h ->
    has_hash (work (conn w)) h = false ->
    stages w w1 -> Forall quiet evs ->
    exists_ (fs w) t = false ->
    move_fails env = true ->
    o = {| events := [EvLog p; EvHash p; EvSelectHash h] ++ evs ++
                     EvExists t :: (if made : bool then [EvMkdir (parent t)]
                                    else []);
           result := Raise e; world := w1 |} ->
    relocate_in_outcome env p w o
| rio_renamed h evs w1 t :
    recognized p && in_root p = true ->
    log_path env = Logged ->
    move_fails env = false ->
    lookup_file (fs w) p = Some h ->
    has_hash (work (conn w)) h = false ->
    stages w w1 -> Forall quiet evs ->
    exists_ (fs w) t = false ->
    mkdir_blocked (fs w) (parent t) = false ->
    o = prepend ([EvLog p; EvHash p; EvSelectHash h] ++ evs ++
                 [EvExists t; EvMkdir (parent t); EvRename p t])
          (after_move env t (renamed w1 p t h)) ->
    relocate_in_outcome env p w o.

Lemma relocate_in_outcome_holds env reg p w :
  relocate_in_outcome env p w (relocate_in env reg p w).
Proof.
  rewrite relocate_in_eq.
  destruct (recognized p && in_root p) eqn:Hf; cbn [negb];
    [|apply rio_filtered; auto].
  destruct (log_path env) as [|written e] eqn:Hlog;
    [|eapply rio_log_failed; eauto].
  destruct (lookup_file (fs w) p) as [h|] eqn:Hl; [|apply rio_unreadable; auto].
  destruct (has_hash (work (conn w)) h) eqn:Hh; [eapply rio_known; eauto|].
  rewrite bind_eq.
  destruct (staging_relocate_target reg p h w) as (Hs & He & Hq).
  pose proof (stages_fs _ _ Hs) as Hfs.
  destruct (result (relocate_target reg p h w)) as [t| |] eqn:Er.
  - rewrite move_and_commit_in_eq, Hfs.
    destruct (exists_ (fs w) t) eqn:Hex.
    { eapply rio_conflict with (h := h) (t := t); eauto. }
    destruct (mkdir_raises env) as [e1|] eqn:Hmd.
    { eapply rio_move_failed with (h := h) (t := t) (e := e1) (made := false);
        eauto. unfold move_fails. now rewrite Hmd. }
    destruct (mkdir_blocked (fs w) (parent t)) eqn:Hmk.
    { eapply rio_blocked with (h := h) (t := t); eauto. }
    destruct (rename_raises env) as [e2|] eqn:Hrn.
    { eapply rio_move_failed with (h := h) (t := t) (e := e2) (made := true);
        eauto. unfold move_fails. now rewrite Hmd, Hrn. }
    rewrite Hl, after_move_eq.
    eapply rio_renamed with (h := h) (t := t); eauto.
    { unfold move_fails. now rewrite Hmd, Hrn. }
    unfold prepend. cbn [events result world].
    now rewrite <- !app_assoc.
  - eapply rio_halted with (h := h) (r := Raise e); eauto. discriminate.
  - eapply rio_halted with (h := h) (r := Hang); eauto. discriminate.
Qed.

Lemma existsb_commit_quiet evs tail :
  Forall quiet evs ->
  existsb is_commit (evs ++ tail) = existsb is_commit tail.
Proof.
  intros H. rewrite existsb_app, quiet_not_commit by assumption. reflexivity.
Qed.

(** C4, amended.  The relocator moves the file first and commits
    afterwards, whatever fails: no relocation commits before it moves.  A
    relocation that does not make the rename leaves the files and the
    committed catalog as they were, and a move that fails, at [mkdir] or at
    [rename], is not made.  Once the rename is made the file is at its new
    path; the catalog is then committed if the log of line 225 and the
    commit both go through, and if one of them raises the relocation ends
    with the file moved and nothing committed.  A relocation that does not
    complete never changes the committed catalog. *)
Theorem C4_move_then_commit env reg (p : Path) (w : World) :
  let o := relocate_in env reg p w in
  commit_precedes_move (events o) = false
  /\ (existsb is_rename (events o) = false ->
      fs (world o) = fs w /\ committed (conn (world o)) = committed (conn w))
  /\ (move_fails env = true -> existsb is_rename (events o) = false)
  /\ (existsb is_rename (events o) = true ->
      (exists t h, lookup_file (fs w) p = Some h
                   /\ fs (world o) = rename_file (fs w) p t h)
      /\ (fails_after_move env = false ->
          result o = Ok tt /\ move_precedes_commit (events o) = true
          /\ committed (conn (world o)) = work (conn (world o)))
      /\ (fails_after_move env = true ->
          result o <> Ok tt /\ existsb is_commit (events o) = false))
  /\ (result o <> Ok tt ->
      committed (conn (world o)) = committed (conn w)).
Proof.
  cbn zeta.
  destruct (relocate_in_outcome_holds env reg p w)
    as [Hf -> | written e Hf Hlog -> | Hf Hl -> | h Hf Hl Hh ->
        | h evs w1 r Hf Hl Hh Hs He Hr ->
        | h evs w1 t Hf Hl Hh Hs He Hex ->
        | h evs w1 t Hf Hl Hh Hs He Hex Hmk ->
        | h evs w1 t e made Hf Hl Hh Hs He Hex Hmv ->
        | h evs w1 t Hf Hlog Hmv Hl Hh Hs He Hex Hmk ->].
  9:{ unfold after_move, fails_after_move.
      pose proof (stages_fs _ _ Hs) as Hfs.
      pose proof (stages_committed _ _ Hs) as Hc.
      rewrite Hmv.
      destruct (log_moved env) as [|[] e1], (commit_raises env) as [e2|];
        cbn [prepend events result world renamed committed_ fs conn committed work];
        rewrite <- ?app_assoc;
        cbn [app commit_precedes_move move_precedes_commit existsb is_commit
             is_rename andb orb];
        rewrite ?commit_precedes_move_quiet, ?move_precedes_commit_quiet,
          ?existsb_rename_quiet, ?existsb_commit_quiet by assumption;
        cbn [app commit_precedes_move move_precedes_commit existsb is_commit
             is_rename andb orb];
        (split; [reflexivity|]); (split; [discriminate|]);
        (split; [discriminate|]);
        (split; [intros _; split; [exists t, h; rewrite Hfs; auto|];
                 split; intros E; try discriminate E;
                 repeat split; auto; discriminate
                |]);
        intros Hr; auto; now elim Hr. }
  all: try destruct written; try destruct made;
    cbn [events result world ret app commit_precedes_move move_precedes_commit
         existsb is_commit is_rename andb orb rolled_back fs conn committed];
    rewrite ?commit_precedes_move_quiet, ?move_precedes_commit_quiet,
      ?existsb_rename_quiet by assumption;
    rewrite ?commit_precedes_move_quiet_only, ?quiet_not_rename by assumption;
    cbn [commit_precedes_move move_precedes_commit existsb is_commit is_rename
         andb orb];
    (split; [reflexivity|]);
    (split; [intros _; split; auto using stages_fs, stages_committed|]);
    (split; [reflexivity|]);
    (split; [discriminate|]);
    intros _; auto using stages_committed.
Qed.

(** The commit of line 227 fails. *)
Definition failing_commit : Env :=
  {| log_path := Logged; mkdir_raises := None; rename_raises := None;
     log_moved := Logged; commit_raises := Some OperationalError |}.

(** The commit fails on [models/a.safetensors], which the registry does
    not know: the file is in [models/loras/null], the relocation has ended
    with the exception, and the committed catalog is as it was. *)
Lemma C4_witness :
  fs (world (relocate_in failing_commit offline a_safetensors
               (fresh [(a_safetensors, "h1")])))
  = [(uncertain_target a_safetensors, "h1")]
  /\ result (relocate_in failing_commit offline a_safetensors
               (fresh [(a_safetensors, "h1")])) <> Ok tt
  /\ committed (conn (world (relocate_in failing_commit offline a_safetensors
                               (fresh [(a_safetensors, "h1")]))))
     = empty_db.
Proof.
  destruct (C4_move_then_commit failing_commit offline a_safetensors
              (fresh [(a_safetensors, "h1")]))
    as (_ & _ & _ & Hmoved & Hcat).
  destruct (Hmoved eq_refl) as (_ & _ & Hfail).
  destruct (Hfail eq_refl) as (Hres & _).
  split; [reflexivity|]. split; [exact Hres|]. exact (Hcat Hres).
Defined.

(** ** C5: the target is already there *)


Definition b_safetensors : Path := ["models"; "b.safetensors"].











(** ** C8: the path lookup before the hash *)

Definition is_select_path (e : Event) : bool :=
  match e with EvSelectPath _ => true | _ => false end.

Definition is_hash_of (p : Path) (e : Event) : bool :=
  match e with EvHash q => path_eqb p q | _ => false end.

(** The file's hash is never computed before the catalog was asked for
    its path. *)
Fixpoint path_asked_before_hash (p : Path) (tr : list Event) : bool :=
  match tr with
  | [] => true
  | EvSelectPath q :: rest =>
      if path_eqb p q then true else path_asked_before_hash p rest
  | EvHash q :: rest =>
      if path_eqb p q then false else path_asked_before_hash p rest
  | _ :: rest => path_asked_before_hash p rest
  end.

(** C8, refuted as stated: the relocator hashes [models/a.safetensors]
    without having asked the catalog for its path. *)
Lemma C8_counterexample :
  let o := relocate offline a_safetensors (fresh [(a_safetensors, "h1")]) in
  path_asked_before_hash a_safetensors (events o) = false
  /\ existsb is_select_path (events o) = false
  /\ existsb (is_hash_of a_safetensors) (events o) = true.
Proof. vm_compute. repeat split; reflexivity. Qed.

Lemma quiet_not_select_path evs :
  Forall quiet evs -> existsb is_select_path evs = false.
Proof.
  induction 1 as [|e evs He _ IH]; [reflexivity|].
  cbn. rewrite IH. now destruct e.
Qed.

Lemma quiet_not_hash evs p :
  Forall quiet evs -> existsb (is_hash_of p) evs = false.
Proof.
  induction 1 as [|e evs He _ IH]; [reflexivity|].
  cbn. rewrite IH. now destruct e.
Qed.

(** C8, amended.  The classifier asks the catalog for the file's path
    before it computes the hash, and a file whose path is cataloged is
    skipped without being hashed.  The relocator never asks by path: it
    hashes every recognized file that sits directly under [models]. *)
Theorem C8_path_lookup_classifier_only reg (p : Path) (w : World) :
  (path_asked_before_hash p (events (classify reg p w)) = true
   /\ (has_path (work (conn w)) p = true ->
       existsb (is_hash_of p) (events (classify reg p w)) = false
       /\ result (classify reg p w) = Ok tt
       /\ world (classify reg p w) = w))
  /\ existsb is_select_path (events (relocate reg p w)) = false
  /\ (recognized p && in_root p = true ->
      existsb (is_hash_of p) (events (relocate reg p w)) = true).
Proof.
  split; [|split].
  - destruct (classify_outcome_holds reg p w)
      as [Hf -> | Hf Hp -> | Hf Hp Hl -> | h Hf Hp Hl Hh ->
          | h evs w1 r Hf Hp Hl Hh Hs He Hr ->
          | h evs w1 Hf Hp Hl Hh Hs He ->];
      cbn [events result world ret app path_asked_before_hash existsb
           is_hash_of orb];
      rewrite ?path_eqb_refl;
      (split; [reflexivity|]); intros Hknown; try congruence;
      repeat split; reflexivity.
  - destruct (relocate_outcome_holds reg p w)
      as [Hf -> | Hf Hl -> | h Hf Hl Hh ->
          | h evs w1 r Hf Hl Hh Hs He Hr ->
          | h evs w1 t Hf Hl Hh Hs He Ht Hex ->
          | h evs w1 t Hf Hl Hh Hs He Ht Hex Hmk ->
          | h evs w1 t Hf Hl Hh Hs He Ht Hex Hmk ->];
      cbn [events ret app existsb is_select_path orb];
      rewrite ?existsb_app, ?quiet_not_select_path by assumption;
      reflexivity.
  - intros Hpass.
    destruct (relocate_outcome_holds reg p w)
      as [Hf -> | Hf Hl -> | h Hf Hl Hh ->
          | h evs w1 r Hf Hl Hh Hs He Hr ->
          | h evs w1 t Hf Hl Hh Hs He Ht Hex ->
          | h evs w1 t Hf Hl Hh Hs He Ht Hex Hmk ->
          | h evs w1 t Hf Hl Hh Hs He Ht Hex Hmk ->];
      try congruence;
      cbn [events app existsb is_hash_of orb];
      rewrite path_eqb_refl; reflexivity.
Qed.

Lemma C8_witness :
  path_asked_before_hash x_safetensors
    (events (classify offline x_safetensors (fresh [(x_safetensors, "h1")])))
  = true.
Proof.
  exact (proj1 (proj1 (C8_path_lookup_classifier_only offline x_safetensors
                         (fresh [(x_safetensors, "h1")])))).
Defined.

(** ** C10: files that neither pass looks at *)

(** Recognized, but neither directly under [models] nor in a type bucket. *)
Definition out_of_scope (p : Path) : Prop :=
  recognized p = true /\ in_root p = false /\ in_type_bucket p = false.

Lemma out_of_scope_steps reg p w :
  out_of_scope p ->
  classify reg p w = ret tt w /\ relocate reg p w = ret tt w.
Proof.
  intros (Hr & Hroot & Hb). split.
  - apply classify_filtered. now rewrite Hb, andb_false_r.
  - apply relocate_filtered. now rewrite Hroot, andb_false_r.
Qed.

(** ** What an insert does to the ModelFile rows *)

Lemma execute_insert_models ins db db' i :
  execute_insert ins db = Some (db', i) ->
  models db' = models db
  \/ exists p h c,
       ins = InsModels p h c
       /\ has_path db p = false /\ has_hash db h = false
       /\ has_civitai_link db c = false
       /\ models db' = models db ++
            [{| m_id := i; m_path := p; m_hash := h; m_civitai_model_id := c |}].
Proof.
  destruct ins as [t [s|] | ty bm cr | p h c]; cbn [execute_insert].
  - destruct (has_name _ _); [discriminate|].
    intros E. injection E as <- <-. left. now destruct t.
  - discriminate.
  - intros E. injection E as <- <-. now left.
  - destruct (has_path db p) eqn:Hp; [discriminate|].
    destruct (has_hash db h) eqn:Hh; [discriminate|].
    destruct (has_civitai_link db c) eqn:Hc; [discriminate|].
    cbn [orb]. intros E. injection E as <- <-. right.
    exists p, h, c. repeat split; assumption.
Qed.

Lemma has_path_app_row db rows (q : Path) :
  existsb (fun r => path_eqb (m_path r) q) (models db ++ rows) =
  has_path db q || existsb (fun r => path_eqb (m_path r) q) rows.
Proof. unfold has_path. apply existsb_app. Qed.

Lemma has_hash_app_row db rows (h : Hash) :
  existsb (fun r => String.eqb (m_hash r) h) (models db ++ rows) =
  has_hash db h || existsb (fun r => String.eqb (m_hash r) h) rows.
Proof. unfold has_hash. apply existsb_app. Qed.

(** Rows are never lost. *)
Lemma execute_insert_has_path ins db db' i q :
  execute_insert ins db = Some (db', i) ->
  has_path db q = true -> has_path db' q = true.
Proof.
  intros E H. apply execute_insert_models in E
    as [E | (p & h & c & _ & _ & _ & _ & E)];
    unfold has_path in *; rewrite E; [exact H|].
  rewrite existsb_app. now rewrite H.
Qed.

Lemma execute_insert_has_hash ins db db' i k :
  execute_insert ins db = Some (db', i) ->
  has_hash db k = true -> has_hash db' k = true.
Proof.
  intros E H. apply execute_insert_models in E
    as [E | (p & h & c & _ & _ & _ & _ & E)];
    unfold has_hash in *; rewrite E; [exact H|].
  rewrite existsb_app. now rewrite H.
Qed.

(** A staged row outside the type buckets does not exist. *)
Lemma execute_insert_has_path_out ins db db' i q :
  ins_ok ins -> in_type_bucket q = false ->
  execute_insert ins db = Some (db', i) ->
  has_path db' q = has_path db q.
Proof.
  intros Hok Hq E. apply execute_insert_models in E
    as [E | (p & h & c & -> & _ & _ & _ & E)];
    unfold has_path; rewrite E; [reflexivity|].
  rewrite existsb_app. cbn [existsb m_path]. cbn [ins_ok] in Hok.
  destruct (path_eqb p q) eqn:Epq.
  - apply path_eqb_eq in Epq. congruence.
  - now rewrite !orb_false_r.
Qed.

Lemma staged_work ins w :
  work (conn (staged ins w)) =
  match execute_insert ins (work (conn w)) with
  | Some (db', _) => db'
  | None => work (conn w)
  end.
Proof. unfold staged. now destruct (execute_insert _ _) as [[? ?]|]. Qed.

Lemma stages_has_path w w1 q :
  stages w w1 ->
  has_path (work (conn w)) q = true -> has_path (work (conn w1)) q = true.
Proof.
  induction 1 as [|w w' ins Hs IH Hok]; [auto|].
  intros H. rewrite staged_work.
  destruct (execute_insert _ _) as [[db' i]|] eqn:E; [|auto].
  eapply execute_insert_has_path; eauto.
Qed.

Lemma stages_has_hash w w1 k :
  stages w w1 ->
  has_hash (work (conn w)) k = true -> has_hash (work (conn w1)) k = true.
Proof.
  induction 1 as [|w w' ins Hs IH Hok]; [auto|].
  intros H. rewrite staged_work.
  destruct (execute_insert _ _) as [[db' i]|] eqn:E; [|auto].
  eapply execute_insert_has_hash; eauto.
Qed.

Lemma stages_has_path_out w w1 q :
  stages w w1 -> in_type_bucket q = false ->
  has_path (work (conn w1)) q = has_path (work (conn w)) q.
Proof.
  intros Hs Hq. induction Hs as [|w w' ins Hs IH Hok]; [reflexivity|].
  rewrite staged_work.
  destruct (execute_insert _ _) as [[db' i]|] eqn:E; [|exact IH].
  rewrite <- IH. eapply execute_insert_has_path_out; eauto.
Qed.

(** ** Loops *)

Lemma for_each_cons {A} (x : A) (l : list A) (body : A -> M unit) (w : World) :
  for_each (x :: l) body w =
  match result (body x w) with
  | Ok _ => prepend (events (body x w)) (for_each l body (world (body x w)))
  | Raise e => {| events := events (body x w); result := Raise e;
                  world := world (body x w) |}
  | Hang => {| events := events (body x w); result := Hang;
               world := world (body x w) |}
  end.
Proof. cbn [for_each]. now rewrite bind_eq. Qed.

(** [I] holds between two files, [J] whenever the run is left, and every
    event satisfies [E]. *)
Definition keeps (I J : World -> Prop) (E : Event -> Prop) (m : M unit) : Prop :=
  forall w, I w ->
    Forall E (events (m w))
    /\ J (world (m w))
    /\ (result (m w) = Ok tt -> I (world (m w))).

Lemma keeps_bind I J E (m k : M unit) :
  keeps I J E m -> keeps I J E k -> keeps I J E (m ;; k).
Proof.
  intros Hm Hk w Hw. rewrite bind_eq.
  destruct (Hm w Hw) as (He & Hj & Hi).
  destruct (result (m w)) as [[]| |] eqn:Er; cbn [prepend events result world].
  - destruct (Hk (world (m w)) (Hi eq_refl)) as (He' & Hj' & Hi').
    repeat split; [apply Forall_app; now split|assumption|assumption].
  - repeat split; [assumption|assumption|discriminate].
  - repeat split; [assumption|assumption|discriminate].
Qed.

Lemma keeps_for_each {A} I J E (l : list A) (body : A -> M unit) :
  (forall w, I w -> J w) ->
  (forall x, In x l -> keeps I J E (body x)) ->
  keeps I J E (for_each l body).
Proof.
  intros HIJ Hbody. induction l as [|x l IH].
  - intros w Hw. cbn. repeat split; [constructor|auto|auto].
  - cbn [for_each]. apply keeps_bind.
    + apply Hbody. now left.
    + apply IH. intros y Hy. apply Hbody. now right.
Qed.

(** The files [os.walk(MODEL_PATH)] lists. *)
Definition walk (f : FS) : list Path := filter (is_prefix MODEL_PATH) (map fst f).

Lemma classifier_pass_eq reg w :
  classifier_pass reg w = for_each (walk (fs w)) (classify reg) w.
Proof.
  unfold classifier_pass, get_all_models_path, walk, bind, ret, get_fs.
  cbn [events result world app].
  destruct (for_each _ _ w) as [e [a| |] w']; reflexivity.
Qed.

Lemma relocator_pass_eq reg w :
  relocator_pass reg w = for_each (walk (fs w)) (relocate reg) w.
Proof.
  unfold relocator_pass, get_all_models_path, walk, bind, ret, get_fs.
  cbn [events result world app].
  destruct (for_each _ _ w) as [e [a| |] w']; reflexivity.
Qed.

Lemma keeps_ext I J E (m m' : M unit) :
  (forall w, m w = m' w) -> keeps I J E m' -> keeps I J E m.
Proof. intros H Hk w Hw. rewrite H. now apply Hk. Qed.

Lemma keeps_passes I J E reg :
  (forall w, I w -> J w) ->
  (forall p, keeps I J E (classify reg p)) ->
  (forall p, keeps I J E (relocate reg p)) ->
  keeps I J E (classifier_pass reg ;; relocator_pass reg).
Proof.
  intros HIJ Hc Hr. apply keeps_bind.
  - intros w Hw. rewrite classifier_pass_eq.
    apply keeps_for_each; auto.
  - intros w Hw. rewrite relocator_pass_eq.
    apply keeps_for_each; auto.
Qed.

(** Nothing is staged. *)
Definition clean (w : World) : Prop := work (conn w) = committed (conn w).

Lemma insert_commit_eq (ins : Insert) (w : World) :
  insert_into_database ins false true w =
  {| events := [EvInsert ins; EvCommit]; result := Ok tt;
     world := committed_ (staged ins w) |}.
Proof.
  unfold staged, committed_.
  match goal with |- ?m w = ?r => change (wp m (fun o => o = r) w) end.
  wp_run; reflexivity.
Qed.

(** Line 122. *)
Definition seed : M unit :=
  insert_into_database (InsName Creators (Some "null")) false true.

Lemma main_eq reg w :
  main reg w = (seed ;; (classifier_pass reg ;; relocator_pass reg)) w.
Proof. reflexivity. Qed.

(** ** C10, over a whole run *)

(** The event is about the file [f]. *)
Definition concerns (f : Path) (e : Event) : Prop :=
  match e with
  | EvLog q | EvSelectPath q | EvHash q | EvExists q | EvLogMoved q => q = f
  | EvRename src dst => src = f \/ dst = f
  | EvInsert (InsModels q _ _) => q = f
  | _ => False
  end.

Lemma quiet_not_concerns f e :
  in_type_bucket f = false -> quiet e -> ~ concerns f e.
Proof.
  intros Hf Hq Hc. destruct e; cbn in Hq, Hc; try contradiction.
  destruct ins; try contradiction. cbn [ins_ok] in Hq. congruence.
Qed.

Lemma Forall_quiet_not_concerns f evs :
  in_type_bucket f = false -> Forall quiet evs ->
  Forall (fun e => ~ concerns f e) evs.
Proof.
  intros Hf H. eapply Forall_impl; [|exact H].
  intros e. now apply quiet_not_concerns.
Qed.

Ltac frame_events :=
  repeat (apply Forall_app; split);
  try (apply Forall_quiet_not_concerns; assumption);
  repeat (constructor;
          [cbn [concerns]; try congruence; try tauto; try (intros [])|]);
  try constructor.

Section Frame.

Variable f : Path.
Variable hf : Hash.
Variable known : bool.
Hypothesis f_out : out_of_scope f.

(** Between two files: nothing staged, [f] on disk, cataloged or not as
    it was. *)
Let Inv (w : World) : Prop :=
  clean w /\ lookup_file (fs w) f = Some hf
  /\ has_path (committed (conn w)) f = known.

Let Exit (w : World) : Prop :=
  lookup_file (fs w) f = Some hf /\ has_path (committed (conn w)) f = known.

Let Quiet (e : Event) : Prop := ~ concerns f e.

Lemma frame_seed : keeps Inv Exit Quiet seed.
Proof.
  unfold keeps, Inv, Exit, Quiet.
  intros w (Hc & Hl & Hk). unfold seed. rewrite insert_commit_eq.
  cbn [events result world committed_ fs conn committed work].
  assert (Hs : stages w (staged (InsName Creators (Some "null")) w))
    by (apply stages_insert; [constructor|exact I]).
  destruct f_out as (_ & _ & Hb).
  pose proof (stages_has_path_out _ _ f Hs Hb) as Hp.
  rewrite (stages_fs _ _ Hs).
  unfold clean in *. cbn [committed_ conn work committed].
  repeat split; try assumption; try congruence.
  repeat constructor; intros [].
Qed.

Lemma passes_differ p :
  recognized p && (in_type_bucket p || in_root p) = true -> p <> f.
Proof.
  intros H ->. destruct f_out as (_ & Hr & Hb). rewrite Hr, Hb in H.
  now rewrite andb_false_r in H.
Qed.

Lemma frame_classify reg p : keeps Inv Exit Quiet (classify reg p).
Proof.
  unfold keeps, Inv, Exit, Quiet.
  intros w (Hc & Hl & Hk). unfold clean in *.
  destruct f_out as (_ & _ & Hb).
  destruct (classify_outcome_holds reg p w)
    as [Hf -> | Hf Hp -> | Hf Hp Hlp -> | h Hf Hp Hlp Hh ->
        | h evs w1 r Hf Hp Hlp Hh Hs He Hr ->
        | h evs w1 Hf Hp Hlp Hh Hs He ->];
    cbn [events result world ret committed_ fs conn committed work];
    try (assert (Hpf : p <> f)
           by (apply passes_differ;
               apply andb_true_iff in Hf as [-> ->]; reflexivity));
    try rewrite (stages_fs _ _ Hs);
    try rewrite (stages_has_path_out _ _ f Hs Hb);
    try rewrite (stages_committed _ _ Hs);
    (split; [frame_events|]);
    (split; [split; congruence|]);
    intros Hres; try discriminate Hres; try contradiction;
    repeat split; congruence.
Qed.

Lemma frame_relocate reg p : keeps Inv Exit Quiet (relocate reg p).
Proof.
  unfold keeps, Inv, Exit, Quiet.
  intros w (Hc & Hl & Hk). unfold clean in *.
  destruct f_out as (_ & _ & Hb).
  destruct (relocate_outcome_holds reg p w)
    as [Hf -> | Hf Hlp -> | h Hf Hlp Hh ->
        | h evs w1 r Hf Hlp Hh Hs He Hr ->
        | h evs w1 t Hf Hlp Hh Hs He Ht Hex ->
        | h evs w1 t Hf Hlp Hh Hs He Ht Hex Hmk ->
        | h evs w1 t Hf Hlp Hh Hs He Ht Hex Hmk ->];
    cbn [events result world ret committed_ rolled_back moved
         fs conn committed work];
    try (assert (Hpf : p <> f)
           by (apply passes_differ;
               apply andb_true_iff in Hf as [-> ->];
               now rewrite orb_true_r));
    try (assert (Htf : t <> f) by congruence);
    try rewrite lookup_file_rename_other by congruence;
    try rewrite (stages_fs _ _ Hs);
    try rewrite (stages_has_path_out _ _ f Hs Hb);
    try rewrite (stages_committed _ _ Hs);
    (split; [frame_events|]);
    (split; [split; congruence|]);
    intros Hres; try discriminate Hres; try contradiction;
    repeat split; congruence.
Qed.

Lemma frame_main reg : keeps Inv Exit Quiet (main reg).
Proof.
  eapply keeps_ext; [apply main_eq|].
  apply keeps_bind; [apply frame_seed|].
  apply keeps_passes.
  - intros w (_ & H). exact H.
  - apply frame_classify.
  - apply frame_relocate.
Qed.

End Frame.

(** C10.  A recognized file that is neither a direct child of [models] nor
    under one of the four type buckets is skipped by both loop bodies
    without any effect, and over a whole run it is neither hashed, nor
    looked up, nor moved, nor cataloged: it stays on disk with its content
    and the catalog names its path exactly if it did before. *)
Theorem C10_out_of_scope_untouched reg (p : Path) (h : Hash) (f : FS) (db : DB) :
  out_of_scope p ->
  lookup_file f p = Some h ->
  (forall w, classify reg p w = ret tt w /\ relocate reg p w = ret tt w)
  /\ Forall (fun e => ~ concerns p e) (events (run reg f db))
  /\ lookup_file (fs (world (run reg f db))) p = Some h
  /\ has_path (committed (conn (world (run reg f db)))) p = has_path db p.
Proof.
  intros Hout Hl. split.
  { intros w. now apply out_of_scope_steps. }
  destruct (frame_main p h (has_path db p) Hout reg
              {| fs := f; conn := connect db |}) as (He & (Hj1 & Hj2) & _).
  { repeat split; auto. }
  auto.
Qed.

Definition stray_safetensors : Path := ["models"; "unet"; "flux"; "y.safetensors"].

Lemma C10_witness :
  lookup_file
    (fs (world (run offline [(stray_safetensors, "h9"); (a_safetensors, "h1")]
                  empty_db)))
    stray_safetensors = Some "h9".
Proof.
  refine (proj1 (proj2 (proj2
    (C10_out_of_scope_untouched offline stray_safetensors "h9"
       [(stray_safetensors, "h9"); (a_safetensors, "h1")] empty_db _ _)))).
  - repeat split; reflexivity.
  - reflexivity.
Defined.

(** ** C6: one ModelFile row per content hash *)

(** No two distinct ModelFile rows share a hash. *)
Definition unique_hashes (db : DB) : Prop :=
  forall i j ri rj,
    nth_error (models db) i = Some ri ->
    nth_error (models db) j = Some rj ->
    m_hash ri = m_hash rj -> i = j.

Lemma unique_hashes_NoDup db :
  NoDup (map m_hash (models db)) <-> unique_hashes db.
Proof.
  unfold unique_hashes. rewrite NoDup_nth_error. split.
  - intros H i j ri rj Hi Hj E.
    apply H.
    + rewrite length_map. apply nth_error_Some. congruence.
    + rewrite !nth_error_map, Hi, Hj. cbn. congruence.
  - intros H i j Hlt E.
    rewrite length_map in Hlt. apply nth_error_Some in Hlt.
    rewrite !nth_error_map in E.
    destruct (nth_error (models db) i) as [ri|] eqn:Hi; [|congruence].
    destruct (nth_error (models db) j) as [rj|] eqn:Hj; [|discriminate].
    cbn in E. injection E as E. eauto.
Qed.

Lemma has_hash_false db h :
  has_hash db h = false -> ~ In h (map m_hash (models db)).
Proof.
  unfold has_hash. intros H Hin. apply in_map_iff in Hin as (r & <- & Hr).
  assert (existsb (fun r0 => String.eqb (m_hash r0) (m_hash r)) (models db) = true).
  { apply existsb_exists. exists r. split; [exact Hr|apply String.eqb_refl]. }
  congruence.
Qed.

Lemma execute_insert_unique ins db db' i :
  execute_insert ins db = Some (db', i) ->
  unique_hashes db -> unique_hashes db'.
Proof.
  intros E H. apply unique_hashes_NoDup. apply unique_hashes_NoDup in H.
  apply execute_insert_models in E as [-> | (p & h & c & _ & _ & Hh & _ & ->)];
    [exact H|].
  rewrite map_app. cbn [map m_hash].
  apply NoDup_app; [exact H|repeat constructor; intros []|].
  intros a Ha [<- | []]. now apply has_hash_false in Hh.
Qed.

Lemma staged_unique ins w :
  unique_hashes (work (conn w)) -> unique_hashes (work (conn (staged ins w))).
Proof.
  intros H. rewrite staged_work.
  destruct (execute_insert _ _) as [[db' i]|] eqn:E; [|exact H].
  eapply execute_insert_unique; eauto.
Qed.

Lemma stages_unique w w1 :
  stages w w1 ->
  unique_hashes (work (conn w)) -> unique_hashes (work (conn w1)).
Proof.
  induction 1 as [|w w' ins Hs IH Hok]; [auto|].
  intros H. apply staged_unique. auto.
Qed.

(** Both what is staged and what is committed. *)
Definition hashes_ok (w : World) : Prop :=
  unique_hashes (work (conn w)) /\ unique_hashes (committed (conn w)).

Lemma hashes_ok_classify reg p w :
  hashes_ok w -> hashes_ok (world (classify reg p w)).
Proof.
  intros (Hw & Hc).
  destruct (classify_outcome_holds reg p w)
    as [Hf -> | Hf Hp -> | Hf Hp Hl -> | h Hf Hp Hl Hh ->
        | h evs w1 r Hf Hp Hl Hh Hs He Hr ->
        | h evs w1 Hf Hp Hl Hh Hs He ->];
    cbn [world ret]; try (split; assumption);
    pose proof (stages_unique _ _ Hs Hw) as Hw1;
    split; cbn [committed_ conn work committed]; try assumption.
  now rewrite (stages_committed _ _ Hs).
Qed.

Lemma hashes_ok_relocate reg p w :
  hashes_ok w -> hashes_ok (world (relocate reg p w)).
Proof.
  intros (Hw & Hc).
  destruct (relocate_outcome_holds reg p w)
    as [Hf -> | Hf Hl -> | h Hf Hl Hh ->
        | h evs w1 r Hf Hl Hh Hs He Hr ->
        | h evs w1 t Hf Hl Hh Hs He Ht Hex ->
        | h evs w1 t Hf Hl Hh Hs He Ht Hex Hmk ->
        | h evs w1 t Hf Hl Hh Hs He Ht Hex Hmk ->];
    cbn [world ret]; try (split; assumption);
    pose proof (stages_unique _ _ Hs Hw) as Hw1;
    pose proof (stages_committed _ _ Hs) as Hc1;
    split; cbn [committed_ rolled_back moved conn work committed];
    try assumption; rewrite Hc1; assumption.
Qed.

Lemma hashes_ok_seed w : hashes_ok w -> hashes_ok (world (seed w)).
Proof.
  intros (Hw & Hc). unfold seed. rewrite insert_commit_eq.
  cbn [world committed_ conn work committed].
  split; now apply staged_unique.
Qed.

(** The worlds the script can be in between two files: it starts on some
    disk with an empty catalog, seeds the sentinel creator, classifies a
    file, relocates a file, or starts again later on whatever the disk
    holds by then and what was committed. *)
Inductive reachable : World -> Prop :=
| reach_start f : reachable (fresh f)
| reach_seed w : reachable w -> reachable (world (seed w))
| reach_classify reg p w : reachable w -> reachable (world (classify reg p w))
| reach_relocate reg p w : reachable w -> reachable (world (relocate reg p w))
| reach_restart f w :
    reachable w -> reachable {| fs := f; conn := connect (committed (conn w)) |}.

(** A whole run stays within them. *)
Lemma reachable_main reg w : reachable w -> reachable (world (main reg w)).
Proof.
  intros Hw.
  assert (K : keeps reachable reachable (fun _ => True) (main reg)).
  { eapply keeps_ext; [apply main_eq|].
    apply keeps_bind.
    - intros w0 H0. repeat split.
      + apply Forall_forall. auto.
      + now apply reach_seed.
      + intros _. now apply reach_seed.
    - apply keeps_passes; [auto| |]; intros p w0 H0; repeat split;
        try (apply Forall_forall; auto);
        try (intros _); now constructor. }
  destruct (K w Hw) as (_ & H & _). exact H.
Qed.

Lemma reachable_hashes_ok w : reachable w -> hashes_ok w.
Proof.
  induction 1 as [f | w _ IH | reg p w _ IH | reg p w _ IH | f w _ IH].
  - split; intros [|i] j ri rj Hi; discriminate Hi.
  - now apply hashes_ok_seed.
  - now apply hashes_ok_classify.
  - now apply hashes_ok_relocate.
  - destruct IH as (_ & Hc). split; exact Hc.
Qed.

Definition is_insert (e : Event) : bool :=
  match e with EvInsert _ => true | _ => false end.

(** C6.  In every reachable state no two distinct ModelFile rows share a
    content hash, staged or committed; and a file whose hash is cataloged is
    skipped by the classifier and by the relocator alike: no error, no
    insert, nothing changed. *)
Theorem C6_content_hash_unique (w : World) :
  reachable w ->
  unique_hashes (work (conn w))
  /\ unique_hashes (committed (conn w))
  /\ forall reg p h,
       lookup_file (fs w) p = Some h ->
       has_hash (work (conn w)) h = true ->
       (result (classify reg p w) = Ok tt
        /\ world (classify reg p w) = w
        /\ existsb is_insert (events (classify reg p w)) = false)
       /\ (result (relocate reg p w) = Ok tt
           /\ world (relocate reg p w) = w
           /\ existsb is_insert (events (relocate reg p w)) = false).
Proof.
  intros Hr. destruct (reachable_hashes_ok w Hr) as (Hw & Hc).
  split; [exact Hw|]. split; [exact Hc|].
  intros reg p h Hl Hh. split.
  - destruct (classify_outcome_holds reg p w)
      as [Hf -> | Hf Hp -> | Hf Hp Hl' -> | h' Hf Hp Hl' Hh' ->
          | h' evs w1 r Hf Hp Hl' Hh' Hs He Hr' ->
          | h' evs w1 Hf Hp Hl' Hh' Hs He ->];
      cbn [result world events ret]; try (repeat split; reflexivity);
      congruence.
  - destruct (relocate_outcome_holds reg p w)
      as [Hf -> | Hf Hl' -> | h' Hf Hl' Hh' ->
          | h' evs w1 r Hf Hl' Hh' Hs He Hr' ->
          | h' evs w1 t Hf Hl' Hh' Hs He Ht Hex ->
          | h' evs w1 t Hf Hl' Hh' Hs He Ht Hex Hmk ->
          | h' evs w1 t Hf Hl' Hh' Hs He Ht Hex Hmk ->];
      cbn [result world events ret]; try (repeat split; reflexivity);
      congruence.
Qed.

(** Two files with the same content in the [vae] bucket, after a run. *)
Definition twins_disk : FS :=
  [(["models"; "vae"; "x.safetensors"], "h2");
   (["models"; "vae"; "y.safetensors"], "h2")].

Lemma C6_witness :
  unique_hashes
    (committed (conn (world (main (knows_as "VAE") (fresh twins_disk)))))
  /\ List.length
       (models (committed (conn (world (main (knows_as "VAE")
                                          (fresh twins_disk)))))) = 1.
Proof.
  split.
  - exact (proj1 (proj2 (C6_content_hash_unique _
             (reachable_main (knows_as "VAE") _ (reach_start twins_disk))))).
  - reflexivity.
Defined.

(** ** C7: what of a response the code looks at *)

(** A 403 whose body nevertheless carries a model version of type LORA. *)
Definition forbidden_version : Response ModelVersion :=
  {| status_code := 403;
     json := Some {| mv_modelId := Some 7; mv_model_type := Some "LORA";
                     mv_baseModel := Some "SDXL" |} |}.

Definition forbidden_model : Response Model :=
  {| status_code := 403; json := Some {| md_creator := None |} |}.

Definition forbidding : Registry :=
  {| model_versions_by_hash := fun _ => [forbidden_version];
     models_by_id := fun _ => [forbidden_model] |}.

(** C7, refuted as stated: a response with status 403 does not end the
    run; its body is read as a found model version, the file is moved to
    the place that body names and a CatalogEntry is written. *)
Lemma C7_counterexample :
  let o := run forbidding [(a_safetensors, "h1")] empty_db in
  final_answer (model_versions_by_hash forbidding "h1") = Some forbidden_version
  /\ status_code forbidden_version = 403
  /\ result o = Ok tt
  /\ fs (world o) = [(["models"; "loras"; "SDXL"; "null"; "a.safetensors"], "h1")]
  /\ List.length (civitai_models (committed (conn (world o)))) = 1
  /\ List.length (models (committed (conn (world o)))) = 1.
Proof. vm_compute. repeat split; reflexivity. Qed.

(** What the first lookup distinguishes: 500, 404, and the body. *)
Definition alike_version (r r' : Response ModelVersion) : Prop :=
  json r = json r'
  /\ Nat.eqb (status_code r) 404 = Nat.eqb (status_code r') 404
  /\ Nat.eqb (status_code r) 500 = Nat.eqb (status_code r') 500.

(** What the second lookup distinguishes: 500, and the body. *)
Definition alike_model (r r' : Response Model) : Prop :=
  json r = json r'
  /\ Nat.eqb (status_code r) 500 = Nat.eqb (status_code r') 500.

(** Two registries the code cannot tell apart. *)
Definition status_blind (reg reg' : Registry) : Prop :=
  (forall h, Forall2 alike_version (model_versions_by_hash reg h)
                                   (model_versions_by_hash reg' h))
  /\ (forall id, Forall2 alike_model (models_by_id reg id)
                                     (models_by_id reg' id)).

Lemma bind_ext {A B} (m m' : M A) (k k' : A -> M B) (w : World) :
  m w = m' w -> (forall a w', k a w' = k' a w') ->
  bind m k w = bind m' k' w.
Proof.
  intros Hm Hk. rewrite !bind_eq, Hm.
  destruct (result (m' w)); [now rewrite Hk|reflexivity|reflexivity].
Qed.

Lemma alike_request_events {B} (R : Response B -> Response B -> Prop)
    url (l l' : list (Response B)) :
  (forall r r', R r r' ->
     Nat.eqb (status_code r) 500 = Nat.eqb (status_code r') 500) ->
  Forall2 R l l' ->
  request_events url l = request_events url l'.
Proof.
  intros H500 Hl. induction Hl as [|r r' l l' Hr _ IH]; [reflexivity|].
  cbn. now rewrite (H500 _ _ Hr), IH.
Qed.

Lemma alike_final_answer {B} (R : Response B -> Response B -> Prop)
    (l l' : list (Response B)) :
  (forall r r', R r r' ->
     Nat.eqb (status_code r) 500 = Nat.eqb (status_code r') 500) ->
  Forall2 R l l' ->
  match final_answer l, final_answer l' with
  | Some r, Some r' => R r r'
  | None, None => True
  | _, _ => False
  end.
Proof.
  intros H500 Hl. unfold final_answer.
  induction Hl as [|r r' l l' Hr _ IH]; [exact I|].
  cbn [find]. rewrite <- (H500 _ _ Hr).
  destruct (Nat.eqb (status_code r) 500); cbn [negb]; [exact IH|exact Hr].
Qed.

Lemma send_bind_alike {B C} (R : Response B -> Response B -> Prop)
    url (l l' : list (Response B)) (k k' : Response B -> M C) (w : World) :
  (forall r r', R r r' ->
     Nat.eqb (status_code r) 500 = Nat.eqb (status_code r') 500) ->
  Forall2 R l l' ->
  (forall r r' w', R r r' -> k r w' = k' r' w') ->
  bind (send_get_request url l) k w = bind (send_get_request url l') k' w.
Proof.
  intros H500 Hl Hk. rewrite !bind_eq, !send_get_request_eq.
  cbn [events result world].
  rewrite (alike_request_events R url l l' H500 Hl).
  pose proof (alike_final_answer R l l' H500 Hl) as Hf.
  destruct (final_answer l) as [r|], (final_answer l') as [r'|];
    try contradiction; [|reflexivity].
  now rewrite (Hk _ _ w Hf).
Qed.

Lemma relocate_found_blind reg reg' p h r r' w :
  status_blind reg reg' -> json r = json r' ->
  relocate_found reg p h r w = relocate_found reg' p h r' w.
Proof.
  intros (_ & Hm) Hj. unfold relocate_found.
  apply bind_ext; [unfold response_json; now rewrite Hj|intros v w1].
  apply bind_ext; [reflexivity|intros id w2].
  apply send_bind_alike with (R := alike_model); [now intros ? ? (_ & ?)|apply Hm|].
  intros r2 r2' w3 (Hj2 & _).
  apply bind_ext; [unfold response_json; now rewrite Hj2|reflexivity].
Qed.

Lemma relocate_target_blind reg reg' p h w :
  status_blind reg reg' ->
  relocate_target reg p h w = relocate_target reg' p h w.
Proof.
  intros Hb. unfold relocate_target.
  apply send_bind_alike with (R := alike_version);
    [now intros ? ? (_ & _ & ?)|apply Hb|].
  intros r r' w1 (Hj & H404 & _). rewrite H404.
  destruct (Nat.eqb (status_code r') 404); [reflexivity|].
  now apply relocate_found_blind.
Qed.

Lemma classify_new_blind reg reg' p h w :
  status_blind reg reg' ->
  classify_new reg p h w = classify_new reg' p h w.
Proof.
  intros Hb. unfold classify_new.
  destruct (path_eqb _ _); [reflexivity|].
  unfold classify_entry.
  destruct (firstn 3 p) as [|a [|b [|c [|? ?]]]]; try reflexivity.
  apply send_bind_alike with (R := alike_version);
    [now intros ? ? (_ & _ & ?)|apply Hb|].
  intros r r' w1 (Hj & H404 & _). rewrite H404.
  apply bind_ext; [|reflexivity].
  destruct (Nat.eqb (status_code r') 404); [reflexivity|].
  apply bind_ext; [unfold response_json; now rewrite Hj|reflexivity].
Qed.

Lemma for_each_ext {A} (l : list A) (body body' : A -> M unit) (w : World) :
  (forall x w', body x w' = body' x w') ->
  for_each l body w = for_each l body' w.
Proof.
  intros H. revert w. induction l as [|x l IH]; intros w; [reflexivity|].
  cbn [for_each]. apply bind_ext; [apply H|intros _ w'; apply IH].
Qed.

Lemma classify_blind reg reg' p w :
  status_blind reg reg' -> classify reg p w = classify reg' p w.
Proof.
  intros Hb. rewrite !classify_eq.
  destruct (negb _); [reflexivity|].
  destruct (has_path _ _); [reflexivity|].
  destruct (lookup_file _ _) as [h|]; [|reflexivity].
  destruct (has_hash _ _); [reflexivity|].
  f_equal. apply bind_ext; [now apply classify_new_blind|reflexivity].
Qed.

Lemma relocate_blind reg reg' p w :
  status_blind reg reg' -> relocate reg p w = relocate reg' p w.
Proof.
  intros Hb. rewrite !relocate_eq.
  destruct (negb _); [reflexivity|].
  destruct (lookup_file _ _) as [h|]; [|reflexivity].
  destruct (has_hash _ _); [reflexivity|].
  f_equal. apply bind_ext; [now apply relocate_target_blind|reflexivity].
Qed.

Lemma main_blind reg reg' w :
  status_blind reg reg' -> main reg w = main reg' w.
Proof.
  intros Hb. unfold main, classifier_pass, relocator_pass.
  apply bind_ext; [reflexivity|intros _ w1].
  apply bind_ext.
  - apply bind_ext; [reflexivity|intros paths w2].
    apply for_each_ext. intros p w3. now apply classify_blind.
  - intros _ w2.
    apply bind_ext; [reflexivity|intros paths w3].
    apply for_each_ext. intros p w4. now apply relocate_blind.
Qed.

(** C7, amended.  The code looks at a response's status only to retry on
    500 and, for the lookup by hash, to take the not-found branch on 404:
    no other status is an error to it.  Two registries that agree on that
    and on the bodies are indistinguishable: the classification and the
    relocation of every file and the run as a whole go the same way, with
    the same requests, catalog rows, moves and result; so a response with
    any other status is handled as a success with the same body.  When the
    body of such an answer to the lookup by hash is not JSON, reading it
    raises and nothing has been written for the file. *)
Theorem C7_status_is_not_checked reg reg' :
  status_blind reg reg' ->
  (forall p w, classify reg p w = classify reg' p w)
  /\ (forall p w, relocate reg p w = relocate reg' p w)
  /\ (forall f db, run reg f db = run reg' f db)
  /\ (forall p h w r,
        final_answer (model_versions_by_hash reg h) = Some r ->
        status_code r <> 404 ->
        json r = None ->
        (result (relocate_target reg p h w) = Raise JSONDecodeError
         /\ world (relocate_target reg p h w) = w)
        /\ (3 <= List.length p ->
            result (classify_entry reg p h w) = Raise JSONDecodeError
            /\ world (classify_entry reg p h w) = w)).
Proof.
  intros Hb. split; [|split; [|split]].
  - intros p w. now apply classify_blind.
  - intros p w. now apply relocate_blind.
  - intros f db. unfold run. now apply main_blind.
  - intros p h w r Hr H404 Hj. apply Nat.eqb_neq in H404. split.
    + unfold relocate_target, relocate_found, stage_found.
      match goal with |- result (?m w) = _ /\ _ =>
        change (wp m (fun o => result o = Raise JSONDecodeError /\ world o = w) w)
      end.
      wp_go. split; reflexivity.
    + intros Hlen. unfold classify_entry.
      destruct p as [|a [|b [|c rest]]]; cbn [List.length] in Hlen; try lia.
      cbn [firstn].
      match goal with |- result (?m w) = _ /\ _ =>
        change (wp m (fun o => result o = Raise JSONDecodeError /\ world o = w) w)
      end.
      unfold stage_classified.
      wp_go. split; reflexivity.
Qed.

Lemma forbidding_blind : status_blind forbidding (knows_as "LORA").
Proof.
  split; intros; repeat constructor.
Qed.

(** The run of the counterexample, whose answers have status 403, is the
    run against a registry that answers 200 with the same bodies. *)
Lemma C7_witness :
  status_blind forbidding (knows_as "LORA")
  /\ run forbidding [(a_safetensors, "h1")] empty_db
     = run (knows_as "LORA") [(a_safetensors, "h1")] empty_db.
Proof.
  split; [exact forbidding_blind|].
  exact (proj1 (proj2 (proj2 (C7_status_is_not_checked forbidding
                                (knows_as "LORA") forbidding_blind)))
           [(a_safetensors, "h1")] empty_db).
Defined.

(** ** C3: running the script again *)

(** C3, refuted as stated: [models/a.safetensors] is unknown to the
    registry.  The first run moves it to [models/loras/null] and leaves the
    catalog without a ModelFile row; the second run moves nothing and adds
    the row. *)
Lemma C3_counterexample :
  let o1 := run offline [(a_safetensors, "h1")] empty_db in
  let o2 := run offline (fst (disk_after o1)) (snd (disk_after o1)) in
  result o1 = Ok tt
  /\ result o2 = Ok tt
  /\ existsb is_rename (events o2) = false
  /\ models (snd (disk_after o1)) = []
  /\ models (snd (disk_after o2)) =
     [{| m_id := 1; m_path := ["models"; "loras"; "null"; "a.safetensors"];
         m_hash := "h1"; m_civitai_model_id := None |}]
  /\ snd (disk_after o2) <> snd (disk_after o1).
Proof.
  vm_compute. repeat split; try reflexivity. discriminate.
Qed.

(** *** What the inserts do, table by table *)

Lemma execute_insert_name t s db db' i :
  execute_insert (InsName t (Some s)) db = Some (db', i) ->
  models db' = models db /\ civitai_models db' = civitai_models db.
Proof.
  cbn [execute_insert]. destruct (has_name _ _); [discriminate|].
  intros E. injection E as <- <-. now destruct t.
Qed.

Lemma execute_insert_civitai a b c db :
  execute_insert (InsCivitai a b c) db =
  Some ({| models := models db;
           civitai_models :=
             civitai_models db ++
             [{| c_id := next_id (map c_id (civitai_models db));
                 c_type_id := a; c_base_model_id := b;
                 c_creator_id := Some c |}];
           types := types db; base_models := base_models db;
           creators := creators db |},
        next_id (map c_id (civitai_models db))).
Proof. reflexivity. Qed.

Lemma has_name_app rows rows' s :
  has_name (rows ++ rows') s = has_name rows s || has_name rows' s.
Proof. unfold has_name. apply existsb_app. Qed.

(** No reference row is ever lost. *)
Lemma execute_insert_has_name ins db db' i t s :
  execute_insert ins db = Some (db', i) ->
  has_name (name_rows t db) s = true -> has_name (name_rows t db') s = true.
Proof.
  destruct ins as [t' [s'|] | a b c | p h c]; cbn [execute_insert].
  - destruct (has_name _ s'); [discriminate|].
    intros E. injection E as <- <-. intros H.
    destruct t, t'; cbn [name_rows set_name_rows types base_models creators];
      try exact H; rewrite has_name_app; cbn [name_rows] in H; now rewrite H.
  - discriminate.
  - intros E. injection E as <- <-. now destruct t.
  - destruct (_ || _); [discriminate|].
    intros E. injection E as <- <-. now destruct t.
Qed.

Lemma stages_has_name w w1 t s :
  stages w w1 ->
  has_name (name_rows t (work (conn w))) s = true ->
  has_name (name_rows t (work (conn w1))) s = true.
Proof.
  induction 1 as [|w w' ins Hs IH Hok]; [auto|].
  intros H. rewrite staged_work.
  destruct (execute_insert _ _) as [[db' i]|] eqn:E; [|auto].
  eapply execute_insert_has_name; eauto.
Qed.

Lemma find_name_some rows s :
  has_name rows s = true ->
  exists r, find (fun r => String.eqb (n_name r) s) rows = Some r.
Proof.
  unfold has_name. induction rows as [|r rows IH]; [discriminate|].
  cbn. destruct (String.eqb (n_name r) s); [eauto|exact IH].
Qed.

(** The select that follows an insert-or-ignore finds the name. *)
Lemma select_after_insert t s w :
  exists i, select_id t (Some s)
              (work (conn (staged (InsName t (Some s)) w))) = Some i.
Proof.
  rewrite staged_work. cbn [execute_insert select_id].
  destruct (has_name (name_rows t (work (conn w))) s) eqn:H.
  - destruct (find_name_some _ _ H) as (r & ->). cbn. eauto.
  - assert (H' : has_name (name_rows t
                (set_name_rows t
                   (name_rows t (work (conn w)) ++
                    [{| n_id := next_id (map n_id (name_rows t (work (conn w))));
                        n_name := s |}]) (work (conn w)))) s = true).
    { destruct t; cbn [name_rows set_name_rows types base_models creators];
        rewrite has_name_app; cbn; rewrite String.eqb_refl;
        now rewrite orb_true_r. }
    destruct (find_name_some _ _ H') as (r & ->). cbn. eauto.
Qed.

(** Staging reference rows leaves the other tables alone. *)
Definition refs_only (w w' : World) : Prop :=
  fs w' = fs w
  /\ committed (conn w') = committed (conn w)
  /\ models (work (conn w')) = models (work (conn w))
  /\ civitai_models (work (conn w')) = civitai_models (work (conn w)).

Lemma refs_only_refl w : refs_only w w.
Proof. repeat split. Qed.

Lemma refs_only_staged t n w w' :
  refs_only w w' -> refs_only w (staged (InsName t n) w').
Proof.
  intros (H1 & H2 & H3 & H4). unfold refs_only.
  rewrite staged_fs, staged_committed, staged_work.
  destruct n as [s|]; [|cbn; auto].
  destruct (execute_insert _ _) as [[db' i]|] eqn:E; [|auto].
  apply execute_insert_name in E as (E1 & E2).
  repeat split; congruence.
Qed.

Lemma resolve_refs_spec t b c w :
  refs_only w (world (resolve_refs t b c w))
  /\ (forall ts, t = Some ts -> exists ids, result (resolve_refs t b c w) = Ok ids).
Proof.
  unfold resolve_refs.
  match goal with |- context [world (?m w)] =>
    change (wp m (fun o => refs_only w (world o)
                           /\ forall ts, t = Some ts ->
                                exists ids, result o = Ok ids) w) end.
  wp_go; unfold prepend, ret, raise; cbn [events result world];
    (split; [repeat apply refs_only_staged; apply refs_only_refl|]);
    intros ts ->; eauto;
    repeat match goal with
      | H : select_id ?t (Some ?s) (work (conn (staged (InsName ?t (Some ?s)) ?w0)))
            = None |- _ =>
          destruct (select_after_insert t s w0) as (? & ?); congruence
      end.
Qed.

(** *** The CatalogEntry and ModelFile rows of lines 214-217 *)

(** The row a successful [INSERT INTO models] appends. *)
Definition model_row (db : DB) (p : Path) (h : Hash) (c : option nat) : ModelRow :=
  {| m_id := next_id (map m_id (models db)); m_path := p; m_hash := h;
     m_civitai_model_id := c |}.

Definition next_entry (db : DB) : nat := next_id (map c_id (civitai_models db)).

Lemma execute_insert_models_eq p h c db :
  execute_insert (InsModels p h c) db =
  if has_path db p || has_hash db h || has_civitai_link db c then None
  else Some ({| models := models db ++ [model_row db p h c];
                civitai_models := civitai_models db;
                types := types db; base_models := base_models db;
                creators := creators db |},
             next_id (map m_id (models db))).
Proof. reflexivity. Qed.

Lemma has_civitai_link_ext db db' c :
  models db' = models db -> has_civitai_link db' c = has_civitai_link db c.
Proof. unfold has_civitai_link. now intros ->. Qed.

Lemma has_path_ext db db' p :
  models db' = models db -> has_path db' p = has_path db p.
Proof. unfold has_path. now intros ->. Qed.

Lemma has_hash_ext db db' h :
  models db' = models db -> has_hash db' h = has_hash db h.
Proof. unfold has_hash. now intros ->. Qed.

Lemma staged_civitai a b c w :
  staged (InsCivitai a b c) w =
  {| fs := fs w;
     conn := {| committed := committed (conn w);
                work := {| models := models (work (conn w));
                           civitai_models :=
                             civitai_models (work (conn w)) ++
                             [{| c_id := next_entry (work (conn w));
                                 c_type_id := a; c_base_model_id := b;
                                 c_creator_id := Some c |}];
                           types := types (work (conn w));
                           base_models := base_models (work (conn w));
                           creators := creators (work (conn w)) |};
                lastrowid := Some (next_entry (work (conn w))) |} |}.
Proof. reflexivity. Qed.

(** Lines 215-217, once the CatalogEntry is staged. *)
Lemma link_model_spec (t : Path) (h : Hash) (w : World) :
  let o := (cn <- get_conn ;;
            insert_into_database (InsModels t h (lastrowid cn)) true false ;;
            ret t) w in
  let db := work (conn w) in
  fs (world o) = fs w
  /\ committed (conn (world o)) = committed (conn w)
  /\ if has_path db t || has_hash db h || has_civitai_link db (lastrowid (conn w))
     then result o = Raise SystemExit
     else result o = Ok t
          /\ work (conn (world o)) =
             {| models := models db ++ [model_row db t h (lastrowid (conn w))];
                civitai_models := civitai_models db;
                types := types db; base_models := base_models db;
                creators := creators db |}.
Proof.
  cbn zeta.
  match goal with |- context [world (?m w)] =>
    change (wp m (fun o =>
      fs (world o) = fs w
      /\ committed (conn (world o)) = committed (conn w)
      /\ if has_path (work (conn w)) t || has_hash (work (conn w)) h
            || has_civitai_link (work (conn w)) (lastrowid (conn w))
         then result o = Raise SystemExit
         else result o = Ok t
              /\ work (conn (world o)) =
                 {| models := models (work (conn w)) ++
                              [model_row (work (conn w)) t h (lastrowid (conn w))];
                    civitai_models := civitai_models (work (conn w));
                    types := types (work (conn w));
                    base_models := base_models (work (conn w));
                    creators := creators (work (conn w)) |}) w) end.
  apply wp_bind. wp_base.
  apply wp_bind. unfold wp at 1. rewrite insert_strict_eq.
  unfold staged. rewrite execute_insert_models_eq.
  destruct (has_path (work (conn w)) t || has_hash (work (conn w)) h
            || has_civitai_link (work (conn w)) (lastrowid (conn w)));
    wp_simpl.
  - repeat split.
  - wp_base. repeat split.
Qed.

Lemma world_prepend {A} e (o : Out A) : world (prepend e o) = world o.
Proof. reflexivity. Qed.

Lemma result_prepend {A} e (o : Out A) : result (prepend e o) = result o.
Proof. reflexivity. Qed.

Lemma events_prepend {A} e (o : Out A) : events (prepend e o) = e ++ events o.
Proof. reflexivity. Qed.

(** Lines 214-217 after the reference rows are resolved. *)
Lemma stage_rows_spec (t : Path) (h : Hash) (i j k : nat) (w : World) :
  let o := (insert_into_database (InsCivitai i j k) true false ;;
            cn <- get_conn ;;
            insert_into_database (InsModels t h (lastrowid cn)) true false ;;
            ret t) w in
  let db := work (conn w) in
  fs (world o) = fs w
  /\ committed (conn (world o)) = committed (conn w)
  /\ if has_path db t || has_hash db h || has_civitai_link db (Some (next_entry db))
     then result o = Raise SystemExit
     else result o = Ok t
          /\ models (work (conn (world o))) =
             models db ++ [model_row db t h (Some (next_entry db))]
          /\ map c_id (civitai_models (work (conn (world o)))) =
             map c_id (civitai_models db) ++ [next_entry db].
Proof.
  cbn zeta. rewrite bind_eq, insert_strict_eq, execute_insert_civitai.
  cbn [result events world].
  rewrite world_prepend, result_prepend.
  destruct (link_model_spec t h (staged (InsCivitai i j k) w)) as (L1 & L2 & L3).
  rewrite L1, L2. rewrite staged_civitai in L3 |- *.
  cbn [fs conn committed work lastrowid] in L3 |- *.
  do 2 (split; [reflexivity|]).
  unfold has_path, has_hash, has_civitai_link, model_row in L3 |- *.
  cbn [models civitai_models] in L3.
  destruct (_ || _ || _).
  - exact L3.
  - destruct L3 as (L3 & L4). split; [exact L3|]. rewrite L4.
    cbn [models civitai_models]. rewrite map_app. split; reflexivity.
Qed.

Lemma stage_found_spec (t : Path) (h : Hash) (ty b c : string) (w : World) :
  let o := stage_found t h ty b c w in
  let db := work (conn w) in
  fs (world o) = fs w
  /\ committed (conn (world o)) = committed (conn w)
  /\ if has_path db t || has_hash db h || has_civitai_link db (Some (next_entry db))
     then result o = Raise SystemExit
     else result o = Ok t
          /\ models (work (conn (world o))) =
             models db ++ [model_row db t h (Some (next_entry db))]
          /\ map c_id (civitai_models (work (conn (world o)))) =
             map c_id (civitai_models db) ++ [next_entry db].
Proof.
  cbn zeta. unfold stage_found. rewrite bind_eq.
  destruct (resolve_refs_spec (Some ty) b c w) as ((F1 & F2 & F3 & F4) & Hok).
  destruct (Hok ty eq_refl) as ([[i j] k] & Hres). rewrite Hres.
  rewrite world_prepend, result_prepend.
  generalize dependent (world (resolve_refs (Some ty) b c w)).
  intros w3 F1 F2 F3 F4.
  pose proof (stage_rows_spec t h i j k w3) as S. cbn zeta in S.
  unfold next_entry, model_row, has_path, has_hash, has_civitai_link in S |- *.
  rewrite F1, F2, F3, F4 in S. exact S.
Qed.

(** Lines 164-167 after the reference rows are resolved. *)
Lemma classified_rows_spec (p : Path) (h : Hash) (i j k : nat) (w : World) :
  let o := (insert_into_database (InsCivitai i j k) false false ;;
            cn <- get_conn ;;
            execute (InsModels p h (lastrowid cn))) w in
  let db := work (conn w) in
  result o = Ok tt ->
  models (work (conn (world o))) =
    models db ++ [model_row db p h (Some (next_entry db))]
  /\ map c_id (civitai_models (work (conn (world o)))) =
     map c_id (civitai_models db) ++ [next_entry db].
Proof.
  cbn zeta. rewrite bind_eq, insert_ignore_eq.
  cbn [result events world].
  rewrite world_prepend, result_prepend, bind_eq.
  cbn [get_conn result events world].
  rewrite world_prepend, result_prepend, execute_eq.
  rewrite staged_civitai. cbn [fs conn committed work lastrowid].
  rewrite execute_insert_models_eq.
  unfold staged. rewrite execute_insert_models_eq.
  cbn [fs conn committed work lastrowid].
  unfold has_path, has_hash, has_civitai_link, model_row.
  cbn [models civitai_models].
  destruct (_ || _ || _); cbn [result world]; [discriminate|].
  intros _. cbn [conn work models civitai_models].
  rewrite map_app. split; reflexivity.
Qed.

Lemma stage_classified_ok (p : Path) (h : Hash) (ty : option string)
    (b c : string) (w : World) :
  let o := stage_classified p h ty b c w in
  let db := work (conn w) in
  result o = Ok tt ->
  models (work (conn (world o))) =
    models db ++ [model_row db p h (Some (next_entry db))]
  /\ map c_id (civitai_models (work (conn (world o)))) =
     map c_id (civitai_models db) ++ [next_entry db].
Proof.
  cbn zeta. unfold stage_classified. rewrite bind_eq.
  destruct (resolve_refs_spec ty b c w) as ((F1 & F2 & F3 & F4) & _).
  destruct (result (resolve_refs ty b c w)) as [[[i j] k]| |];
    [|discriminate|discriminate].
  rewrite world_prepend, result_prepend.
  generalize dependent (world (resolve_refs ty b c w)).
  intros w3 F1 F2 F3 F4 Hres.
  pose proof (classified_rows_spec p h i j k w3 Hres) as S. cbn zeta in S.
  unfold next_entry, model_row in S |- *.
  rewrite F3, F4 in S. exact S.
Qed.

(** *** What the registry says about a hash *)

Inductive Lookup :=
| NotFound
| Found (model_type base_model creator directory : string)
| Failed (r : Result Path).

Definition lookup (reg : Registry) (h : Hash) : Lookup :=
  match final_answer (model_versions_by_hash reg h) with
  | None => Failed Hang
  | Some r =>
      if Nat.eqb (status_code r) 404 then NotFound else
      match json r with
      | None => Failed (Raise JSONDecodeError)
      | Some v =>
          match mv_modelId v with
          | None => Failed (Raise KeyError)
          | Some id =>
              match final_answer (models_by_id reg id) with
              | None => Failed Hang
              | Some r2 =>
                  match json r2 with
                  | None => Failed (Raise JSONDecodeError)
                  | Some m =>
                      match mv_model_type v, mv_baseModel v with
                      | Some t, Some b =>
                          match md_creator m with
                          | Some None => Failed (Raise KeyError)
                          | creator =>
                              let c := match creator with
                                       | Some (Some u) => u
                                       | _ => "null"
                                       end in
                              match dict_get MODEL_TYPE_TO_DIRECTORY_MAP t with
                              | Some d => Found t b c d
                              | None => Failed (Raise TypeError)
                              end
                          end
                      | _, _ => Failed (Raise KeyError)
                      end
                  end
              end
          end
      end
  end.

(** Where a file the registry knows goes. *)
Definition found_target (p : Path) (b c d : string) : Path :=
  joinpath MODEL_PATH [d; b; c; name p].

(** [relocate_target], up to the events: the registry decides, and only a
    found file stages rows. *)
Lemma relocate_target_rw reg (p : Path) (h : Hash) (w : World) :
  let o := relocate_target reg p h w in
  match lookup reg h with
  | NotFound => result o = Ok (uncertain_target p) /\ world o = w
  | Found t b c d =>
      result o = result (stage_found (found_target p b c d) h t b c w)
      /\ world o = world (stage_found (found_target p b c d) h t b c w)
  | Failed r => result o = r /\ world o = w
  end.
Proof.
  cbn zeta. unfold lookup, relocate_target, relocate_found, found_target.
  match goal with |- context [world (?m w)] => set (prog := m) end.
  match goal with |- ?G =>
    let Q := eval pattern (prog w) in G in
    match Q with ?f _ => change (wp prog f w) end
  end.
  unfold prog. clear prog.
  unfold response_json, subscript.
  repeat
    lazymatch goal with
    | |- wp (bind (stage_found _ _ _ _ _) _) _ _ => fail
    | |- wp (stage_found _ _ _ _ _) _ _ => fail
    | _ => wp_step
    end;
    try (unfold wp; rewrite ?world_prepend, ?result_prepend;
         split; reflexivity).
Qed.

(** *** Catalog invariants between two files *)

(** Every ModelFile row that links a CatalogEntry links one that is there:
    the next entry id is free. *)
Definition links_ok (db : DB) : Prop :=
  forall r c, In r (models db) -> m_civitai_model_id r = Some c ->
              c <= list_max (map c_id (civitai_models db)).

Lemma links_ok_fresh db :
  links_ok db -> has_civitai_link db (Some (next_entry db)) = false.
Proof.
  intros H. unfold has_civitai_link.
  destruct (existsb _ (models db)) eqn:E; [|reflexivity].
  apply existsb_exists in E as (r & Hr & Hc).
  destruct (m_civitai_model_id r) as [j|] eqn:Ej; [|discriminate].
  apply Nat.eqb_eq in Hc. specialize (H r j Hr Ej).
  unfold next_entry, next_id in Hc. lia.
Qed.

Lemma links_ok_add_linked db db' p h :
  links_ok db ->
  models db' = models db ++ [model_row db p h (Some (next_entry db))] ->
  map c_id (civitai_models db') = map c_id (civitai_models db) ++ [next_entry db] ->
  links_ok db'.
Proof.
  intros H Hm Hc r c Hr Hlink. rewrite Hc, list_max_app. cbn [list_max fold_right].
  rewrite Hm in Hr. apply in_app_or in Hr as [Hr | [<- | []]].
  - specialize (H r c Hr Hlink). lia.
  - cbn in Hlink. injection Hlink as <-. lia.
Qed.

Lemma links_ok_add_unlinked db db' p h :
  links_ok db ->
  models db' = models db ++ [model_row db p h None] ->
  civitai_models db' = civitai_models db ->
  links_ok db'.
Proof.
  intros H Hm Hc r c Hr Hlink. rewrite Hc.
  rewrite Hm in Hr. apply in_app_or in Hr as [Hr | [<- | []]].
  - exact (H r c Hr Hlink).
  - discriminate Hlink.
Qed.

Lemma links_ok_ext db db' :
  models db' = models db -> civitai_models db' = civitai_models db ->
  links_ok db -> links_ok db'.
Proof. unfold links_ok. intros -> ->. auto. Qed.

(** The sentinel creator of line 122 is there. *)
Definition seeded (db : DB) : Prop := has_name (creators db) "null" = true.

(** *** Files under a move *)

Lemma in_type_bucket_length (p : Path) : in_type_bucket p = true -> 2 <= List.length p.
Proof.
  intros H. destruct (in_type_bucket_head p H) as (b & rest & -> & _).
  cbn. lia.
Qed.

Lemma in_root_shape (p : Path) : in_root p = true -> exists n, p = ["models"; n].
Proof.
  unfold in_root, parent, MODEL_PATH. intros H. apply path_eqb_eq in H.
  destruct p as [|a [|n [|x rest]]]; cbn in H; try discriminate.
  injection H as ->. eauto.
Qed.

Lemma in_root_length (p : Path) : in_root p = true -> List.length p = 2.
Proof. intros H. now destruct (in_root_shape p H) as (n & ->). Qed.

Lemma is_prefix_length (p q : Path) :
  is_prefix p q = true -> List.length p <= List.length q.
Proof.
  revert q. induction p as [|a p IH]; intros q H; cbn; [lia|].
  destruct q as [|b q]; [discriminate|].
  cbn in H. apply andb_true_iff in H as [_ H]. apply IH in H. cbn. lia.
Qed.

Lemma lookup_file_In (f : FS) (p : Path) (h : Hash) :
  lookup_file f p = Some h -> In (p, h) f.
Proof.
  induction f as [|[q k] f IH]; [discriminate|].
  cbn. destruct (path_eqb q p) eqn:E.
  - apply path_eqb_eq in E. intros H. injection H as <-. subst. now left.
  - intros H. right. now apply IH.
Qed.

Lemma In_lookup_file (f : FS) (p : Path) (h : Hash) :
  In (p, h) f -> exists k, lookup_file f p = Some k.
Proof.
  induction f as [|[q k] f IH]; [easy|].
  intros [E | H]; cbn.
  - injection E as -> ->. rewrite path_eqb_refl. eauto.
  - destruct (path_eqb q p); [eauto|]. now apply IH.
Qed.

Lemma is_file_lookup f p : is_file f p = true <-> exists h, lookup_file f p = Some h.
Proof.
  unfold is_file. destruct (lookup_file f p); split; eauto; try discriminate.
  intros (h & H). discriminate.
Qed.

(** What exists three levels down or deeper still exists after a file has
    been moved out of [models]. *)
Lemma exists_after_rename (f : FS) (src dst t : Path) (h : Hash) :
  in_root src = true -> 3 <= List.length t ->
  exists_ f t = true -> exists_ (rename_file f src dst h) t = true.
Proof.
  intros Hs Ht. pose proof (in_root_length src Hs) as Hlen.
  unfold exists_. intros H.
  apply orb_true_iff in H as [H | H].
  - apply is_file_lookup in H as (k & Hk).
    apply orb_true_iff. left. apply is_file_lookup.
    destruct (path_eqb t dst) eqn:E.
    + apply path_eqb_eq in E. subst. rewrite lookup_file_rename_dst. eauto.
    + apply path_eqb_neq in E.
      rewrite lookup_file_rename_other; eauto.
      intros ->. lia.
  - apply orb_true_iff. right. unfold is_dir in *.
    apply existsb_exists in H as ([q k] & Hin & Hq). cbn [fst] in Hq.
    apply existsb_exists.
    apply andb_true_iff in Hq as [Hpre Hne].
    assert (Hqs : q <> src).
    { intros ->. apply is_prefix_length in Hpre. lia. }
    destruct (path_eqb q dst) eqn:E.
    + apply path_eqb_eq in E. subst q. exists (dst, h). split.
      * unfold rename_file. apply in_or_app. right. now left.
      * cbn [fst]. now rewrite Hpre, Hne.
    + exists (q, k). split.
      * unfold rename_file, remove_file. apply in_or_app. left.
        apply filter_In. split.
        -- apply filter_In. split; [exact Hin|]. cbn [fst].
           apply negb_true_iff. now apply path_eqb_neq.
        -- cbn [fst]. now rewrite E.
      * cbn [fst]. now rewrite Hpre, Hne.
Qed.

(** A recognized file in a type bucket lies below the bucket. *)
Lemma bucket_file_length (p : Path) :
  recognized p = true -> in_type_bucket p = true -> 3 <= List.length p.
Proof.
  intros Hr Hb. destruct (in_type_bucket_head p Hb) as (b & rest & -> & Hin).
  destruct rest; [|cbn; lia].
  repeat destruct Hin as [<- | Hin]; try discriminate Hr. destruct Hin.
Qed.

(** *** The loop bodies in full *)

Lemma relocate_nf reg (p : Path) (w : World) :
  relocate reg p w =
  if negb (recognized p && in_root p) then ret tt w else
  match lookup_file (fs w) p with
  | None =>
      {| events := [EvLog p; EvHash p]; result := Raise OSError; world := w |}
  | Some h =>
      if has_hash (work (conn w)) h then
        {| events := [EvLog p; EvHash p; EvSelectHash h]; result := Ok tt;
           world := w |}
      else
        let o := relocate_target reg p h w in
        let pre := [EvLog p; EvHash p; EvSelectHash h] ++ events o in
        match result o with
        | Ok t =>
            if exists_ (fs w) t then
              {| events := pre ++ [EvExists t; EvRollback]; result := Ok tt;
                 world := rolled_back (world o) |}
            else if mkdir_blocked (fs w) (parent t) then
              {| events := pre ++ [EvExists t; EvMkdir (parent t)];
                 result := Raise OSError; world := world o |}
            else
              {| events := pre ++ [EvExists t; EvMkdir (parent t);
                                   EvRename p t; EvLogMoved t; EvCommit];
                 result := Ok tt; world := moved (world o) p t h |}
        | Raise e => {| events := pre; result := Raise e; world := world o |}
        | Hang => {| events := pre; result := Hang; world := world o |}
        end
  end.
Proof.
  rewrite relocate_eq.
  destruct (negb _); [reflexivity|].
  destruct (lookup_file (fs w) p) as [h|] eqn:Hl; [|reflexivity].
  destruct (has_hash _ _); [reflexivity|].
  cbn zeta. rewrite bind_eq.
  destruct (staging_relocate_target reg p h w) as (Hs & _ & _).
  pose proof (stages_fs _ _ Hs) as Hfs.
  destruct (result (relocate_target reg p h w)) as [t| |]; try reflexivity.
  rewrite move_and_commit_eq, Hfs, Hl.
  destruct (exists_ (fs w) t);
    [unfold prepend; cbn [events result world]; now rewrite <- app_assoc|].
  destruct (mkdir_blocked _ _);
    unfold prepend; cbn [events result world]; now rewrite <- app_assoc.
Qed.

Lemma classify_nf reg (p : Path) (w : World) :
  classify reg p w =
  if negb (recognized p && in_type_bucket p) then ret tt w else
  if has_path (work (conn w)) p then
    {| events := [EvLog p; EvSelectPath p]; result := Ok tt; world := w |}
  else
    match lookup_file (fs w) p with
    | None =>
        {| events := [EvLog p; EvSelectPath p; EvHash p];
           result := Raise OSError; world := w |}
    | Some h =>
        if has_hash (work (conn w)) h then
          {| events := [EvLog p; EvSelectPath p; EvHash p; EvSelectHash h];
             result := Ok tt; world := w |}
        else
          let o := classify_new reg p h w in
          let pre := [EvLog p; EvSelectPath p; EvHash p; EvSelectHash h]
                     ++ events o in
          match result o with
          | Ok _ => {| events := pre ++ [EvCommit]; result := Ok tt;
                       world := committed_ (world o) |}
          | Raise e => {| events := pre; result := Raise e; world := world o |}
          | Hang => {| events := pre; result := Hang; world := world o |}
          end
    end.
Proof.
  rewrite classify_eq.
  destruct (negb _); [reflexivity|].
  destruct (has_path _ _); [reflexivity|].
  destruct (lookup_file (fs w) p) as [h|]; [|reflexivity].
  destruct (has_hash _ _); [reflexivity|].
  cbn zeta. rewrite bind_eq.
  destruct (result (classify_new reg p h w)) as [[]| |]; reflexivity.
Qed.

Lemma bind_ok_inv {A B} (m : M A) (k : A -> M B) (w : World) (b : B) :
  result (bind m k w) = Ok b ->
  exists a, result (m w) = Ok a
            /\ result (k a (world (m w))) = Ok b
            /\ world (bind m k w) = world (k a (world (m w))).
Proof.
  rewrite bind_eq. destruct (result (m w)) as [a| |]; try discriminate.
  rewrite result_prepend, world_prepend. eauto.
Qed.

Lemma lookup_found_dir reg h t b c d :
  lookup reg h = Found t b c d ->
  dict_get MODEL_TYPE_TO_DIRECTORY_MAP t = Some d.
Proof.
  unfold lookup.
  repeat match goal with
    | |- context [match ?x with _ => _ end] =>
        lazymatch x with
        | context [match _ with _ => _ end] => fail
        | _ => destruct x eqn:?
        end
    end; try discriminate; intros E; injection E as <- <- <- <-; assumption.
Qed.

Lemma lookup_failed_not_ok reg h r t :
  lookup reg h = Failed r -> r <> Ok t.
Proof.
  unfold lookup.
  repeat match goal with
    | |- context [match ?x with _ => _ end] =>
        lazymatch x with
        | context [match _ with _ => _ end] => fail
        | _ => destruct x eqn:?
        end
    end; try discriminate; intros E; injection E as <-; discriminate.
Qed.

Lemma found_target_facts reg (p : Path) h t b c d :
  lookup reg h = Found t b c d ->
  in_type_bucket (found_target p b c d) = true
  /\ recognized (found_target p b c d) = recognized p
  /\ List.length (found_target p b c d) = 5
  /\ parent (found_target p b c d) <> MODEL_NOT_FOUND_PATH.
Proof.
  intros H. apply lookup_found_dir in H.
  split; [eapply mapped_directory_in_bucket; eassumption|].
  split; [apply recognized_name; reflexivity|].
  split; [reflexivity|].
  cbn. discriminate.
Qed.

Lemma uncertain_target_facts (p : Path) :
  in_type_bucket (uncertain_target p) = true
  /\ recognized (uncertain_target p) = recognized p
  /\ List.length (uncertain_target p) = 4.
Proof.
  split; [reflexivity|].
  split; [apply recognized_name; apply name_uncertain_target|reflexivity].
Qed.

Lemma has_path_snoc db db' row q :
  models db' = models db ++ [row] ->
  has_path db' q = has_path db q || path_eqb (m_path row) q.
Proof.
  intros E. unfold has_path. rewrite E, existsb_app. cbn.
  now rewrite orb_false_r.
Qed.

Lemma has_hash_snoc db db' row k :
  models db' = models db ++ [row] ->
  has_hash db' k = has_hash db k || String.eqb (m_hash row) k.
Proof.
  intros E. unfold has_hash. rewrite E, existsb_app. cbn.
  now rewrite orb_false_r.
Qed.

(** What the classifier stages for a new file, when it gets through. *)
Lemma classify_new_ok reg (p : Path) (h : Hash) (w : World) :
  has_path (work (conn w)) p = false ->
  has_hash (work (conn w)) h = false ->
  result (classify_new reg p h w) = Ok tt ->
  let db := work (conn w) in
  let db' := work (conn (world (classify_new reg p h w))) in
  (parent p = MODEL_NOT_FOUND_PATH
   /\ db' = {| models := models db ++ [model_row db p h None];
               civitai_models := civitai_models db; types := types db;
               base_models := base_models db; creators := creators db |})
  \/ (models db' = models db ++ [model_row db p h (Some (next_entry db))]
      /\ map c_id (civitai_models db') =
         map c_id (civitai_models db) ++ [next_entry db]).
Proof.
  intros Hp Hh. cbn zeta. unfold classify_new.
  destruct (path_eqb (parent p) MODEL_NOT_FOUND_PATH) eqn:Hn.
  - intros _. left. split; [now apply path_eqb_eq|].
    rewrite insert_ignore_eq. cbn [world]. unfold staged.
    rewrite execute_insert_models_eq, Hp, Hh. reflexivity.
  - intros Hres. right. unfold classify_entry in *.
    destruct (firstn 3 p) as [|a [|b [|c [|? ?]]]]; try discriminate Hres.
    apply bind_ok_inv in Hres as (r & _ & Hres & ->).
    rewrite send_get_request_eq in *. cbn [world] in *.
    apply bind_ok_inv in Hres as (ty & _ & Hres & ->).
    assert (Hw : world
                   ((if Nat.eqb (status_code r) 404
                     then ret (dict_get REVERSE_MAP a)
                     else model_version <- response_json r;;
                          t <- subscript (mv_model_type model_version);;
                          ret (Some t)) w) = w).
    { clear Hres. destruct (Nat.eqb _ _); [reflexivity|].
      unfold response_json.
      destruct (json r) as [v|]; [|reflexivity].
      rewrite bind_eq. cbn [ret result events world].
      rewrite world_prepend. unfold subscript.
      destruct (mv_model_type v); reflexivity. }
    rewrite Hw in *.
    now apply stage_classified_ok.
Qed.

Lemma classify_no_rename reg p w :
  existsb is_rename (events (classify reg p w)) = false.
Proof.
  destruct (classify_outcome_holds reg p w)
    as [Hf -> | Hf Hp -> | Hf Hp Hl -> | h Hf Hp Hl Hh ->
        | h evs w1 r Hf Hp Hl Hh Hs He Hr ->
        | h evs w1 Hf Hp Hl Hh Hs He ->];
    cbn [events ret app existsb is_rename orb]; try reflexivity;
    rewrite ?existsb_app, quiet_not_rename by assumption; reflexivity.
Qed.

(** A catalog that differs from another by ModelFile rows for files of the
    uncertain bucket, without a CatalogEntry. *)
Definition uncertain_row (r : ModelRow) : Prop :=
  parent (m_path r) = MODEL_NOT_FOUND_PATH /\ m_civitai_model_id r = None.

Definition null_extension (db db' : DB) : Prop :=
  civitai_models db' = civitai_models db
  /\ types db' = types db
  /\ base_models db' = base_models db
  /\ creators db' = creators db
  /\ exists rows, models db' = models db ++ rows /\ Forall uncertain_row rows.

Lemma null_extension_refl db : null_extension db db.
Proof.
  repeat split. exists []. split; [now rewrite app_nil_r|constructor].
Qed.

Lemma null_extension_trans db1 db2 db3 :
  null_extension db1 db2 -> null_extension db2 db3 -> null_extension db1 db3.
Proof.
  intros (A1 & A2 & A3 & A4 & rows & A5 & A6)
         (B1 & B2 & B3 & B4 & rows' & B5 & B6).
  repeat split; try congruence.
  exists (rows ++ rows'). split.
  - rewrite B5, A5. now rewrite app_assoc.
  - apply Forall_app. now split.
Qed.

Lemma null_extension_has_hash db db' k :
  null_extension db db' -> has_hash db k = true -> has_hash db' k = true.
Proof.
  intros (_ & _ & _ & _ & rows & E & _) H. unfold has_hash in *.
  rewrite E, existsb_app, H. reflexivity.
Qed.

Lemma null_extension_has_path db db' q :
  null_extension db db' -> has_path db q = true -> has_path db' q = true.
Proof.
  intros (_ & _ & _ & _ & rows & E & _) H. unfold has_path in *.
  rewrite E, existsb_app, H. reflexivity.
Qed.

Lemma null_extension_has_path_other db db' q :
  null_extension db db' -> parent q <> MODEL_NOT_FOUND_PATH ->
  has_path db' q = has_path db q.
Proof.
  intros (_ & _ & _ & _ & rows & E & Hrows) Hq. unfold has_path.
  rewrite E, existsb_app.
  assert (Hf : existsb (fun r => path_eqb (m_path r) q) rows = false).
  { clear E. induction Hrows as [|r rows (Hr & _) _ IH]; [reflexivity|].
    cbn [existsb]. rewrite IH, orb_false_r. apply path_eqb_neq. congruence. }
  now rewrite Hf, orb_false_r.
Qed.

Lemma null_extension_links_ok db db' :
  null_extension db db' -> links_ok db -> links_ok db'.
Proof.
  intros (E1 & _ & _ & _ & rows & E & Hrows) H r c Hr Hc.
  rewrite E1. rewrite E in Hr. apply in_app_or in Hr as [Hr | Hr]; [eauto|].
  rewrite Forall_forall in Hrows. destruct (Hrows r Hr) as (_ & Hn).
  congruence.
Qed.

Ltac unchanged :=
  split; [reflexivity|]; split; [auto|]; split; [reflexivity|];
  split; [apply null_extension_refl|auto].

Section Rerun.

Variable reg : Registry.

(** Between two files of a run: nothing staged, links in order, sentinel
    creator in place. *)
Definition base (w : World) : Prop :=
  clean w /\ links_ok (work (conn w)) /\ seeded (work (conn w)).

(** A root file the relocator leaves where it is: its content is
    cataloged, or its target is taken (and, for a file the registry knows,
    the target's path is not cataloged). *)
Definition settled (f : FS) (db : DB) (p : Path) (h : Hash) : Prop :=
  has_hash db h = true
  \/ match lookup reg h with
     | NotFound => exists_ f (uncertain_target p) = true
     | Found t b c d =>
         exists_ f (found_target p b c d) = true
         /\ has_path db (found_target p b c d) = false
     | Failed _ => False
     end.

Definition all_settled (f : FS) (db : DB) : Prop :=
  forall p h, recognized p && in_root p = true ->
              lookup_file f p = Some h -> settled f db p h.

(** Every bucket file is cataloged by path or by content. *)
Definition known (f : FS) (db : DB) : Prop :=
  forall p h, recognized p && in_type_bucket p = true ->
              lookup_file f p = Some h ->
              has_path db p = true \/ has_hash db h = true.

(** ... or lies in the uncertain bucket, where the classifier catalogs it
    without asking the registry. *)
Definition nearly_known (f : FS) (db : DB) : Prop :=
  forall p h, recognized p && in_type_bucket p = true ->
              lookup_file f p = Some h ->
              has_path db p = true \/ has_hash db h = true
              \/ parent p = MODEL_NOT_FOUND_PATH.

(** One file through the classifier, when it gets through. *)
Lemma classify_step (p : Path) (w : World) :
  base w ->
  result (classify reg p w) = Ok tt ->
  let w' := world (classify reg p w) in
  base w'
  /\ fs w' = fs w
  /\ (forall q, has_path (work (conn w)) q = true ->
                has_path (work (conn w')) q = true)
  /\ (forall k, has_hash (work (conn w)) k = true ->
                has_hash (work (conn w')) k = true)
  /\ (forall h, recognized p && in_type_bucket p = true ->
                lookup_file (fs w) p = Some h ->
                has_path (work (conn w')) p = true
                \/ has_hash (work (conn w')) h = true).
Proof.
  unfold base, clean, seeded.
  intros (Hc & Hl & Hs) Hres. cbn zeta. rewrite classify_nf in *.
  destruct (recognized p && in_type_bucket p) eqn:Hpass; cbn [negb] in *.
  2: { cbn [ret world]. repeat split; auto. discriminate. }
  destruct (has_path (work (conn w)) p) eqn:Hp.
  { cbn [world]. repeat split; auto. }
  destruct (lookup_file (fs w) p) as [h|] eqn:Hf; [|discriminate Hres].
  destruct (has_hash (work (conn w)) h) eqn:Hh.
  { cbn [world]. repeat split; auto. intros h' _ E. injection E as <-. auto. }
  cbn zeta in *.
  apply andb_true_iff in Hpass as Hpass'. destruct Hpass' as [_ Hb].
  destruct (staging_classify_new reg p h Hb w) as (Hst & _ & _).
  destruct (result (classify_new reg p h w)) as [[]| |] eqn:Hr;
    try discriminate Hres.
  cbn [world committed_ fs conn work committed].
  pose proof (classify_new_ok reg p h w Hp Hh Hr) as Hnew. cbn zeta in Hnew.
  set (w1 := world (classify_new reg p h w)) in *. clearbody w1.
  assert (Hpath : has_path (work (conn w1)) p = true).
  { destruct Hnew as [(_ & ->) | (Hm & _)].
    - unfold has_path. cbn [models]. rewrite existsb_app. cbn.
      now rewrite path_eqb_refl, orb_true_r.
    - rewrite (has_path_snoc _ _ _ p Hm). cbn. now rewrite path_eqb_refl, orb_true_r. }
  split; [|split; [now apply stages_fs|split; [|split]]].
  - split; [reflexivity|]. split.
    + destruct Hnew as [(_ & E) | (Hm & Hcv)].
      * eapply links_ok_add_unlinked; [exact Hl| |]; rewrite E; reflexivity.
      * eapply links_ok_add_linked; eauto.
    + apply (stages_has_name _ _ Creators "null" Hst). exact Hs.
  - intros q. now apply stages_has_path.
  - intros k. now apply stages_has_hash.
  - intros h' _ _. now left.
Qed.

(** One file through the classifier when the registry is not needed. *)
Lemma classify_nearly (p : Path) (w : World) :
  base w ->
  (recognized p && in_type_bucket p = true ->
   exists h, lookup_file (fs w) p = Some h
             /\ (has_path (work (conn w)) p = true
                 \/ has_hash (work (conn w)) h = true
                 \/ parent p = MODEL_NOT_FOUND_PATH)) ->
  let w' := world (classify reg p w) in
  result (classify reg p w) = Ok tt
  /\ base w'
  /\ fs w' = fs w
  /\ null_extension (work (conn w)) (work (conn w'))
  /\ ((recognized p && in_type_bucket p = true ->
       exists h, lookup_file (fs w) p = Some h
                 /\ (has_path (work (conn w)) p = true
                     \/ has_hash (work (conn w)) h = true)) ->
      work (conn w') = work (conn w)).
Proof.
  unfold base, clean, seeded.
  intros (Hc & Hl & Hs) Hnear. cbn zeta. rewrite classify_nf.
  destruct (recognized p && in_type_bucket p) eqn:Hpass; cbn [negb].
  2: { cbn [ret world result]. unchanged. }
  destruct (Hnear eq_refl) as (h & Hf & Hcase).
  destruct (has_path (work (conn w)) p) eqn:Hp.
  { cbn [world result]. unchanged. }
  rewrite Hf.
  destruct (has_hash (work (conn w)) h) eqn:Hh.
  { cbn [world result]. unchanged. }
  destruct Hcase as [Hcase | [Hcase | Hnull]]; try discriminate Hcase.
  cbn zeta. unfold classify_new.
  apply path_eqb_eq in Hnull as Hnull'. rewrite Hnull'.
  rewrite insert_ignore_eq. cbn [result world events]. unfold staged.
  rewrite execute_insert_models_eq, Hp, Hh.
  cbn [orb has_civitai_link committed_ fs conn work committed].
  split; [reflexivity|]. split; [|split; [reflexivity|split]].
  - split; [reflexivity|]. split.
    + eapply links_ok_add_unlinked; [exact Hl| |]; reflexivity.
    + exact Hs.
  - repeat split. exists [model_row (work (conn w)) p h None].
    split; [reflexivity|]. repeat constructor. exact Hnull.
  - intros Hk. destruct (Hk eq_refl) as (h' & Hf' & [E | E]).
    + congruence.
    + injection Hf' as <-. congruence.
Qed.

(** One file through the relocator, when it gets through. *)
Lemma relocate_step (p : Path) (w : World) :
  base w ->
  result (relocate reg p w) = Ok tt ->
  let w' := world (relocate reg p w) in
  base w'
  /\ (forall q, has_path (work (conn w)) q = true ->
                has_path (work (conn w')) q = true)
  /\ (forall k, has_hash (work (conn w)) k = true ->
                has_hash (work (conn w')) k = true)
  /\ ((fs w' = fs w
       /\ work (conn w') = work (conn w)
       /\ forall h, recognized p && in_root p = true ->
                    lookup_file (fs w) p = Some h ->
                    settled (fs w) (work (conn w)) p h)
      \/ exists h t,
           recognized p && in_root p = true
           /\ lookup_file (fs w) p = Some h
           /\ 4 <= List.length t
           /\ recognized t = true
           /\ in_type_bucket t = true
           /\ exists_ (fs w) t = false
           /\ fs w' = rename_file (fs w) p t h
           /\ (parent t = MODEL_NOT_FOUND_PATH
               \/ has_path (work (conn w')) t = true)
           /\ (forall q, has_path (work (conn w')) q = true ->
                         has_path (work (conn w)) q = true \/ q = t)).
Proof.
  unfold base, clean, seeded.
  intros (Hc & Hl & Hs) Hres. cbn zeta. rewrite relocate_nf in *.
  destruct (recognized p && in_root p) eqn:Hpass; cbn [negb] in *.
  2: { cbn [ret world]. repeat split; auto. left. repeat split; auto.
       discriminate. }
  destruct (lookup_file (fs w) p) as [h|] eqn:Hf; [|discriminate Hres].
  destruct (has_hash (work (conn w)) h) eqn:Hh.
  { cbn [world]. repeat split; auto. left. repeat split; auto.
    intros h' _ E. injection E as <-. now left. }
  cbn zeta in *.
  apply andb_true_iff in Hpass as Hpass'. destruct Hpass' as [Hrec Hroot].
  destruct (staging_relocate_target reg p h w) as (Hst & _ & _).
  pose proof (relocate_target_rw reg p h w) as Hrw. cbn zeta in Hrw.
  destruct (result (relocate_target reg p h w)) as [t| |] eqn:Hr;
    try discriminate Hres.
  pose proof (stages_fs _ _ Hst) as Hfs.
  pose proof (stages_committed _ _ Hst) as Hcm.
  destruct (lookup reg h) as [|ty b c d|r] eqn:Hlk.
  - (* the registry does not know the file *)
    destruct Hrw as (Ht & Hw). injection Ht as ->. rewrite Hw in *.
    destruct (uncertain_target_facts p) as (Tb & Tr & Tl).
    destruct (exists_ (fs w) (uncertain_target p)) eqn:Hex.
    + cbn [world rolled_back fs conn work committed]. rewrite <- Hc.
      split; [auto|]. split; [auto|]. split; [auto|].
      left. split; [reflexivity|]. split; [reflexivity|].
      intros h' _ E. injection E as <-. right. now rewrite Hlk.
    + destruct (mkdir_blocked _ _); [discriminate Hres|].
      cbn [world moved fs conn work committed].
      split; [auto|]. split; [auto|]. split; [auto|].
      right. exists h, (uncertain_target p).
      split; [reflexivity|]. split; [reflexivity|].
      split; [lia|]. split; [congruence|]. split; [exact Tb|].
      split; [exact Hex|]. split; [reflexivity|].
      split; [left; apply parent_uncertain_target|auto].
  - (* the registry knows the file *)
    destruct Hrw as (Ht & Hw).
    pose proof (stage_found_spec (found_target p b c d) h ty b c w) as Hsp.
    cbn zeta in Hsp. destruct Hsp as (_ & _ & Hsp).
    rewrite <- Ht, <- Hw in Hsp.
    destruct (found_target_facts reg p h ty b c d Hlk) as (Tb & Tr & Tl & Tp).
    destruct (has_path (work (conn w)) (found_target p b c d)
              || has_hash (work (conn w)) h
              || has_civitai_link (work (conn w))
                   (Some (next_entry (work (conn w))))) eqn:Hconf;
      [discriminate Hsp|].
    destruct Hsp as (Et & Hm & Hcv). injection Et as ->.
    apply orb_false_iff in Hconf as [Hconf _].
    apply orb_false_iff in Hconf as [Hpt _].
    clear Ht Hw Hr.
    remember (world (relocate_target reg p h w)) as w1 eqn:Ew1. clear Ew1.
    destruct (exists_ (fs w) (found_target p b c d)) eqn:Hex.
    + cbn [world rolled_back fs conn work committed].
      rewrite Hcm, Hfs, <- Hc.
      split; [auto|]. split; [auto|]. split; [auto|].
      left. split; [reflexivity|]. split; [reflexivity|].
      intros h' _ E. injection E as <-. right. rewrite Hlk. auto.
    + destruct (mkdir_blocked _ _); [discriminate Hres|].
      cbn [world moved fs conn work committed].
      split; [|split; [|split]].
      * split; [reflexivity|]. split.
        -- eapply links_ok_add_linked; eauto.
        -- apply (stages_has_name _ _ Creators "null" Hst). exact Hs.
      * intros q. now apply stages_has_path.
      * intros k. now apply stages_has_hash.
      * right. exists h, (found_target p b c d).
        rewrite Hfs.
        split; [reflexivity|]. split; [reflexivity|].
        split; [lia|]. split; [congruence|]. split; [exact Tb|].
        split; [exact Hex|]. split; [reflexivity|]. split.
        -- right. rewrite (has_path_snoc _ _ _ _ Hm). cbn [model_row m_path].
           now rewrite path_eqb_refl, orb_true_r.
        -- intros q Hq. rewrite (has_path_snoc _ _ _ q Hm) in Hq.
           cbn [model_row m_path] in Hq.
           apply orb_true_iff in Hq as [Hq | Hq]; [now left|].
           right. symmetry. now apply path_eqb_eq.
  - (* the lookup fails *)
    destruct Hrw as (Ht & _). symmetry in Ht.
    now apply (lookup_failed_not_ok reg h r t Hlk) in Ht.
Qed.

(** One file through the relocator when it is settled: nothing moves. *)
Lemma relocate_settled (p : Path) (w : World) :
  base w ->
  (recognized p && in_root p = true ->
   exists h, lookup_file (fs w) p = Some h
             /\ settled (fs w) (work (conn w)) p h) ->
  let w' := world (relocate reg p w) in
  result (relocate reg p w) = Ok tt
  /\ base w'
  /\ fs w' = fs w
  /\ work (conn w') = work (conn w)
  /\ existsb is_rename (events (relocate reg p w)) = false.
Proof.
  unfold base, clean, seeded.
  intros (Hc & Hl & Hs) Hset. cbn zeta. rewrite relocate_nf.
  destruct (recognized p && in_root p) eqn:Hpass; cbn [negb].
  2: { cbn [ret world result events]. repeat split; auto. }
  destruct (Hset eq_refl) as (h & Hf & Hsettled). rewrite Hf.
  destruct (has_hash (work (conn w)) h) eqn:Hh.
  { cbn [world result events]. repeat split; auto. }
  destruct Hsettled as [Hk | Hsettled]; [congruence|].
  cbn zeta.
  destruct (staging_relocate_target reg p h w) as (Hst & Hq & _).
  pose proof (relocate_target_rw reg p h w) as Hrw. cbn zeta in Hrw.
  pose proof (stages_fs _ _ Hst) as Hfs.
  pose proof (stages_committed _ _ Hst) as Hcm.
  assert (Hnr : forall tail,
             existsb is_rename
               (([EvLog p; EvHash p; EvSelectHash h]
                 ++ events (relocate_target reg p h w)) ++ tail) =
             existsb is_rename tail).
  { intros tail. rewrite !existsb_app. cbn [existsb is_rename orb].
    now rewrite quiet_not_rename by assumption. }
  destruct (lookup reg h) as [|ty b c d|r] eqn:Hlk; [| |destruct Hsettled].
  - destruct Hrw as (Ht & Hw). rewrite Ht, Hsettled.
    cbn [world result events rolled_back fs conn work committed].
    rewrite Hnr, Hw. cbn [existsb is_rename orb].
    rewrite <- Hc. repeat split; auto.
  - destruct Hsettled as (Hex & Hpt). destruct Hrw as (Ht & Hw).
    pose proof (stage_found_spec (found_target p b c d) h ty b c w) as Hsp.
    cbn zeta in Hsp. destruct Hsp as (_ & _ & Hsp).
    rewrite Hpt, Hh, (links_ok_fresh _ Hl) in Hsp. cbn [orb] in Hsp.
    destruct Hsp as (Et & _). rewrite <- Ht in Et. rewrite Et, Hex.
    cbn [world result events rolled_back fs conn work committed].
    rewrite Hnr, Hfs, Hcm. cbn [existsb is_rename orb].
    rewrite <- Hc. repeat split; auto.
Qed.

End Rerun.

(** *** Loops that get through *)

Lemma for_each_preserves {A} (I P : World -> Prop) (l : list A)
    (body : A -> M unit) :
  (forall y w, In y l -> I w -> result (body y w) = Ok tt ->
     I (world (body y w)) /\ (P w -> P (world (body y w)))) ->
  forall w, I w -> result (for_each l body w) = Ok tt ->
    I (world (for_each l body w)) /\ (P w -> P (world (for_each l body w))).
Proof.
  induction l as [|x l IH]; intros Hstep w Hw Hres.
  - cbn. auto.
  - rewrite for_each_cons in *.
    destruct (result (body x w)) as [[]| |] eqn:Hx; try discriminate Hres.
    rewrite result_prepend in Hres. rewrite world_prepend.
    destruct (Hstep x w (or_introl eq_refl) Hw Hx) as (Hi & Hp).
    destruct (IH (fun y w' Hy => Hstep y w' (or_intror Hy)) _ Hi Hres)
      as (Hi' & Hp').
    auto.
Qed.

Lemma for_each_spec {A} (I : World -> Prop) (D : A -> World -> Prop)
    (l : list A) (body : A -> M unit) :
  (forall x w, In x l -> I w -> result (body x w) = Ok tt ->
     I (world (body x w)) /\ D x (world (body x w))) ->
  (forall x y w, In y l -> I w -> result (body y w) = Ok tt ->
     D x w -> D x (world (body y w))) ->
  forall w, I w -> result (for_each l body w) = Ok tt ->
    I (world (for_each l body w))
    /\ forall x, In x l -> D x (world (for_each l body w)).
Proof.
  induction l as [|x l IH]; intros Hstep Hkeep w Hw Hres.
  - cbn. split; [exact Hw|intros x []].
  - rewrite for_each_cons in *.
    destruct (result (body x w)) as [[]| |] eqn:Hx; try discriminate Hres.
    rewrite result_prepend in Hres. rewrite world_prepend.
    destruct (Hstep x w (or_introl eq_refl) Hw Hx) as (Hi & Hd).
    destruct (IH (fun y w' Hy => Hstep y w' (or_intror Hy))
                 (fun z y w' Hy => Hkeep z y w' (or_intror Hy)) _ Hi Hres)
      as (Hi' & Hd').
    split; [exact Hi'|].
    intros z [<- | Hz]; [|now apply Hd'].
    refine (proj2 (for_each_preserves I (D x) l body _ _ Hi Hres) Hd).
    intros y w' Hy Hw' Hy'. split.
    + exact (proj1 (Hstep y w' (or_intror Hy) Hw' Hy')).
    + exact (Hkeep x y w' (or_intror Hy) Hw' Hy').
Qed.

Lemma for_each_total {A} (I : World -> Prop) (E : Event -> Prop)
    (l : list A) (body : A -> M unit) :
  (forall x w, In x l -> I w ->
     result (body x w) = Ok tt /\ I (world (body x w))
     /\ Forall E (events (body x w))) ->
  forall w, I w ->
    result (for_each l body w) = Ok tt
    /\ I (world (for_each l body w))
    /\ Forall E (events (for_each l body w)).
Proof.
  induction l as [|x l IH]; intros Hstep w Hw.
  - cbn. repeat split; auto.
  - rewrite for_each_cons.
    destruct (Hstep x w (or_introl eq_refl) Hw) as (Hx & Hi & He).
    rewrite Hx, result_prepend, world_prepend, events_prepend.
    destruct (IH (fun y w' Hy => Hstep y w' (or_intror Hy)) _ Hi)
      as (Hr & Hi' & He').
    repeat split; auto. apply Forall_app. now split.
Qed.

Definition not_rename (e : Event) : Prop := is_rename e = false.

Lemma not_rename_Forall evs :
  existsb is_rename evs = false <-> Forall not_rename evs.
Proof.
  unfold not_rename. induction evs as [|e evs IH]; cbn.
  - split; [constructor|reflexivity].
  - rewrite orb_false_iff, IH. split.
    + intros [H1 H2]. now constructor.
    + intros H. inversion H. auto.
Qed.

(** *** The files of a walk *)

Lemma in_walk (f : FS) (p : Path) (h : Hash) :
  lookup_file f p = Some h -> is_prefix MODEL_PATH p = true -> In p (walk f).
Proof.
  intros Hl Hp. unfold walk. apply filter_In. split; [|exact Hp].
  apply lookup_file_In in Hl. apply in_map_iff. now exists (p, h).
Qed.

Lemma walk_lookup (f : FS) (p : Path) :
  In p (walk f) -> exists h, lookup_file f p = Some h.
Proof.
  unfold walk. intros H. apply filter_In in H as [H _].
  apply in_map_iff in H as ([q h] & <- & H). cbn [fst].
  eapply In_lookup_file. eassumption.
Qed.

Lemma bucket_under_models (p : Path) :
  in_type_bucket p = true -> is_prefix MODEL_PATH p = true.
Proof.
  intros H. now destruct (in_type_bucket_head p H) as (b & rest & -> & _).
Qed.

Lemma root_under_models (p : Path) :
  in_root p = true -> is_prefix MODEL_PATH p = true.
Proof. intros H. now destruct (in_root_shape p H) as (n & ->). Qed.

(** *** The seed of line 122 *)

Lemma has_name_after_insert t s w :
  has_name (name_rows t (work (conn (staged (InsName t (Some s)) w)))) s = true.
Proof.
  rewrite staged_work. cbn [execute_insert].
  destruct (has_name (name_rows t (work (conn w))) s) eqn:H; [exact H|].
  destruct t; cbn [name_rows set_name_rows types base_models creators];
    rewrite has_name_app; cbn; rewrite String.eqb_refl;
    now rewrite orb_true_r.
Qed.

Lemma seed_spec (f : FS) (db : DB) :
  let w := {| fs := f; conn := connect db |} in
  links_ok db ->
  result (seed w) = Ok tt
  /\ fs (world (seed w)) = f
  /\ clean (world (seed w))
  /\ links_ok (work (conn (world (seed w))))
  /\ seeded (work (conn (world (seed w))))
  /\ (forall q, has_path (work (conn (world (seed w)))) q = has_path db q)
  /\ (forall k, has_hash (work (conn (world (seed w)))) k = has_hash db k)
  /\ (seeded db -> work (conn (world (seed w))) = db)
  /\ existsb is_rename (events (seed w)) = false.
Proof.
  cbn zeta. intros Hl. unfold seed. rewrite insert_commit_eq.
  cbn [result world events committed_ fs conn work committed].
  set (w := {| fs := f; conn := connect db |}).
  assert (Hm : models (work (conn (staged (InsName Creators (Some "null")) w)))
               = models db
               /\ civitai_models
                    (work (conn (staged (InsName Creators (Some "null")) w)))
                  = civitai_models db).
  { rewrite staged_work.
    destruct (execute_insert _ _) as [[db' i]|] eqn:E; [|split; reflexivity].
    now apply execute_insert_name in E. }
  destruct Hm as (Hm & Hcv).
  split; [reflexivity|]. split; [now rewrite staged_fs|].
  split; [reflexivity|].
  split; [now apply (links_ok_ext db)|].
  split; [apply (has_name_after_insert Creators "null" w)|].
  split; [intros q; now apply has_path_ext|].
  split; [intros k; now apply has_hash_ext|].
  split; [|reflexivity].
  unfold seeded. intros Hs. rewrite staged_work. cbn [execute_insert].
  unfold w. cbn [conn connect work name_rows]. now rewrite Hs.
Qed.

(** *** The passes of a first run *)

Lemma classifier_pass_settles reg (w : World) :
  base w ->
  result (classifier_pass reg w) = Ok tt ->
  let w' := world (classifier_pass reg w) in
  base w' /\ fs w' = fs w /\ known (fs w) (work (conn w')).
Proof.
  intros Hb Hres. cbn zeta. rewrite classifier_pass_eq in *.
  set (f := fs w) in *.
  destruct (for_each_spec
              (fun w0 => base w0 /\ fs w0 = f)
              (fun p w0 => forall h, recognized p && in_type_bucket p = true ->
                                     lookup_file f p = Some h ->
                                     has_path (work (conn w0)) p = true
                                     \/ has_hash (work (conn w0)) h = true)
              (walk f) (classify reg)) with (w := w)
    as ((Hb' & Hf') & Hd); auto.
  - intros p w0 _ (Hb0 & Hf0) Hr.
    destruct (classify_step reg p w0 Hb0 Hr) as (B & F & _ & _ & D).
    split; [split; [exact B|congruence]|].
    intros h Hp Hl. apply D; congruence.
  - intros p y w0 _ (Hb0 & Hf0) Hr Hd h Hp Hl.
    destruct (classify_step reg y w0 Hb0 Hr) as (_ & _ & Mp & Mh & _).
    destruct (Hd h Hp Hl) as [H | H]; [left; now apply Mp|right; now apply Mh].
  - split; [exact Hb'|]. split; [exact Hf'|].
    intros p h Hp Hl. apply Hd; auto.
    apply (in_walk f p h Hl). apply bucket_under_models.
    now apply andb_true_iff in Hp as [_ ?].
Qed.

Lemma settled_after_move reg (f : FS) (db db' : DB) (p src t : Path) (h k : Hash) :
  in_root src = true -> exists_ f t = false ->
  (forall q, has_path db' q = true -> has_path db q = true \/ q = t) ->
  (forall x, has_hash db x = true -> has_hash db' x = true) ->
  settled reg f db p h ->
  settled reg (rename_file f src t k) db' p h.
Proof.
  intros Hsrc Hex Hnew Hmono [Hh | Hs]; [left; auto|right].
  destruct (lookup reg h) as [|ty b c d|r] eqn:Hlk; [| |exact Hs].
  - apply exists_after_rename; auto. cbn. lia.
  - destruct Hs as (He & Hp). split.
    + apply exists_after_rename; auto. cbn. lia.
    + destruct (has_path db' (found_target p b c d)) eqn:E; [|reflexivity].
      destruct (Hnew _ E) as [H | H]; congruence.
Qed.

Lemma relocator_pass_settles reg (w : World) :
  base w ->
  nearly_known (fs w) (work (conn w)) ->
  result (relocator_pass reg w) = Ok tt ->
  let w' := world (relocator_pass reg w) in
  base w'
  /\ nearly_known (fs w') (work (conn w'))
  /\ all_settled reg (fs w') (work (conn w')).
Proof.
  intros Hb Hn Hres. cbn zeta. rewrite relocator_pass_eq in *.
  set (f := fs w) in *.
  destruct (for_each_spec
              (fun w0 => base w0
                         /\ nearly_known (fs w0) (work (conn w0))
                         /\ forall p h, in_root p = true ->
                                        lookup_file (fs w0) p = Some h ->
                                        lookup_file f p = Some h)
              (fun p w0 => forall h, recognized p && in_root p = true ->
                                     lookup_file (fs w0) p = Some h ->
                                     settled reg (fs w0) (work (conn w0)) p h)
              (walk f) (relocate reg)) with (w := w)
    as ((Hb' & Hn' & Hroots) & Hd); auto.
  - (* one step: the invariant, and the file just seen *)
    intros y w0 _ (Hb0 & Hn0 & Hr0) Hr.
    destruct (relocate_step reg y w0 Hb0 Hr)
      as (B & Mp & Mh & [(Ef & Ew & S) | (h & t & Hy & Hl & Tl & Tr & Tb & Tex & Ef & Tn & Tnew)]).
    + rewrite Ef, Ew. split; [split; [exact B|split; assumption]|exact S].
    + apply andb_true_iff in Hy as Hy'. destruct Hy' as [_ Hroot].
      pose proof (in_root_length y Hroot) as Hylen.
      assert (Hyt : y <> t) by (intros ->; lia).
      split; [split; [exact B|split]|].
      * intros q k Hq Hlq. rewrite Ef in Hlq.
        destruct (path_eqb q t) eqn:Eqt.
        { apply path_eqb_eq in Eqt. subst q. tauto. }
        apply path_eqb_neq in Eqt.
        apply andb_true_iff in Hq as Hq'. destruct Hq' as [Hqr Hqb].
        pose proof (bucket_file_length q Hqr Hqb) as Hqlen.
        rewrite lookup_file_rename_other in Hlq;
          [|intros ->; lia|exact Eqt].
        destruct (Hn0 q k Hq Hlq) as [H | [H | H]]; auto.
      * intros q k Hq Hlq. rewrite Ef in Hlq.
        pose proof (in_root_length q Hq) as Hqlen.
        destruct (path_eqb q y) eqn:Eqy.
        { apply path_eqb_eq in Eqy. subst q.
          rewrite lookup_file_rename_src in Hlq by exact Hyt. discriminate. }
        apply path_eqb_neq in Eqy.
        rewrite lookup_file_rename_other in Hlq;
          [|exact Eqy|intros ->; lia].
        now apply Hr0.
      * intros h' _ Hl'. rewrite Ef in Hl'.
        rewrite lookup_file_rename_src in Hl' by exact Hyt. discriminate.
  - (* one step: the files seen before *)
    intros x y w0 _ (Hb0 & Hn0 & Hr0) Hr Hd h Hx Hlx.
    destruct (relocate_step reg y w0 Hb0 Hr)
      as (B & Mp & Mh & [(Ef & Ew & S) | (k & t & Hy & Hl & Tl & Tr & Tb & Tex & Ef & Tn & Tnew)]).
    + rewrite Ef, Ew in *. now apply Hd.
    + apply andb_true_iff in Hy as Hy'. destruct Hy' as [_ Hroot].
      apply andb_true_iff in Hx as Hx'. destruct Hx' as [_ Hxroot].
      pose proof (in_root_length y Hroot) as Hylen.
      pose proof (in_root_length x Hxroot) as Hxlen.
      assert (Hyt : y <> t) by (intros ->; lia).
      rewrite Ef in *.
      destruct (path_eqb x y) eqn:Exy.
      { apply path_eqb_eq in Exy. subst x.
        rewrite lookup_file_rename_src in Hlx by exact Hyt. discriminate. }
      apply path_eqb_neq in Exy.
      rewrite lookup_file_rename_other in Hlx; [|exact Exy|intros ->; lia].
      apply settled_after_move with (db := work (conn w0)); auto.
  - split; [exact Hb'|]. split; [exact Hn'|].
    intros p h Hp Hl. apply Hd; auto.
    apply andb_true_iff in Hp as Hp'. destruct Hp' as [_ Hroot].
    apply (in_walk f p h); [now apply Hroots|now apply root_under_models].
Qed.

(** *** The passes of a later run *)

Lemma settled_null_extension reg (f : FS) (db db' : DB) (p : Path) (h : Hash) :
  null_extension db db' -> settled reg f db p h -> settled reg f db' p h.
Proof.
  intros Hx [Hh | Hs]; [left; eapply null_extension_has_hash; eauto|right].
  destruct (lookup reg h) as [|ty b c d|r] eqn:Hlk; auto.
  destruct Hs as (He & Hp). split; [exact He|].
  rewrite (null_extension_has_path_other db db'); auto.
  now destruct (found_target_facts reg p h ty b c d Hlk) as (_ & _ & _ & ?).
Qed.

Lemma classifier_pass_calm reg (w : World) :
  base w ->
  nearly_known (fs w) (work (conn w)) ->
  let w' := world (classifier_pass reg w) in
  result (classifier_pass reg w) = Ok tt
  /\ base w'
  /\ fs w' = fs w
  /\ null_extension (work (conn w)) (work (conn w'))
  /\ known (fs w) (work (conn w'))
  /\ (known (fs w) (work (conn w)) -> work (conn w') = work (conn w))
  /\ existsb is_rename (events (classifier_pass reg w)) = false.
Proof.
  intros Hb Hn. cbn zeta.
  assert (Hknown : result (classifier_pass reg w) = Ok tt ->
                   known (fs w) (work (conn (world (classifier_pass reg w)))))
    by (intros Hr; now destruct (classifier_pass_settles reg w Hb Hr)).
  rewrite classifier_pass_eq in *.
  set (f := fs w) in *. set (db := work (conn w)) in *.
  destruct (for_each_total
              (fun w0 => base w0 /\ fs w0 = f
                         /\ null_extension db (work (conn w0))
                         /\ (known f db -> work (conn w0) = db))
              not_rename (walk f) (classify reg)) with (w := w)
    as (Hres & (Hb' & Hf' & Hx' & Hk') & He).
  - intros p w0 Hp (Hb0 & Hf0 & Hx0 & Hk0).
    destruct (walk_lookup f p Hp) as (h & Hl).
    destruct (classify_nearly reg p w0 Hb0) as (R & B & F & X & K).
    { intros Hpass. exists h. rewrite Hf0. split; [exact Hl|].
      destruct (Hn p h Hpass Hl) as [H | [H | H]]; auto.
      - left. eapply null_extension_has_path; eauto.
      - right. left. eapply null_extension_has_hash; eauto. }
    split; [exact R|]. split.
    + split; [exact B|]. split; [congruence|]. split.
      * eapply null_extension_trans; eauto.
      * intros Hkn. rewrite K; [auto|].
        intros Hpass. exists h. rewrite Hf0. split; [exact Hl|].
        rewrite (Hk0 Hkn). now apply Hkn.
    + apply not_rename_Forall. apply classify_no_rename.
  - split; [exact Hb|]. split; [reflexivity|].
    split; [apply null_extension_refl|reflexivity].
  - split; [exact Hres|]. split; [exact Hb'|]. split; [exact Hf'|].
    split; [exact Hx'|]. split; [exact (Hknown Hres)|].
    split; [exact Hk'|now apply not_rename_Forall].
Qed.

Lemma relocator_pass_calm reg (w : World) :
  base w ->
  all_settled reg (fs w) (work (conn w)) ->
  let w' := world (relocator_pass reg w) in
  result (relocator_pass reg w) = Ok tt
  /\ base w'
  /\ fs w' = fs w
  /\ work (conn w') = work (conn w)
  /\ existsb is_rename (events (relocator_pass reg w)) = false.
Proof.
  intros Hb Hs. cbn zeta. rewrite relocator_pass_eq.
  set (f := fs w) in *. set (db := work (conn w)) in *.
  destruct (for_each_total
              (fun w0 => base w0 /\ fs w0 = f /\ work (conn w0) = db)
              not_rename (walk f) (relocate reg)) with (w := w)
    as (Hres & (Hb' & Hf' & Hw') & He).
  - intros p w0 Hp (Hb0 & Hf0 & Hw0).
    destruct (walk_lookup f p Hp) as (h & Hl).
    destruct (relocate_settled reg p w0 Hb0) as (R & B & F & W & E).
    { intros Hpass. exists h. rewrite Hf0, Hw0. split; [exact Hl|].
      now apply Hs. }
    split; [exact R|]. split; [|now apply not_rename_Forall].
    split; [exact B|]. split; congruence.
  - split; [exact Hb|]. split; reflexivity.
  - split; [exact Hres|]. split; [exact Hb'|]. split; [exact Hf'|].
    split; [exact Hw'|now apply not_rename_Forall].
Qed.

(** *** Whole runs *)

Lemma main_ok_inv reg (w : World) :
  result (main reg w) = Ok tt ->
  result (classifier_pass reg (world (seed w))) = Ok tt
  /\ result (relocator_pass reg
               (world (classifier_pass reg (world (seed w))))) = Ok tt
  /\ world (main reg w) =
     world (relocator_pass reg (world (classifier_pass reg (world (seed w))))).
Proof.
  rewrite main_eq. intros H.
  apply bind_ok_inv in H as ([] & _ & H & ->).
  apply bind_ok_inv in H as ([] & H1 & H2 & ->).
  auto.
Qed.

(** The disk a completed run leaves: links in order, the sentinel creator
    seeded, every bucket file cataloged or in the uncertain bucket, every
    root file settled. *)
Definition calm reg (f : FS) (db : DB) : Prop :=
  links_ok db /\ seeded db /\ nearly_known f db /\ all_settled reg f db.

Lemma run_settles reg (f : FS) (db : DB) :
  links_ok db ->
  result (run reg f db) = Ok tt ->
  calm reg (fst (disk_after (run reg f db))) (snd (disk_after (run reg f db))).
Proof.
  intros Hl Hres. unfold run, disk_after in *. cbn [fst snd].
  destruct (seed_spec f db Hl) as (_ & Sf & Sc & Sl & Ss & _).
  cbn zeta in *.
  destruct (main_ok_inv reg _ Hres) as (H1 & H2 & ->).
  set (w1 := world (seed {| fs := f; conn := connect db |})) in *.
  assert (Hb1 : base w1) by (repeat split; assumption).
  destruct (classifier_pass_settles reg w1 Hb1 H1) as (Hb2 & Hf2 & Hk2).
  set (w2 := world (classifier_pass reg w1)) in *.
  assert (Hn2 : nearly_known (fs w2) (work (conn w2))).
  { rewrite Hf2. intros p h Hp Hlk. destruct (Hk2 p h Hp Hlk); auto. }
  destruct (relocator_pass_settles reg w2 Hb2 Hn2 H2)
    as ((Hc3 & Hl3 & Hs3) & Hn3 & Ha3).
  unfold clean in Hc3. rewrite <- Hc3.
  repeat split; assumption.
Qed.

Lemma run_calm reg (f : FS) (db : DB) :
  calm reg f db ->
  let o := run reg f db in
  result o = Ok tt
  /\ existsb is_rename (events o) = false
  /\ fst (disk_after o) = f
  /\ null_extension db (snd (disk_after o))
  /\ calm reg f (snd (disk_after o))
  /\ known f (snd (disk_after o))
  /\ (known f db -> snd (disk_after o) = db).
Proof.
  intros (Hl & Hs & Hn & Ha). cbn zeta. unfold run, disk_after. cbn [fst snd].
  destruct (seed_spec f db Hl) as (S0 & Sf & Sc & Sl & Ss & _ & _ & Sw & Se).
  cbn zeta in *. specialize (Sw Hs).
  set (w0 := {| fs := f; conn := connect db |}) in *.
  set (w1 := world (seed w0)) in *.
  assert (Hb1 : base w1) by (repeat split; assumption).
  assert (Hn1 : nearly_known (fs w1) (work (conn w1))) by now rewrite Sf, Sw.
  destruct (classifier_pass_calm reg w1 Hb1 Hn1)
    as (R2 & Hb2 & Hf2 & Hx2 & Hk2 & Hsame2 & E2).
  set (w2 := world (classifier_pass reg w1)) in *.
  rewrite Sf, Sw in *.
  assert (Ha2 : all_settled reg (fs w2) (work (conn w2))).
  { rewrite Hf2. intros p h Hp Hlk.
    eapply settled_null_extension; eauto. }
  destruct (relocator_pass_calm reg w2 Hb2 Ha2) as (R3 & Hb3 & Hf3 & Hw3 & E3).
  set (w3 := world (relocator_pass reg w2)) in *.
  assert (Hmain : main reg w0 =
                  prepend (events (seed w0))
                    (prepend (events (classifier_pass reg w1))
                       (relocator_pass reg w2))).
  { rewrite main_eq, bind_eq, S0. fold w1. f_equal.
    rewrite bind_eq, R2. reflexivity. }
  rewrite Hmain, !result_prepend, !world_prepend, !events_prepend.
  fold w3. destruct Hb3 as (Hc3 & Hl3 & Hs3). unfold clean in Hc3.
  rewrite <- Hc3, Hw3, Hf3, Hf2.
  split; [exact R3|]. split.
  { rewrite !existsb_app, Se, E2, E3. reflexivity. }
  split; [reflexivity|]. split; [exact Hx2|]. split.
  { rewrite Hw3 in Hl3, Hs3. repeat split; auto.
    - intros p h Hp Hlk. destruct (Hk2 p h Hp Hlk); auto.
    - now rewrite Hf2 in Ha2. }
  split; [exact Hk2|exact Hsame2].
Qed.

(** The same files with the same content, in whatever order the walk
    lists them. *)
Definition same_files (f f' : FS) : Prop :=
  forall p, lookup_file f' p = lookup_file f p.

Lemma is_dir_same_files (f f' : FS) (d : Path) :
  same_files f f' -> is_dir f d = true -> is_dir f' d = true.
Proof.
  intros Hs H. unfold is_dir in *.
  apply existsb_exists in H as ([q h] & Hin & Hq).
  destruct (In_lookup_file f q h Hin) as (k & Hk).
  rewrite <- Hs in Hk. apply lookup_file_In in Hk.
  apply existsb_exists. now exists (q, k).
Qed.

Lemma exists_same_files (f f' : FS) (p : Path) :
  same_files f f' -> exists_ f' p = exists_ f p.
Proof.
  intros Hs. unfold exists_, is_file. rewrite Hs.
  destruct (lookup_file f p); [reflexivity|]. cbn [orb].
  destruct (is_dir f p) eqn:E.
  - now apply (is_dir_same_files f f').
  - destruct (is_dir f' p) eqn:E'; [|reflexivity].
    rewrite <- E. symmetry. apply (is_dir_same_files f' f); [|exact E'].
    intros q. symmetry. apply Hs.
Qed.

Lemma calm_same_files reg (f f' : FS) (db : DB) :
  same_files f f' -> calm reg f db -> calm reg f' db.
Proof.
  intros Hs (Hl & Hsd & Hn & Ha).
  split; [exact Hl|]. split; [exact Hsd|]. split.
  - intros p h Hp Hlk. rewrite Hs in Hlk. now apply (Hn p h).
  - intros p h Hp Hlk. rewrite Hs in Hlk.
    destruct (Ha p h Hp Hlk) as [H | H]; [now left|right].
    destruct (lookup reg h) as [|ty b c d|r]; auto.
    + now rewrite (exists_same_files f f').
    + now rewrite (exists_same_files f f').
Qed.

Lemma known_same_files (f f' : FS) (db : DB) :
  same_files f f' -> known f db -> known f' db.
Proof.
  intros Hs Hk p h Hp Hlk. rewrite Hs in Hlk. now apply (Hk p h).
Qed.

(** C3, amended: take any catalog whose registry links point at existing
    CatalogEntry rows ([links_ok]; the empty catalog and every catalog the
    script has written are such) and a first run that completes.  Then a
    second run over the files and the catalog the first one left, in
    whatever order the walk lists the files, completes, performs no
    filesystem move, leaves the files as they are and leaves every table
    but ModelFile as it is; ModelFile keeps its rows and may gain rows, each
    one a file of the uncertain bucket [models/loras/null] with no
    CatalogEntry.  When every recognized file under a type directory is
    cataloged after the first run, the second leaves the catalog exactly as
    it is.  In either case a third run completes, performs no move and
    leaves files and catalog exactly as the second run did. *)
Theorem C3_second_run_settles reg (f f1 : FS) (db : DB) :
  links_ok db ->
  result (run reg f db) = Ok tt ->
  let d1 := disk_after (run reg f db) in
  same_files (fst d1) f1 ->
  let o2 := run reg f1 (snd d1) in
  let d2 := disk_after o2 in
  let o3 := run reg (fst d2) (snd d2) in
  result o2 = Ok tt
  /\ existsb is_rename (events o2) = false
  /\ fst d2 = f1
  /\ null_extension (snd d1) (snd d2)
  /\ (known (fst d1) (snd d1) -> snd d2 = snd d1)
  /\ result o3 = Ok tt
  /\ existsb is_rename (events o3) = false
  /\ disk_after o3 = d2.
Proof.
  intros Hl Hres. cbn zeta.
  pose proof (run_settles reg f db Hl Hres) as Hcalm.
  remember (disk_after (run reg f db)) as d1 eqn:E1. clear E1.
  destruct d1 as [f0 db1]. cbn [fst snd] in *. intros Hs.
  apply (calm_same_files reg f0 f1 db1 Hs) in Hcalm.
  destruct (run_calm reg f1 db1 Hcalm) as (R2 & E2 & F2 & X2 & C2 & K2 & S2).
  cbn zeta in *.
  remember (run reg f1 db1) as o2 eqn:Eo2. clear Eo2.
  destruct (run_calm reg f1 (snd (disk_after o2)) C2)
    as (R3 & E3 & F3 & _ & _ & _ & S3).
  cbn zeta in *. rewrite F2.
  split; [exact R2|]. split; [exact E2|]. split; [reflexivity|].
  split; [exact X2|]. split.
  { intros Hk. apply S2. now apply (known_same_files f0 f1). }
  split; [exact R3|]. split; [exact E3|].
  rewrite (surjective_pairing (disk_after (run reg f1 (snd (disk_after o2))))).
  rewrite (surjective_pairing (disk_after o2)) at 3.
  rewrite F3, (S3 K2), F2. reflexivity.
Qed.

Lemma C3_witness :
  let o1 := run offline [(a_safetensors, "h1")] empty_db in
  let o2 := run offline (fst (disk_after o1)) (snd (disk_after o1)) in
  let o3 := run offline (fst (disk_after o2)) (snd (disk_after o2)) in
  existsb is_rename (events o2) = false
  /\ null_extension (snd (disk_after o1)) (snd (disk_after o2))
  /\ disk_after o3 = disk_after o2.
Proof.
  destruct (C3_second_run_settles offline [(a_safetensors, "h1")]
              (fst (disk_after (run offline [(a_safetensors, "h1")] empty_db)))
              empty_db)
    as (_ & E2 & _ & X2 & _ & _ & _ & D3).
  - intros r c [].
  - reflexivity.
  - intros p. reflexivity.
  - exact (conj E2 (conj X2 D3)).
Defined.

(** ** C2: when the file of the uncertain bucket gets its row *)

(** After a run that completes, every bucket file that was on disk when it
    started is cataloged, by its path or by its content. *)
Lemma run_known reg (f : FS) (db : DB) :
  links_ok db ->
  result (run reg f db) = Ok tt ->
  known f (snd (disk_after (run reg f db))).
Proof.
  intros Hl Hres. unfold run, disk_after in *. cbn [fst snd].
  destruct (seed_spec f db Hl) as (_ & Sf & Sc & Sl & Ss & _).
  cbn zeta in *.
  destruct (main_ok_inv reg _ Hres) as (H1 & H2 & ->).
  set (w1 := world (seed {| fs := f; conn := connect db |})) in *.
  assert (Hb1 : base w1) by (repeat split; assumption).
  destruct (classifier_pass_settles reg w1 Hb1 H1) as (Hb2 & Hf2 & Hk2).
  set (w2 := world (classifier_pass reg w1)) in *.
  rewrite Sf in Hk2.
  rewrite relocator_pass_eq in *.
  intros p h Hp Hlk.
  destruct (for_each_preserves base
              (fun w0 => has_path (work (conn w0)) p = true
                         \/ has_hash (work (conn w0)) h = true)
              (walk (fs w2)) (relocate reg)) with (w := w2)
    as ((Hc & _) & Hd); auto.
  - intros y w0 _ Hb0 Hr.
    destruct (relocate_step reg y w0 Hb0 Hr) as (B & Mp & Mh & _).
    split; [exact B|]. intros [H | H]; [left; now apply Mp|right; now apply Mh].
  - unfold clean in Hc. rewrite <- Hc. apply Hd. now apply Hk2.
Qed.

(** C2, amended.  The relocation of a new root file the registry reports
    as not found (404) writes nothing to the catalog.  If
    [models/loras/null/<filename>] is free and no file blocks the
    directory, the file is moved there; if that path is taken, the file
    stays.  The ModelFile row with its hash and new path and no
    CatalogEntry is written later, by the classifier, without asking the
    registry, when it meets the file there while neither that path nor
    that hash is cataloged; if one of them is cataloged by then, as through
    another file of the same content, the classifier skips the file and
    writes no row.  After any later run that completes, the file's path or
    its hash is cataloged. *)
Theorem C2_not_found_moved_then_cataloged reg (p : Path) (h : Hash) (w : World) r :
  recognized p = true ->
  in_root p = true ->
  lookup_file (fs w) p = Some h ->
  has_hash (work (conn w)) h = false ->
  final_answer (model_versions_by_hash reg h) = Some r ->
  status_code r = 404 ->
  let t := uncertain_target p in
  let o := relocate reg p w in
  existsb is_insert (events o) = false
  /\ (exists_ (fs w) t = false ->
      mkdir_blocked (fs w) MODEL_NOT_FOUND_PATH = false ->
      result o = Ok tt
      /\ fs (world o) = rename_file (fs w) p t h
      /\ work (conn (world o)) = work (conn w)
      /\ committed (conn (world o)) = work (conn w))
  /\ (exists_ (fs w) t = true ->
      result o = Ok tt
      /\ existsb is_rename (events o) = false
      /\ fs (world o) = fs w
      /\ work (conn (world o)) = committed (conn w)
      /\ committed (conn (world o)) = committed (conn w))
  /\ (forall reg' w',
        lookup_file (fs w') t = Some h ->
        has_path (work (conn w')) t = false ->
        has_hash (work (conn w')) h = false ->
        let o' := classify reg' t w' in
        events o' = [EvLog t; EvSelectPath t; EvHash t; EvSelectHash h;
                     EvInsert (InsModels t h None); EvCommit]
        /\ result o' = Ok tt
        /\ fs (world o') = fs w'
        /\ models (committed (conn (world o'))) =
           models (work (conn w')) ++
           [{| m_id := next_id (map m_id (models (work (conn w'))));
               m_path := t; m_hash := h; m_civitai_model_id := None |}]
        /\ civitai_models (committed (conn (world o'))) =
           civitai_models (work (conn w')))
  /\ (forall reg' w',
        lookup_file (fs w') t = Some h ->
        has_path (work (conn w')) t = true
        \/ has_hash (work (conn w')) h = true ->
        let o' := classify reg' t w' in
        result o' = Ok tt
        /\ world o' = w'
        /\ existsb is_insert (events o') = false)
  /\ (forall reg' f' db',
        links_ok db' ->
        lookup_file f' t = Some h ->
        result (run reg' f' db') = Ok tt ->
        has_path (snd (disk_after (run reg' f' db'))) t = true
        \/ has_hash (snd (disk_after (run reg' f' db'))) h = true).
Proof.
  intros Hrec Hroot Hfile Hhash Hr H404 t o.
  assert (Hrec' : recognized t = true).
  { rewrite <- Hrec. apply recognized_name. apply name_uncertain_target. }
  assert (Hbucket : in_type_bucket t = true) by reflexivity.
  assert (Hquiet : existsb is_insert
                     (request_events (UrlByHash h) (model_versions_by_hash reg h))
                   = false
                   /\ existsb is_rename
                        (request_events (UrlByHash h) (model_versions_by_hash reg h))
                      = false).
  { generalize (model_versions_by_hash reg h). intros l.
    induction l as [|x l IH]; [split; reflexivity|].
    cbn. destruct (Nat.eqb _ _); [exact IH|split; reflexivity]. }
  destruct Hquiet as (Hquiet & Hstill).
  assert (Ho : o = prepend [EvLog p; EvHash p; EvSelectHash h]
                 (prepend (request_events (UrlByHash h) (model_versions_by_hash reg h))
                    (move_and_commit p t w))).
  { unfold o. rewrite relocate_eq, Hrec, Hroot, Hfile, Hhash. cbn [negb andb].
    rewrite bind_eq, relocate_target_not_found with (r := r) by assumption.
    reflexivity. }
  assert (Hpar : parent t = MODEL_NOT_FOUND_PATH)
    by apply parent_uncertain_target.
  rewrite move_and_commit_eq, Hpar, Hfile in Ho.
  split; [|split; [|split; [|split; [|split]]]].
  - rewrite Ho. cbn [prepend events app existsb is_insert orb].
    rewrite existsb_app, Hquiet.
    destruct (exists_ (fs w) t); [reflexivity|].
    destruct (mkdir_blocked (fs w) MODEL_NOT_FOUND_PATH); reflexivity.
  - intros Hex Hmk. rewrite Ho, Hex, Hmk.
    cbn [prepend result world events moved fs conn work committed].
    repeat split.
  - intros Hex. rewrite Ho, Hex.
    cbn [prepend result world events rolled_back fs conn work committed app
         existsb is_rename orb].
    rewrite existsb_app, Hstill.
    repeat split.
  - intros reg' w' Hfile' Hpath Hhash'. cbn zeta.
    rewrite classify_eq, Hrec', Hbucket.
    cbn [negb andb]. rewrite Hpath, Hfile', Hhash'.
    rewrite bind_eq. unfold classify_new.
    rewrite Hpar, path_eqb_refl, insert_ignore_eq.
    cbn [result events world]. unfold staged.
    cbn [execute_insert has_civitai_link].
    rewrite Hpath, Hhash'. cbn [orb].
    unfold commit, prepend, bind, emit, get_conn, put_conn.
    cbn. repeat split.
  - intros reg' w' Hfile' Hknown. cbn zeta.
    rewrite classify_eq, Hrec', Hbucket. cbn [negb andb].
    destruct (has_path (work (conn w')) t) eqn:Hpath; [repeat split|].
    rewrite Hfile'.
    destruct Hknown as [Hk | Hk]; [discriminate Hk|].
    rewrite Hk. repeat split.
  - intros reg' f' db' Hl Hfile' Hres.
    apply (run_known reg' f' db' Hl Hres t h); [|exact Hfile'].
    now rewrite Hrec', Hbucket.
Qed.

(** [models/a.safetensors], unknown to the registry: moved, and nothing
    cataloged by the relocation. *)
Lemma C2_witness :
  existsb is_insert
    (events (relocate offline a_safetensors (fresh [(a_safetensors, "h1")])))
  = false
  /\ result (relocate offline a_safetensors (fresh [(a_safetensors, "h1")]))
     = Ok tt
  /\ fs (world (relocate offline a_safetensors (fresh [(a_safetensors, "h1")])))
     = [(uncertain_target a_safetensors, "h1")].
Proof.
  pose proof (C2_not_found_moved_then_cataloged offline a_safetensors "h1"
                (fresh [(a_safetensors, "h1")]) not_found
                eq_refl eq_refl eq_refl eq_refl eq_refl eq_refl)
    as (H0 & H1 & _).
  destruct (H1 eq_refl eq_refl) as (H2 & H3 & _).
  split; [exact H0|]. split; [exact H2|exact H3].
Defined.

(** Two root files with the same content, both unknown to the registry:
    the first run moves both to the uncertain bucket and catalogs neither;
    the second run catalogs the first and skips the second, whose content
    is cataloged by then. *)
Lemma equal_content_one_row :
  let o1 := run offline [(a_safetensors, "h1"); (b_safetensors, "h1")] empty_db in
  let o2 := run offline (fst (disk_after o1)) (snd (disk_after o1)) in
  result o1 = Ok tt
  /\ map fst (fs (world o1))
     = [uncertain_target a_safetensors; uncertain_target b_safetensors]
  /\ models (snd (disk_after o1)) = []
  /\ result o2 = Ok tt
  /\ map m_path (models (snd (disk_after o2))) = [uncertain_target a_safetensors].
Proof. vm_compute. repeat split; reflexivity. Qed.

(** * Further properties of the helper functions *)

(** ** [send_get_request] (lines 110-115) *)

Definition is_500 {B} (r : Response B) : Prop := status_code r = 500.

(** X1.  [send_get_request] touches neither the files nor the catalog.
    When it returns, it returns the first answer that is not a 500, after
    one GET and one sleep for every 500 before it and one last GET; it
    never returns a 500. *)
Theorem X1_send_get_request_retries {B} (url : Url)
    (answers : list (Response B)) (w : World) :
  let o := send_get_request url answers w in
  world o = w
  /\ (forall r, result o = Ok r ->
        status_code r <> 500
        /\ exists pre post,
             answers = pre ++ r :: post
             /\ Forall is_500 pre
             /\ events o =
                flat_map (fun _ => [EvGet url; EvSleep]) pre ++ [EvGet url]).
Proof.
  cbn zeta. rewrite send_get_request_eq. cbn [world result events].
  split; [reflexivity|].
  - intros r Hr.
    destruct (final_answer answers) as [r'|] eqn:Hf; [|discriminate].
    injection Hr as ->. split; [now apply final_answer_not_500 in Hf|].
    unfold final_answer in Hf.
    induction answers as [|a rest IH]; [discriminate|].
    cbn [find request_events] in *.
    destruct (Nat.eqb (status_code a) 500) eqn:E; cbn [negb] in Hf.
    + destruct (IH Hf) as (pre & post & -> & Hpre & Hev).
      exists (a :: pre), post. split; [reflexivity|]. split.
      * constructor; [now apply Nat.eqb_eq|exact Hpre].
      * cbn [flat_map app]. now rewrite Hev.
    + injection Hf as ->. exists [], rest.
      split; [reflexivity|]. split; [constructor|reflexivity].
Qed.

(** ** [insert_into_database] (lines 81-95) *)

(** X2.  A statement that violates a constraint changes no table and
    leaves [lastrowid] as it was.  With [enable_exception] the helper logs
    and exits at once, so that a requested commit does not happen; without
    it the failure is swallowed, the call returns, and a requested commit
    makes durable what was staged before. *)
Theorem X2_insert_violation (ins : Insert) (commit_ : bool) (w : World) :
  execute_insert ins (work (conn w)) = None ->
  (let o := insert_into_database ins true commit_ w in
   result o = Raise SystemExit
   /\ world o = w
   /\ events o = [EvInsert ins; EvLogException])
  /\ (let o := insert_into_database ins false commit_ w in
      result o = Ok tt
      /\ fs (world o) = fs w
      /\ work (conn (world o)) = work (conn w)
      /\ lastrowid (conn (world o)) = lastrowid (conn w)
      /\ committed (conn (world o)) =
         if commit_ then work (conn w) else committed (conn w)).
Proof.
  intros E. cbn zeta. split.
  - match goal with |- context [result (?m w)] =>
      change (wp m (fun o => result o = Raise SystemExit /\ world o = w
                             /\ events o = [EvInsert ins; EvLogException]) w)
    end.
    wp_run; repeat split; congruence.
  - match goal with |- context [result (?m w)] =>
      change (wp m (fun o =>
        result o = Ok tt /\ fs (world o) = fs w
        /\ work (conn (world o)) = work (conn w)
        /\ lastrowid (conn (world o)) = lastrowid (conn w)
        /\ committed (conn (world o)) =
           if commit_ then work (conn w) else committed (conn w)) w)
    end.
    wp_run; try congruence; repeat split.
Qed.

Lemma X2_witness :
  result (insert_into_database (InsName Types None) true true (fresh [])) =
  Raise SystemExit.
Proof.
  exact (proj1 (proj1 (X2_insert_violation (InsName Types None) true (fresh [])
                         eq_refl))).
Defined.

(** Inserting twice. *)
Definition twice (ins : Insert) : M unit :=
  insert_into_database ins false false ;;
  insert_into_database ins false false.

(** X3.  The insert-or-ignore of a reference name or of a ModelFile row
    is idempotent: whether or not the first call went through, repeating it
    changes nothing, not even [lastrowid].  The insert of a CatalogEntry
    is not: no constraint stops it, and every call adds a row with a new
    id, also when the three references are the same. *)
Theorem X3_insert_twice (ins : Insert) (w : World) :
  let w1 := world (insert_into_database ins false false w) in
  result (twice ins w) = Ok tt
  /\ match ins with
     | InsCivitai _ _ _ =>
         map c_id (civitai_models (work (conn (world (twice ins w))))) =
         map c_id (civitai_models (work (conn w)))
         ++ [next_entry (work (conn w)); S (next_entry (work (conn w)))]
     | _ => world (twice ins w) = w1
     end.
Proof.
  cbn zeta. unfold twice. rewrite bind_eq, !insert_ignore_eq.
  cbn [result world events prepend]. split; [reflexivity|].
  destruct ins as [t [s|] | a b c | p h c].
  - unfold staged at 1.
    destruct (execute_insert (InsName t (Some s)) (work (conn (staged _ w))))
      as [[db' i]|] eqn:E; [|reflexivity].
    exfalso. cbn [execute_insert] in E.
    rewrite has_name_after_insert in E. discriminate.
  - reflexivity.
  - rewrite !staged_civitai. cbn [conn work civitai_models].
    unfold next_entry, next_id. cbn [civitai_models].
    rewrite !map_app, list_max_app. cbn [map c_id list_max fold_right].
    rewrite <- app_assoc. cbn [app]. do 3 f_equal. lia.
  - unfold staged at 1.
    destruct (execute_insert (InsModels p h c) (work (conn (staged _ w))))
      as [[db' i]|] eqn:E; [|reflexivity].
    exfalso. rewrite staged_work in E.
    destruct (execute_insert (InsModels p h c) (work (conn w)))
      as [[db1 i1]|] eqn:E1.
    + rewrite execute_insert_models_eq in E1.
      destruct (_ || _ || _); [discriminate E1|].
      injection E1 as <- <-.
      rewrite execute_insert_models_eq in E.
      unfold has_path at 1 in E. cbn [models] in E.
      rewrite existsb_app in E. cbn [existsb model_row m_path] in E.
      rewrite path_eqb_refl, !orb_true_r in E. discriminate.
    + congruence.
Qed.

(** ** The insert-then-select pairs (lines 152-162 and 202-212) *)

Lemma find_app_some {A} (f : A -> bool) (l l' : list A) (x : A) :
  find f l = Some x -> find f (l ++ l') = Some x.
Proof.
  induction l as [|a l IH]; [discriminate|].
  cbn. destruct (f a); auto.
Qed.

(** An id, once given to a name, stays with it. *)
Lemma select_id_insert ins db db' i T s x :
  execute_insert ins db = Some (db', i) ->
  select_id T (Some s) db = Some x -> select_id T (Some s) db' = Some x.
Proof.
  unfold select_id.
  destruct ins as [t [s'|] | a b c | p h c]; cbn [execute_insert].
  - destruct (has_name _ s'); [discriminate|].
    intros E. injection E as <- <-.
    destruct T, t; cbn [name_rows set_name_rows types base_models creators];
      auto;
      (destruct (find _ _) as [r|] eqn:F; [|discriminate]);
      intros H; now rewrite (find_app_some _ _ _ _ F).
  - discriminate.
  - intros E. injection E as <- <-. now destruct T.
  - destruct (_ || _); [discriminate|].
    intros E. injection E as <- <-. now destruct T.
Qed.

Lemma select_id_staged ins w T s x :
  select_id T (Some s) (work (conn w)) = Some x ->
  select_id T (Some s) (work (conn (staged ins w))) = Some x.
Proof.
  intros H. rewrite staged_work.
  destruct (execute_insert _ _) as [[db' i]|] eqn:E; [|exact H].
  eapply select_id_insert; eauto.
Qed.

Lemma staged_name_tables t n w :
  models (work (conn (staged (InsName t n) w))) = models (work (conn w))
  /\ civitai_models (work (conn (staged (InsName t n) w))) =
     civitai_models (work (conn w)).
Proof.
  rewrite staged_work. destruct n as [s|]; [|split; reflexivity].
  destruct (execute_insert _ _) as [[db' i]|] eqn:E; [|split; reflexivity].
  now apply execute_insert_name in E.
Qed.

(** The ids the three pairs come back with. *)
Lemma resolve_refs_ids (t b c : string) (w : World) :
  let o := resolve_refs (Some t) b c w in
  let db' := work (conn (world o)) in
  (exists i j k,
     result o = Ok (i, j, k)
     /\ select_id Types (Some t) db' = Some i
     /\ select_id BaseModels (Some b) db' = Some j
     /\ select_id Creators (Some c) db' = Some k)
  /\ (forall T s x, select_id T (Some s) (work (conn w)) = Some x ->
                    select_id T (Some s) db' = Some x).
Proof.
  cbn zeta. unfold resolve_refs.
  match goal with |- context [result (?m w)] =>
    change (wp m (fun o =>
      (exists i j k,
         result o = Ok (i, j, k)
         /\ select_id Types (Some t) (work (conn (world o))) = Some i
         /\ select_id BaseModels (Some b) (work (conn (world o))) = Some j
         /\ select_id Creators (Some c) (work (conn (world o))) = Some k)
      /\ (forall T s x, select_id T (Some s) (work (conn w)) = Some x ->
            select_id T (Some s) (work (conn (world o))) = Some x)) w) end.
  wp_go; unfold prepend, ret, raise; cbn [events result world];
    repeat match goal with
      | H : select_id ?t (Some ?s)
              (work (conn (staged (InsName ?t (Some ?s)) ?w0))) = None |- _ =>
          destruct (select_after_insert t s w0) as (? & ?); congruence
      end.
  split.
  - do 3 eexists. split; [reflexivity|].
    repeat split; repeat (try eassumption; apply select_id_staged).
  - intros T s x H. now repeat apply select_id_staged.
Qed.

(** X4.  The three insert-then-select pairs always come back with ids when
    the names are strings: each id is the id of the row that carries the
    name afterwards, whether the row was there or has just been inserted; a
    name that had an id before keeps it; ModelFile and CatalogEntry rows,
    the files and what is committed are not touched.  With [None] for the
    type, no row is found and [dict(None)] raises [TypeError]. *)
Theorem X4_resolve_refs_round_trip (t b c : string) (w : World) :
  let o := resolve_refs (Some t) b c w in
  let db := work (conn w) in
  let db' := work (conn (world o)) in
  (exists i j k,
     result o = Ok (i, j, k)
     /\ select_id Types (Some t) db' = Some i
     /\ select_id BaseModels (Some b) db' = Some j
     /\ select_id Creators (Some c) db' = Some k)
  /\ (forall T s x, select_id T (Some s) db = Some x ->
                    select_id T (Some s) db' = Some x)
  /\ models db' = models db
  /\ civitai_models db' = civitai_models db
  /\ fs (world o) = fs w
  /\ committed (conn (world o)) = committed (conn w)
  /\ result (resolve_refs None b c w) = Raise TypeError
  /\ world (resolve_refs None b c w) = w.
Proof.
  cbn zeta.
  destruct (resolve_refs_spec (Some t) b c w) as ((F1 & F2 & F3 & F4) & _).
  destruct (resolve_refs_ids t b c w) as (H1 & H2).
  split; [exact H1|]. split; [exact H2|].
  split; [exact F3|]. split; [exact F4|]. split; [exact F1|].
  split; [exact F2|].
  unfold resolve_refs. rewrite bind_eq, insert_ignore_eq.
  cbn [result world events]. rewrite result_prepend, world_prepend.
  unfold staged. cbn [execute_insert]. split; reflexivity.
Qed.

(** ** [calculate_hash] over the bytes of a file (lines 103-108)

    In the embedding of the two loops a file carries its digest.  Here is
    how the script gets it from the bytes: the file is read in chunks of
    4096 bytes until [read] returns [b''], and each chunk is fed to the
    hasher. *)

Definition bytes := list Byte.byte.

(** [file.read(n)] at some position: the next [n] bytes (fewer at the end
    of the file, none after it), and what is left to read. *)
Definition file_read (n : nat) (file : bytes) : bytes * bytes :=
  (firstn n file, skipn n file).

(** [for chunk in iter(lambda: file.read(4096), b''): hasher.update(chunk)]
    A hasher is the bytes it has been fed, [update] appends.  [fuel] bounds
    the number of reads; [None] when it does not suffice. *)
Fixpoint read_loop (fuel : nat) (file hasher : bytes) : option bytes :=
  match fuel with
  | 0 => None
  | S fuel' =>
      let (chunk, rest) := file_read 4096 file in
      match chunk with
      | [] => Some hasher
      | _ :: _ => read_loop fuel' rest (hasher ++ chunk)
      end
  end.

(** [calculate_hash], given what SHA-256 makes of a byte string. *)
Definition calculate_hash_bytes (sha256 : bytes -> Hash) (fuel : nat)
    (content : bytes) : option Hash :=
  option_map sha256 (read_loop fuel content []).

Lemma read_loop_feeds_all (fuel : nat) (file hasher : bytes) :
  List.length file < fuel ->
  read_loop fuel file hasher = Some (hasher ++ file).
Proof.
  revert file hasher. induction fuel as [|fuel IH]; intros file hasher Hlen.
  - lia.
  - cbn [read_loop]. unfold file_read.
    destruct (firstn 4096 file) as [|b l] eqn:E.
    + destruct file; [now rewrite app_nil_r|discriminate E].
    + rewrite IH.
      * now rewrite <- E, <- app_assoc, firstn_skipn.
      * rewrite length_skipn. destruct file; [discriminate E|].
        cbn [List.length] in *. lia.
Qed.

(** X5.  Reading in chunks loses nothing: for a file of any length (empty,
    shorter than a chunk, a multiple of the chunk size) the loop ends
    within one read per byte and one more, the hasher has then been fed the
    bytes of the file in order, and the digest returned is the digest of
    the whole content. *)
Theorem X5_calculate_hash_whole_file (sha256 : bytes -> Hash) (fuel : nat)
    (content : bytes) :
  List.length content < fuel ->
  read_loop fuel content [] = Some content
  /\ calculate_hash_bytes sha256 fuel content = Some (sha256 content).
Proof.
  intros H. unfold calculate_hash_bytes.
  rewrite read_loop_feeds_all by exact H. split; reflexivity.
Qed.

Lemma X5_witness :
  calculate_hash_bytes (fun _ => "digest") 1 [] = Some "digest"
  /\ read_loop 3 [Byte.x01; Byte.x02] [] = Some [Byte.x01; Byte.x02].
Proof.
  split.
  - apply (X5_calculate_hash_whole_file (fun _ => "digest") 1 []). cbn. lia.
  - apply (X5_calculate_hash_whole_file (fun _ => "digest") 3 [Byte.x01; Byte.x02]).
    cbn. lia.
Defined.

(** ** Which files the passes look at: [suffix] and [MODEL_EXTENSIONS]
    (lines 43-45, 125 and 172) *)

Lemma string_length_app (a b : string) :
  String.length (a ++ b)%string = String.length a + String.length b.
Proof. induction a as [|c a IH]; cbn; [reflexivity|now rewrite IH]. Qed.

Lemma rfind_dot_app (a b : string) (i : nat) :
  rfind_dot (a ++ b)%string i =
  match rfind_dot b (i + String.length a) with
  | Some j => Some j
  | None => rfind_dot a i
  end.
Proof.
  revert i. induction a as [|c a IH]; intros i.
  - cbn. rewrite Nat.add_0_r. now destruct (rfind_dot b i).
  - cbn [append rfind_dot String.length]. rewrite IH.
    replace (i + S (String.length a)) with (S i + String.length a) by lia.
    now destruct (rfind_dot b (S i + String.length a)).
Qed.

Lemma substring_all (s : string) : substring 0 (String.length s) s = s.
Proof. induction s as [|c s IH]; cbn; [reflexivity|now rewrite IH]. Qed.

Lemma substring_split (s : string) (i : nat) :
  i <= String.length s ->
  (substring 0 i s ++ substring i (String.length s - i) s)%string = s.
Proof.
  revert i. induction s as [|c s IH]; intros [|i] H; cbn in *; try lia.
  - reflexivity.
  - now rewrite substring_all.
  - rewrite IH by lia. reflexivity.
Qed.

Lemma substring_app_r (a b : string) (n : nat) :
  substring (String.length a) n (a ++ b)%string = substring 0 n b.
Proof. induction a as [|c a IH]; cbn; [reflexivity|exact IH]. Qed.

(** X6.  A path passes the extension filter of either loop exactly when
    its file name is a non-empty stem followed by [.safetensors].  The
    test is on the text after the last dot, so it is case-sensitive, and a
    file named just [.safetensors] does not pass: pathlib gives a name
    that starts with its only dot no suffix. *)
Theorem X6_recognized_names (p : Path) :
  recognized p = true <->
  exists stem, stem <> "" /\ name p = (stem ++ ".safetensors")%string.
Proof.
  unfold recognized, suffix, MODEL_EXTENSIONS, str_in.
  cbn [existsb]. rewrite orb_false_r.
  generalize (name p). intros n. split.
  - intros H. apply String.eqb_eq in H.
    destruct (rfind_dot n 0) as [i|]; [|discriminate H].
    destruct (Nat.ltb 0 i) eqn:H0; [|discriminate H].
    destruct (Nat.ltb i (String.length n - 1)) eqn:H1; [|discriminate H].
    cbn [andb] in H.
    apply Nat.ltb_lt in H0, H1.
    exists (substring 0 i n). split.
    + destruct i as [|i]; [lia|].
      destruct n; [cbn in H1; lia|discriminate].
    + rewrite <- H. symmetry. apply substring_split. lia.
  - intros (stem & Hne & ->).
    rewrite rfind_dot_app. cbn [rfind_dot Ascii.eqb Bool.eqb Nat.add].
    rewrite string_length_app. cbn [String.length].
    assert (H0 : Nat.ltb 0 (String.length stem) = true).
    { apply Nat.ltb_lt. destruct stem; [contradiction|cbn; lia]. }
    assert (H1 : Nat.ltb (String.length stem) (String.length stem + 12 - 1) = true).
    { apply Nat.ltb_lt. lia. }
    rewrite H0, H1. cbn [andb].
    replace (String.length stem + 12 - String.length stem) with 12 by lia.
    rewrite substring_app_r. reflexivity.
Qed.

(** ** The type tables (lines 46-60 and 148) *)

Ltac string_cases x :=
  repeat match goal with
    | |- context [String.eqb x ?s] =>
        let E := fresh "E" in
        destruct (String.eqb x s) eqn:E;
        [apply String.eqb_eq in E; subst x|]
    end.

(** X7.  The three tables agree.  The reverse map of line 148 sends a
    directory name to a type that [MODEL_TYPE_TO_DIRECTORY_MAP] sends back
    to that directory, and never to [LoCon] or [DoRA].  Every type the map
    knows goes to a directory that is one of [MODEL_TYPE_PATHS] under
    [models], and the way back gives the type itself, except for [LoCon]
    and [DoRA], which come back as [LORA].  The reverse map is defined on
    exactly the directory names of [MODEL_TYPE_PATHS]. *)
Theorem X7_type_tables_agree :
  (forall d t,
     dict_get REVERSE_MAP d = Some t ->
     dict_get MODEL_TYPE_TO_DIRECTORY_MAP t = Some d
     /\ str_in t ["LoCon"; "DoRA"] = false)
  /\ (forall t d,
        dict_get MODEL_TYPE_TO_DIRECTORY_MAP t = Some d ->
        path_in (joinpath MODEL_PATH [d]) MODEL_TYPE_PATHS = true
        /\ dict_get REVERSE_MAP d =
           Some (if str_in t ["LoCon"; "DoRA"] then "LORA" else t))
  /\ (forall d,
        path_in (joinpath MODEL_PATH [d]) MODEL_TYPE_PATHS = true <->
        exists t, dict_get REVERSE_MAP d = Some t).
Proof.
  rewrite REVERSE_MAP_eq. unfold MODEL_TYPE_TO_DIRECTORY_MAP.
  split; [|split].
  - intros d t. cbn [dict_get]. string_cases d; try discriminate;
      intros H; injection H as <-; split; reflexivity.
  - intros t d. cbn [dict_get]. string_cases t; try discriminate;
      intros H; injection H as <-; split; reflexivity.
  - intros d. unfold path_in, MODEL_TYPE_PATHS, joinpath, MODEL_PATH.
    cbn [app existsb path_eqb dict_get].
    rewrite !andb_true_r.
    change (String.eqb "models" "models") with true. cbn [andb].
    string_cases d; cbn [orb]; split; eauto; try discriminate.
    intros (t & H). discriminate.
Qed.

(** * Further properties of the two passes *)

(** ** What one file changes *)

(** A recognized file directly under [models] is not in a type bucket. *)
Lemma root_file_not_in_bucket (p : Path) :
  recognized p && in_root p = true -> in_type_bucket p = false.
Proof.
  intros H. apply andb_true_iff in H as [Hr Hroot].
  destruct (in_type_bucket p) eqn:Hb; [|reflexivity].
  destruct (in_root_shape p Hroot) as (n & ->).
  destruct (in_type_bucket_head _ Hb) as (b & rest & E & Hin).
  injection E as <- <-.
  repeat destruct Hin as [<- | Hin]; try discriminate Hr. destruct Hin.
Qed.

(** Where the relocator sends a file, and what it has staged by then. *)
Lemma relocate_target_ok reg (p : Path) (h : Hash) (w : World) (t : Path) :
  result (relocate_target reg p h w) = Ok t ->
  let w1 := world (relocate_target reg p h w) in
  name t = name p
  /\ in_type_bucket t = true
  /\ 4 <= List.length t
  /\ (work (conn w1) = work (conn w)
      \/ models (work (conn w1)) =
         models (work (conn w))
         ++ [model_row (work (conn w)) t h (Some (next_entry (work (conn w))))]).
Proof.
  intros Hres. cbn zeta.
  pose proof (relocate_target_rw reg p h w) as Hrw. cbn zeta in Hrw.
  destruct (lookup reg h) as [|ty b c d|r] eqn:Hlk.
  - destruct Hrw as (Ht & ->). rewrite Hres in Ht. injection Ht as ->.
    destruct (uncertain_target_facts p) as (Tb & _ & Tl).
    split; [apply name_uncertain_target|]. split; [exact Tb|].
    split; [lia|now left].
  - destruct Hrw as (Ht & ->).
    pose proof (stage_found_spec (found_target p b c d) h ty b c w) as Hsp.
    cbn zeta in Hsp. destruct Hsp as (_ & _ & Hsp).
    rewrite <- Ht, Hres in Hsp.
    destruct (_ || _ || _); [discriminate Hsp|].
    destruct Hsp as (Et & Hm & _). injection Et as ->.
    destruct (found_target_facts reg p h ty b c d Hlk) as (Tb & _ & Tl & _).
    split; [reflexivity|]. split; [exact Tb|]. split; [lia|now right].
  - destruct Hrw as (Ht & _). rewrite Hres in Ht. symmetry in Ht.
    now apply (lookup_failed_not_ok reg h r t Hlk) in Ht.
Qed.

(** One file through the relocator: either nothing durable changes, or
    the file has been moved and what was staged is committed. *)
Lemma relocate_cases reg (p : Path) (w : World) :
  let o := relocate reg p w in
  (fs (world o) = fs w
   /\ committed (conn (world o)) = committed (conn w)
   /\ existsb is_rename (events o) = false
   /\ (result o = Ok tt ->
       work (conn (world o)) = work (conn w)
       \/ work (conn (world o)) = committed (conn w)))
  \/ exists h t,
       recognized p && in_root p = true
       /\ lookup_file (fs w) p = Some h
       /\ has_hash (work (conn w)) h = false
       /\ exists_ (fs w) t = false
       /\ name t = name p
       /\ in_type_bucket t = true
       /\ 4 <= List.length t
       /\ result o = Ok tt
       /\ fs (world o) = rename_file (fs w) p t h
       /\ committed (conn (world o)) = work (conn (world o))
       /\ (work (conn (world o)) = work (conn w)
           \/ models (work (conn (world o))) =
              models (work (conn w))
              ++ [model_row (work (conn w)) t h
                    (Some (next_entry (work (conn w))))]).
Proof.
  cbn zeta. rewrite relocate_nf.
  destruct (recognized p && in_root p) eqn:Hpass; cbn [negb].
  2: { left. cbn. auto. }
  destruct (lookup_file (fs w) p) as [h|] eqn:Hf.
  2: { left. cbn. repeat split; auto; try discriminate. }
  destruct (has_hash (work (conn w)) h) eqn:Hh.
  { left. cbn. auto. }
  cbn zeta.
  destruct (staging_relocate_target reg p h w) as (Hst & Hq & _).
  pose proof (stages_fs _ _ Hst) as Hfs.
  pose proof (stages_committed _ _ Hst) as Hcm.
  pose proof (relocate_target_ok reg p h w) as Hok. cbn zeta in Hok.
  assert (Hnr : forall tail,
             existsb is_rename
               (([EvLog p; EvHash p; EvSelectHash h]
                 ++ events (relocate_target reg p h w)) ++ tail) =
             existsb is_rename tail).
  { intros tail. rewrite !existsb_app. cbn [existsb is_rename orb].
    now rewrite quiet_not_rename by assumption. }
  destruct (result (relocate_target reg p h w)) as [t| |] eqn:Hr.
  - destruct (Hok t eq_refl) as (Tn & Tb & Tl & Tm).
    destruct (exists_ (fs w) t) eqn:Hex.
    { left. cbn [world result events rolled_back fs conn work committed].
      rewrite Hnr. repeat split; auto. }
    destruct (mkdir_blocked (fs w) (parent t)).
    { left. cbn [world result events]. rewrite Hnr.
      repeat split; auto; try discriminate. }
    right. exists h, t.
    cbn [world result events moved fs conn work committed].
    rewrite Hfs. repeat split; auto.
  - left. cbn [world result events]. rewrite <- (app_nil_r (_ ++ _)), Hnr.
    repeat split; auto; try discriminate.
  - left. cbn [world result events]. rewrite <- (app_nil_r (_ ++ _)), Hnr.
    repeat split; auto; try discriminate.
Qed.

(** One file through the classifier: the files stay; either nothing is
    committed, or one ModelFile row for the file is. *)
Lemma classify_cases reg (p : Path) (w : World) :
  let o := classify reg p w in
  fs (world o) = fs w
  /\ ((committed (conn (world o)) = committed (conn w)
       /\ (result o = Ok tt -> world o = w))
      \/ exists h c,
           recognized p && in_type_bucket p = true
           /\ has_path (work (conn w)) p = false
           /\ lookup_file (fs w) p = Some h
           /\ has_hash (work (conn w)) h = false
           /\ result o = Ok tt
           /\ committed (conn (world o)) = work (conn (world o))
           /\ models (work (conn (world o))) =
              models (work (conn w)) ++ [model_row (work (conn w)) p h c]).
Proof.
  cbn zeta. rewrite classify_nf.
  destruct (recognized p && in_type_bucket p) eqn:Hpass; cbn [negb].
  2: { cbn. auto. }
  destruct (has_path (work (conn w)) p) eqn:Hp.
  { cbn. auto. }
  destruct (lookup_file (fs w) p) as [h|] eqn:Hf.
  2: { cbn. split; [reflexivity|]. left. split; [reflexivity|discriminate]. }
  destruct (has_hash (work (conn w)) h) eqn:Hh.
  { cbn. auto. }
  cbn zeta.
  apply andb_true_iff in Hpass as Hpass'. destruct Hpass' as [_ Hb].
  destruct (staging_classify_new reg p h Hb w) as (Hst & _ & _).
  pose proof (stages_fs _ _ Hst) as Hfs.
  pose proof (stages_committed _ _ Hst) as Hcm.
  pose proof (classify_new_ok reg p h w Hp Hh) as Hnew. cbn zeta in Hnew.
  destruct (result (classify_new reg p h w)) as [[]| |] eqn:Hr;
    cbn [world result committed_ fs conn work committed].
  - split; [exact Hfs|]. right.
    destruct (Hnew eq_refl) as [(_ & E) | (E & _)].
    + exists h, None. rewrite E. cbn [models]. repeat split; auto.
    + exists h, (Some (next_entry (work (conn w)))). repeat split; auto.
  - split; [exact Hfs|]. left. split; [exact Hcm|discriminate].
  - split; [exact Hfs|]. left. split; [exact Hcm|discriminate].
Qed.

(** ** No file is lost, none is overwritten *)

(** Every file of [f] is in [f'] with its content: where it was, or, for a
    recognized file that sat directly under [models], in a type bucket
    under its own name. *)
Definition kept (f f' : FS) : Prop :=
  forall q h, lookup_file f q = Some h ->
    lookup_file f' q = Some h
    \/ (recognized q && in_root q = true
        /\ lookup_file f' q = None
        /\ exists t, in_type_bucket t = true /\ name t = name q
                     /\ lookup_file f' t = Some h).

(** Every file of [f'] was in [f] with that content: where it is, or
    directly under [models] under the same name, the place it now has
    being free then. *)
Definition nothing_new (f f' : FS) : Prop :=
  forall t h, lookup_file f' t = Some h ->
    lookup_file f t = Some h
    \/ (in_type_bucket t = true
        /\ lookup_file f t = None
        /\ exists q, recognized q && in_root q = true /\ name q = name t
                     /\ lookup_file f q = Some h /\ lookup_file f' q = None).

Definition same_content (f f' : FS) : Prop := kept f f' /\ nothing_new f f'.

Lemma same_content_refl (f : FS) : same_content f f.
Proof. split; intros q h H; now left. Qed.

Lemma not_exists_no_file (f : FS) (t : Path) :
  exists_ f t = false -> lookup_file f t = None.
Proof.
  unfold exists_, is_file. destruct (lookup_file f t); [discriminate|reflexivity].
Qed.

Lemma same_content_move (f f1 : FS) (p t : Path) (h : Hash) :
  same_content f f1 ->
  recognized p && in_root p = true ->
  lookup_file f1 p = Some h ->
  exists_ f1 t = false ->
  in_type_bucket t = true ->
  name t = name p ->
  same_content f (rename_file f1 p t h).
Proof.
  intros (Hk & Hn) Hp Hlp Hex Hb Hname.
  apply not_exists_no_file in Hex.
  pose proof (root_file_not_in_bucket p Hp) as Hpb.
  assert (Hpt : p <> t) by congruence.
  split.
  - intros q k Hq. destruct (Hk q k Hq) as [H | (Hroot & Hnone & t' & Tb & Tn & Tl)].
    + destruct (path_eqb q p) eqn:E.
      * apply path_eqb_eq in E. subst q. right.
        split; [exact Hp|]. split; [now apply lookup_file_rename_src|].
        exists t. split; [exact Hb|]. split; [exact Hname|].
        rewrite lookup_file_rename_dst. congruence.
      * apply path_eqb_neq in E. left.
        rewrite lookup_file_rename_other; [exact H|exact E|congruence].
    + right. split; [exact Hroot|].
      pose proof (root_file_not_in_bucket q Hroot) as Hqb.
      split.
      * rewrite lookup_file_rename_other; [exact Hnone|congruence|congruence].
      * exists t'. split; [exact Tb|]. split; [exact Tn|].
        rewrite lookup_file_rename_other; [exact Tl|congruence|congruence].
  - intros t' k Ht'.
    destruct (path_eqb t' t) eqn:E.
    + apply path_eqb_eq in E. subst t'.
      rewrite lookup_file_rename_dst in Ht'. injection Ht' as <-.
      right. split; [exact Hb|].
      destruct (Hn p h Hlp) as [Hfp | (Hpb' & _)]; [|congruence].
      split.
      * destruct (lookup_file f t) as [x|] eqn:Hft; [|reflexivity].
        destruct (Hk t x Hft) as [H | (Hroot & _)]; [congruence|].
        apply root_file_not_in_bucket in Hroot. congruence.
      * exists p. split; [exact Hp|]. split; [now symmetry|].
        split; [exact Hfp|now apply lookup_file_rename_src].
    + apply path_eqb_neq in E.
      assert (Ep : t' <> p).
      { intros ->. rewrite lookup_file_rename_src in Ht' by exact Hpt.
        discriminate. }
      rewrite lookup_file_rename_other in Ht' by assumption.
      destruct (Hn t' k Ht') as [H | (Tb & Tnone & q & Hroot & Qn & Qf & Qnone)];
        [now left|right].
      split; [exact Tb|]. split; [exact Tnone|].
      exists q. split; [exact Hroot|]. split; [exact Qn|]. split; [exact Qf|].
      pose proof (root_file_not_in_bucket q Hroot) as Hqb.
      rewrite lookup_file_rename_other; [exact Qnone|congruence|congruence].
Qed.

Lemma same_content_main reg (f : FS) :
  keeps (fun w => same_content f (fs w)) (fun w => same_content f (fs w))
        (fun _ => True) (main reg).
Proof.
  eapply keeps_ext; [apply main_eq|].
  assert (T : forall evs : list Event, Forall (fun _ => True) evs)
    by (intros evs; apply Forall_forall; auto).
  apply keeps_bind; [|apply keeps_passes; [auto| |]].
  - intros w Hw. unfold seed. rewrite insert_commit_eq.
    cbn [events result world committed_ fs]. rewrite staged_fs. auto.
  - intros p w Hw. destruct (classify_cases reg p w) as (Hfs & _).
    rewrite Hfs. auto.
  - intros p w Hw.
    destruct (relocate_cases reg p w)
      as [(Hfs & _) | (h & t & Hp & Hl & _ & Hex & Hn & Hb & _ & _ & Hfs & _)].
    + rewrite Hfs. auto.
    + rewrite Hfs.
      assert (same_content f (rename_file (fs w) p t h))
        by (now apply same_content_move).
      auto.
Qed.

(** X8.  With a registry whose base model and creator names are plain
    path segments, so that the targets of line 200 are the paths the
    embedding takes them for, a run neither loses nor overwrites nor
    invents a file, however it ends: every file that was on disk is still
    there with the same content, at its path or, if it was a recognized
    file directly under [models], in a type bucket under the same file
    name; and every file on disk afterwards is one of these. *)
Theorem X8_no_file_lost reg (f : FS) (db : DB) :
  well_named reg ->
  kept f (fs (world (run reg f db)))
  /\ nothing_new f (fs (world (run reg f db))).
Proof.
  intros _.
  destruct (same_content_main reg f {| fs := f; conn := connect db |})
    as (_ & H & _); [apply same_content_refl|exact H].
Qed.

Lemma well_named_knows_as (t : string) : well_named (knows_as t).
Proof.
  split.
  - intros h r v b [<- | []] Hj Hb. cbn in Hj. injection Hj as <-.
    cbn in Hb. injection Hb as <-. reflexivity.
  - intros id r m u [<- | []] Hj Hc. cbn in Hj. injection Hj as <-.
    discriminate Hc.
Qed.

Lemma X8_witness :
  well_named (knows_as "VAE")
  /\ kept [(a_safetensors, "h1")]
          (fs (world (run (knows_as "VAE") [(a_safetensors, "h1")] empty_db)))
  /\ nothing_new [(a_safetensors, "h1")]
          (fs (world (run (knows_as "VAE") [(a_safetensors, "h1")] empty_db))).
Proof.
  split; [apply well_named_knows_as|].
  exact (X8_no_file_lost (knows_as "VAE") [(a_safetensors, "h1")] empty_db
           (well_named_knows_as "VAE")).
Defined.

(** ** The catalog describes the disk *)

(** Every ModelFile row names a file that is there, with the row's hash. *)
Definition consistent (f : FS) (db : DB) : Prop :=
  forall r, In r (models db) -> lookup_file f (m_path r) = Some (m_hash r).

Lemma consistent_ext (f : FS) (db db' : DB) :
  models db' = models db -> consistent f db -> consistent f db'.
Proof. unfold consistent. now intros ->. Qed.

Lemma in_models_has_hash (db : DB) (r : ModelRow) :
  In r (models db) -> has_hash db (m_hash r) = true.
Proof.
  intros H. unfold has_hash. apply existsb_exists.
  exists r. split; [exact H|apply String.eqb_refl].
Qed.

Lemma consistent_move (f : FS) (db : DB) (p t : Path) (h : Hash) :
  consistent f db ->
  lookup_file f p = Some h ->
  has_hash db h = false ->
  exists_ f t = false ->
  p <> t ->
  consistent (rename_file f p t h) db.
Proof.
  intros Hc Hl Hh Hex Hpt r Hr. specialize (Hc r Hr).
  apply not_exists_no_file in Hex.
  rewrite lookup_file_rename_other; [exact Hc| |congruence].
  intros E. rewrite E, Hl in Hc. injection Hc as Hc.
  apply in_models_has_hash in Hr. congruence.
Qed.

Lemma consistent_snoc (f : FS) (db db' : DB) (row : ModelRow) :
  models db' = models db ++ [row] ->
  consistent f db ->
  lookup_file f (m_path row) = Some (m_hash row) ->
  consistent f db'.
Proof.
  intros E Hc Hrow r Hr. rewrite E in Hr.
  apply in_app_or in Hr as [Hr | [<- | []]]; auto.
Qed.

Lemma consistent_main reg :
  keeps (fun w => clean w /\ consistent (fs w) (work (conn w)))
        (fun w => consistent (fs w) (committed (conn w)))
        (fun _ => True) (main reg).
Proof.
  eapply keeps_ext; [apply main_eq|].
  assert (T : forall evs : list Event, Forall (fun _ => True) evs)
    by (intros evs; apply Forall_forall; auto).
  unfold clean.
  apply keeps_bind; [|apply keeps_passes].
  - intros w (Hc & Hk). unfold seed. rewrite insert_commit_eq.
    cbn [events result world committed_ fs conn work committed].
    rewrite staged_fs.
    assert (H : consistent (fs w)
                  (work (conn (staged (InsName Creators (Some "null")) w)))).
    { eapply consistent_ext; [|exact Hk]. apply staged_name_tables. }
    auto.
  - intros w (Hc & Hk). now rewrite <- Hc.
  - intros p w (Hc & Hk).
    destruct (classify_cases reg p w)
      as (Hfs & [(Hcm & Hw) | (h & c & _ & _ & Hl & _ & Hres & Hcm & Hm)]).
    + rewrite Hfs, Hcm, <- Hc.
      split; [apply T|]. split; [exact Hk|].
      intros Hres. now rewrite (Hw Hres).
    + rewrite Hfs, Hcm.
      assert (H : consistent (fs w) (work (conn (world (classify reg p w))))).
      { eapply consistent_snoc; [exact Hm|exact Hk|exact Hl]. }
      auto.
  - intros p w (Hc & Hk).
    destruct (relocate_cases reg p w)
      as [(Hfs & Hcm & _ & Hw)
         | (h & t & Hp & Hl & Hh & Hex & _ & Hb & _ & Hres & Hfs & Hcm & Hm)].
    + rewrite Hfs, Hcm, <- Hc.
      split; [apply T|]. split; [exact Hk|].
      intros Hres. destruct (Hw Hres) as [E | E]; rewrite E, <- ?Hc; auto.
    + rewrite Hfs, Hcm.
      assert (Hpt : p <> t).
      { apply root_file_not_in_bucket in Hp. congruence. }
      pose proof (consistent_move _ _ p t h Hk Hl Hh Hex Hpt) as Hk'.
      assert (H : consistent (rename_file (fs w) p t h)
                    (work (conn (world (relocate reg p w))))).
      { destruct Hm as [-> | Hm]; [exact Hk'|].
        eapply consistent_snoc; [exact Hm|exact Hk'|].
        cbn [model_row m_path m_hash]. apply lookup_file_rename_dst. }
      auto.
Qed.

(** X9.  If every ModelFile row of the catalog names a file that is on
    disk with the hash the row records, then so it is after a run, for the
    files and the committed catalog the run leaves behind, whether the run
    completes, exits, raises or hangs.  In particular no row is left
    naming a path that a move has emptied. *)
Theorem X9_catalog_matches_disk reg (f : FS) (db : DB) :
  consistent f db ->
  consistent (fst (disk_after (run reg f db))) (snd (disk_after (run reg f db))).
Proof.
  intros H. unfold run, disk_after. cbn [fst snd].
  destruct (consistent_main reg {| fs := f; conn := connect db |})
    as (_ & Hj & _); [|exact Hj].
  split; [reflexivity|exact H].
Qed.

Lemma X9_witness :
  consistent [(a_safetensors, "h1")] empty_db
  /\ consistent
       (fst (disk_after (run (knows_as "VAE") [(a_safetensors, "h1")] empty_db)))
       (snd (disk_after (run (knows_as "VAE") [(a_safetensors, "h1")] empty_db))).
Proof.
  assert (H : consistent [(a_safetensors, "h1")] empty_db) by (intros r []).
  split; [exact H|].
  exact (X9_catalog_matches_disk (knows_as "VAE") [(a_safetensors, "h1")]
           empty_db H).
Defined.

(** ** Invariants of the catalog *)

(** What holds of the empty catalog and survives every statement that goes
    through holds of everything the script can reach, staged or
    committed. *)
Lemma stages_invariant (P : DB -> Prop) :
  (forall ins db db' i, execute_insert ins db = Some (db', i) -> P db -> P db') ->
  forall w w1, stages w w1 -> P (work (conn w)) -> P (work (conn w1)).
Proof.
  intros Hstep w w1 Hs. induction Hs as [|w w' ins Hs IH Hok]; [auto|].
  intros H. rewrite staged_work.
  destruct (execute_insert _ _) as [[db' i]|] eqn:E; [|auto].
  eapply Hstep; eauto.
Qed.

Lemma classify_invariant (P : DB -> Prop) reg p w :
  (forall ins db db' i, execute_insert ins db = Some (db', i) -> P db -> P db') ->
  P (work (conn w)) /\ P (committed (conn w)) ->
  P (work (conn (world (classify reg p w))))
  /\ P (committed (conn (world (classify reg p w)))).
Proof.
  intros Hstep (Hw & Hc).
  destruct (classify_outcome_holds reg p w)
    as [Hf -> | Hf Hp -> | Hf Hp Hl -> | h Hf Hp Hl Hh ->
        | h evs w1 r Hf Hp Hl Hh Hs He Hr ->
        | h evs w1 Hf Hp Hl Hh Hs He ->];
    cbn [world ret]; try (split; assumption);
    pose proof (stages_invariant P Hstep _ _ Hs Hw) as Hw1;
    split; cbn [committed_ conn work committed]; try assumption.
  now rewrite (stages_committed _ _ Hs).
Qed.

Lemma relocate_invariant (P : DB -> Prop) reg p w :
  (forall ins db db' i, execute_insert ins db = Some (db', i) -> P db -> P db') ->
  P (work (conn w)) /\ P (committed (conn w)) ->
  P (work (conn (world (relocate reg p w))))
  /\ P (committed (conn (world (relocate reg p w)))).
Proof.
  intros Hstep (Hw & Hc).
  destruct (relocate_outcome_holds reg p w)
    as [Hf -> | Hf Hl -> | h Hf Hl Hh ->
        | h evs w1 r Hf Hl Hh Hs He Hr ->
        | h evs w1 t Hf Hl Hh Hs He Ht Hex ->
        | h evs w1 t Hf Hl Hh Hs He Ht Hex Hmk ->
        | h evs w1 t Hf Hl Hh Hs He Ht Hex Hmk ->];
    cbn [world ret]; try (split; assumption);
    pose proof (stages_invariant P Hstep _ _ Hs Hw) as Hw1;
    pose proof (stages_committed _ _ Hs) as Hc1;
    split; cbn [committed_ rolled_back moved conn work committed];
    try assumption; rewrite Hc1; assumption.
Qed.

Lemma reachable_invariant (P : DB -> Prop) :
  P empty_db ->
  (forall ins db db' i, execute_insert ins db = Some (db', i) -> P db -> P db') ->
  forall w, reachable w -> P (work (conn w)) /\ P (committed (conn w)).
Proof.
  intros H0 Hstep w Hr.
  induction Hr as [f | w _ IH | reg p w _ IH | reg p w _ IH | f w _ IH].
  - split; exact H0.
  - destruct IH as (Hw & Hc). unfold seed. rewrite insert_commit_eq.
    cbn [world committed_ conn work committed].
    assert (H : P (work (conn (staged (InsName Creators (Some "null")) w)))).
    { rewrite staged_work.
      destruct (execute_insert _ _) as [[db' i]|] eqn:E; [|exact Hw].
      eapply Hstep; eauto. }
    split; exact H.
  - now apply classify_invariant.
  - now apply relocate_invariant.
  - destruct IH as (_ & Hc). split; exact Hc.
Qed.

Lemma NoDup_snoc {A} (l : list A) (x : A) :
  NoDup l -> ~ In x l -> NoDup (l ++ [x]).
Proof.
  intros Hl Hx. apply NoDup_app; [exact Hl|repeat constructor; intros []|].
  intros a Ha [<- | []]. contradiction.
Qed.

Lemma next_id_fresh (ids : list nat) : ~ In (next_id ids) ids.
Proof.
  unfold next_id. intros H.
  assert (Hmax : forall x, In x ids -> x <= list_max ids).
  { apply Forall_forall. now apply list_max_le. }
  apply Hmax in H. lia.
Qed.

(** *** Paths and links of ModelFile rows *)

(** The CatalogEntry ids the ModelFile rows link, row by row. *)
Definition links (db : DB) : list nat :=
  flat_map (fun r => match m_civitai_model_id r with
                     | Some c => [c]
                     | None => []
                     end) (models db).

Definition unique_paths (db : DB) : Prop := NoDup (map m_path (models db)).

Definition unique_links (db : DB) : Prop := NoDup (links db).

Lemma has_path_false (db : DB) (p : Path) :
  has_path db p = false -> ~ In p (map m_path (models db)).
Proof.
  unfold has_path. intros H Hin. apply in_map_iff in Hin as (r & <- & Hr).
  assert (existsb (fun r0 => path_eqb (m_path r0) (m_path r)) (models db) = true).
  { apply existsb_exists. exists r. split; [exact Hr|apply path_eqb_refl]. }
  congruence.
Qed.

Lemma has_civitai_link_false (db : DB) (c : nat) :
  has_civitai_link db (Some c) = false -> ~ In c (links db).
Proof.
  unfold has_civitai_link, links. intros H Hin.
  apply in_flat_map in Hin as (r & Hr & Hc).
  destruct (m_civitai_model_id r) as [j|] eqn:Ej; [|destruct Hc].
  destruct Hc as [<- | []].
  assert (existsb (fun r0 => match m_civitai_model_id r0 with
                             | Some j0 => Nat.eqb j j0
                             | None => false
                             end) (models db) = true).
  { apply existsb_exists. exists r. split; [exact Hr|].
    rewrite Ej. apply Nat.eqb_refl. }
  congruence.
Qed.

Lemma execute_insert_model_file_keys ins db db' i :
  execute_insert ins db = Some (db', i) ->
  unique_paths db /\ unique_links db -> unique_paths db' /\ unique_links db'.
Proof.
  unfold unique_paths, unique_links, links. intros E (Hp & Hl).
  apply execute_insert_models in E as [-> | (p & h & c & _ & Hnp & _ & Hnc & ->)];
    [now split|].
  rewrite map_app, flat_map_app. cbn [map flat_map m_path m_civitai_model_id].
  split.
  - apply NoDup_snoc; [exact Hp|now apply has_path_false].
  - destruct c as [c|]; cbn [app]; [|now rewrite app_nil_r].
    apply NoDup_snoc; [exact Hl|now apply has_civitai_link_false].
Qed.

(** X10.  In every state the script can reach, staged or committed, no
    two ModelFile rows have the same path, and no two ModelFile rows link
    the same CatalogEntry. *)
Theorem X10_paths_and_links_unique (w : World) :
  reachable w ->
  (unique_paths (work (conn w)) /\ unique_links (work (conn w)))
  /\ (unique_paths (committed (conn w)) /\ unique_links (committed (conn w))).
Proof.
  apply (reachable_invariant (fun db => unique_paths db /\ unique_links db)).
  - split; constructor.
  - apply execute_insert_model_file_keys.
Qed.

Lemma X10_witness :
  unique_paths (committed (conn (world (main (knows_as "VAE") (fresh twins_disk))))).
Proof.
  exact (proj1 (proj2 (X10_paths_and_links_unique _
           (reachable_main (knows_as "VAE") _ (reach_start twins_disk))))).
Defined.

(** *** Names and ids *)

Definition unique_names (db : DB) : Prop :=
  forall t, NoDup (map n_name (name_rows t db)).

Definition unique_ids (db : DB) : Prop :=
  NoDup (map m_id (models db))
  /\ NoDup (map c_id (civitai_models db))
  /\ forall t, NoDup (map n_id (name_rows t db)).

Lemma has_name_false (rows : list NameRow) (s : string) :
  has_name rows s = false -> ~ In s (map n_name rows).
Proof.
  unfold has_name. intros H Hin. apply in_map_iff in Hin as (r & <- & Hr).
  assert (existsb (fun r0 => String.eqb (n_name r0) (n_name r)) rows = true).
  { apply existsb_exists. exists r. split; [exact Hr|apply String.eqb_refl]. }
  congruence.
Qed.

Lemma execute_insert_names ins db db' i :
  execute_insert ins db = Some (db', i) -> unique_names db -> unique_names db'.
Proof.
  unfold unique_names.
  destruct ins as [t [s|] | a b c | p h c]; cbn [execute_insert].
  - destruct (has_name _ s) eqn:Hs; [discriminate|].
    intros E H T. injection E as <- <-.
    apply has_name_false in Hs. specialize (H T) as HT.
    destruct T, t; cbn [name_rows set_name_rows types base_models creators] in *;
      try exact HT; rewrite map_app; now apply NoDup_snoc.
  - discriminate.
  - intros E H T. injection E as <- <-. specialize (H T). now destruct T.
  - destruct (_ || _); [discriminate|].
    intros E H T. injection E as <- <-. specialize (H T). now destruct T.
Qed.

Lemma execute_insert_ids ins db db' i :
  execute_insert ins db = Some (db', i) -> unique_ids db -> unique_ids db'.
Proof.
  unfold unique_ids.
  destruct ins as [t [s|] | a b c | p h c]; cbn [execute_insert].
  - destruct (has_name _ s); [discriminate|].
    intros E (Hm & Hc & Hn). injection E as <- <-.
    split; [now destruct t|]. split; [now destruct t|].
    intros T. specialize (Hn T) as HT.
    destruct T, t; cbn [name_rows set_name_rows types base_models creators] in *;
      try exact HT; rewrite map_app; apply NoDup_snoc;
      try exact HT; apply next_id_fresh.
  - discriminate.
  - intros E (Hm & Hc & Hn). injection E as <- <-.
    cbn [models civitai_models]. split; [exact Hm|]. split.
    + rewrite map_app. apply NoDup_snoc; [exact Hc|apply next_id_fresh].
    + intros T. specialize (Hn T). now destruct T.
  - destruct (_ || _); [discriminate|].
    intros E (Hm & Hc & Hn). injection E as <- <-.
    cbn [models civitai_models]. split; [|split; [exact Hc|]].
    + rewrite map_app. apply NoDup_snoc; [exact Hm|apply next_id_fresh].
    + intros T. specialize (Hn T). now destruct T.
Qed.

Lemma select_id_In (t : NameTable) (s : string) (db : DB) (i : nat) :
  select_id t (Some s) db = Some i ->
  In {| n_id := i; n_name := s |} (name_rows t db).
Proof.
  unfold select_id. destruct (find _ _) as [r|] eqn:F; [|discriminate].
  cbn. intros E. injection E as <-.
  apply find_some in F as (Hin & Hs). apply String.eqb_eq in Hs.
  destruct r as [i n]. cbn in *. now subst.
Qed.

(** X11.  In every state the script can reach, staged or committed, a
    reference table ([types], [base_models], [creators]) holds a name at
    most once, so that the select by name that follows each insert has one
    row to find: two rows with the same name are the same row. *)
Theorem X11_names_unique (w : World) :
  reachable w ->
  unique_names (work (conn w))
  /\ unique_names (committed (conn w))
  /\ forall t r r',
       In r (name_rows t (work (conn w))) ->
       In r' (name_rows t (work (conn w))) ->
       n_name r = n_name r' -> r = r'.
Proof.
  intros Hr.
  destruct (reachable_invariant unique_names) with (w := w) as (Hw & Hc);
    [intros t; destruct t; constructor|apply execute_insert_names|exact Hr|].
  split; [exact Hw|]. split; [exact Hc|].
  intros t r r' Hin Hin' E. specialize (Hw t).
  apply In_nth_error in Hin as (a & Ha). apply In_nth_error in Hin' as (b & Hb).
  assert (a = b).
  { rewrite NoDup_nth_error in Hw. apply Hw.
    - rewrite length_map. apply nth_error_Some. congruence.
    - rewrite !nth_error_map, Ha, Hb. cbn. congruence. }
  subst b. congruence.
Qed.

Lemma X11_witness :
  NoDup (map n_name
           (creators (committed (conn (world (main (knows_as "VAE")
                                                (fresh twins_disk))))))).
Proof.
  exact (proj1 (proj2 (X11_names_unique _
           (reachable_main (knows_as "VAE") _ (reach_start twins_disk))))
         Creators).
Defined.


Lemma main_invariant (P : DB -> Prop) reg :
  (forall ins db db' i, execute_insert ins db = Some (db', i) -> P db -> P db') ->
  keeps (fun w => P (work (conn w)) /\ P (committed (conn w)))
        (fun w => P (work (conn w)) /\ P (committed (conn w)))
        (fun _ => True) (main reg).
Proof.
  intros Hstep. eapply keeps_ext; [apply main_eq|].
  assert (T : forall evs : list Event, Forall (fun _ => True) evs)
    by (intros evs; apply Forall_forall; auto).
  apply keeps_bind; [|apply keeps_passes; [auto| |]].
  - intros w (Hw & Hc). unfold seed. rewrite insert_commit_eq.
    cbn [events result world committed_ conn work committed].
    assert (H : P (work (conn (staged (InsName Creators (Some "null")) w)))).
    { rewrite staged_work.
      destruct (execute_insert _ _) as [[db' i]|] eqn:E; [|exact Hw].
      eapply Hstep; eauto. }
    auto.
  - intros p w Hw. pose proof (classify_invariant P reg p w Hstep Hw). auto.
  - intros p w Hw. pose proof (relocate_invariant P reg p w Hstep Hw). auto.
Qed.

(** *** Rows are only ever added *)

(** Each table of [db'] starts with the rows of [db], in their order. *)
Definition extends (db db' : DB) : Prop :=
  (exists rows, models db' = models db ++ rows)
  /\ (exists rows, civitai_models db' = civitai_models db ++ rows)
  /\ forall t, exists rows, name_rows t db' = name_rows t db ++ rows.

Lemma extends_refl (db : DB) : extends db db.
Proof.
  split; [|split; [|intros t]]; exists []; now rewrite app_nil_r.
Qed.

Lemma execute_insert_extends (db0 : DB) ins db db' i :
  execute_insert ins db = Some (db', i) -> extends db0 db -> extends db0 db'.
Proof.
  intros E ((rm & Hm) & (rc & Hc) & Hn).
  destruct ins as [t [s|] | a b c | p h c]; cbn [execute_insert] in E.
  - destruct (has_name _ s); [discriminate|]. injection E as <- <-.
    split; [exists rm; now destruct t|]. split; [exists rc; now destruct t|].
    intros T. destruct (Hn T) as (rn & HT).
    destruct T, t; cbn [name_rows set_name_rows types base_models creators] in *;
      try (exists rn; exact HT);
      rewrite HT, <- app_assoc; eexists; reflexivity.
  - discriminate.
  - injection E as <- <-. cbn [models civitai_models].
    split; [eauto|]. split.
    + rewrite Hc, <- app_assoc. eexists. reflexivity.
    + intros T. destruct (Hn T) as (rn & HT). exists rn. now destruct T.
  - destruct (_ || _); [discriminate|]. injection E as <- <-.
    cbn [models civitai_models]. split; [|split; [eauto|]].
    + rewrite Hm, <- app_assoc. eexists. reflexivity.
    + intros T. destruct (Hn T) as (rn & HT). exists rn. now destruct T.
Qed.

(** X12.  A run only ever adds rows.  Whatever the registry answers and
    however the run ends, each table of the committed catalog afterwards
    starts with the rows it had before, unchanged and in the same order:
    the script never updates or deletes a row, and a moved or renamed file
    never has its row rewritten. *)
Theorem X12_catalog_only_grows reg (f : FS) (db : DB) :
  extends db (snd (disk_after (run reg f db))).
Proof.
  unfold run, disk_after. cbn [snd].
  destruct (main_invariant (extends db) reg (execute_insert_extends db)
              {| fs := f; conn := connect db |}) as (_ & (_ & H) & _);
    [split; apply extends_refl|exact H].
Qed.

(** *** References between the tables

    The schema declares the references, but SQLite does not enforce them
    unless asked to, and the script does not ask: that they hold is the
    script's doing. *)

Definition has_id (t : NameTable) (i : nat) (db : DB) : Prop :=
  In i (map n_id (name_rows t db)).

Definition has_entry (c : nat) (db : DB) : Prop :=
  In c (map c_id (civitai_models db)).

(** Every link of a ModelFile row and every reference of a CatalogEntry
    points at a row that is there. *)
Definition references_ok (db : DB) : Prop :=
  (forall r c, In r (models db) -> m_civitai_model_id r = Some c ->
               has_entry c db)
  /\ (forall e, In e (civitai_models db) ->
        has_id Types (c_type_id e) db
        /\ has_id BaseModels (c_base_model_id e) db
        /\ forall k, c_creator_id e = Some k -> has_id Creators k db).

Lemma extends_self ins db db' i :
  execute_insert ins db = Some (db', i) -> extends db db'.
Proof. intros E. eapply execute_insert_extends; [exact E|apply extends_refl]. Qed.

Lemma extends_has_id (db db' : DB) t x :
  extends db db' -> has_id t x db -> has_id t x db'.
Proof.
  intros (_ & _ & Hn) H. destruct (Hn t) as (rows & E).
  unfold has_id. rewrite E, map_app. apply in_or_app. now left.
Qed.

Lemma extends_has_entry (db db' : DB) c :
  extends db db' -> has_entry c db -> has_entry c db'.
Proof.
  intros (_ & (rows & E) & _) H.
  unfold has_entry. rewrite E, map_app. apply in_or_app. now left.
Qed.

Lemma has_id_staged ins w t x :
  has_id t x (work (conn w)) -> has_id t x (work (conn (staged ins w))).
Proof.
  intros H. rewrite staged_work.
  destruct (execute_insert _ _) as [[db' i]|] eqn:E; [|exact H].
  eapply extends_has_id; [eapply extends_self; exact E|exact H].
Qed.

Lemma select_id_has_id t s db i :
  select_id t (Some s) db = Some i -> has_id t i db.
Proof.
  intros H. apply select_id_In in H. unfold has_id.
  apply in_map_iff. now exists {| n_id := i; n_name := s |}.
Qed.

Lemma references_ok_extends (db db' : DB) :
  models db' = models db -> civitai_models db' = civitai_models db ->
  extends db db' -> references_ok db -> references_ok db'.
Proof.
  intros Em Ec Hx (Hl & He). split.
  - intros r c Hr Hc. rewrite Em in Hr.
    unfold has_entry. rewrite Ec. exact (Hl r c Hr Hc).
  - intros e Hin. rewrite Ec in Hin. destruct (He e Hin) as (H1 & H2 & H3).
    split; [|split]; eauto using extends_has_id.
Qed.

Lemma references_ok_staged_name t n w :
  references_ok (work (conn w)) ->
  references_ok (work (conn (staged (InsName t n) w))).
Proof.
  intros H. destruct (staged_name_tables t n w) as (Em & Ec).
  apply (references_ok_extends (work (conn w))); auto.
  rewrite staged_work.
  destruct (execute_insert _ _) as [[db' i]|] eqn:E; [|apply extends_refl].
  eapply extends_self; exact E.
Qed.

Lemma references_ok_staged_civitai a b c w :
  has_id Types a (work (conn w)) ->
  has_id BaseModels b (work (conn w)) ->
  has_id Creators c (work (conn w)) ->
  references_ok (work (conn w)) ->
  references_ok (work (conn (staged (InsCivitai a b c) w)))
  /\ has_entry (next_entry (work (conn w)))
       (work (conn (staged (InsCivitai a b c) w))).
Proof.
  intros Ha Hb Hc (Hl & He). rewrite staged_civitai.
  cbn [conn work]. unfold has_entry. cbn [civitai_models].
  rewrite map_app. cbn [map c_id]. split; [split|].
  - intros r x Hr Hx. cbn [models] in Hr. unfold has_entry.
    cbn [civitai_models]. rewrite map_app. apply in_or_app. left.
    exact (Hl r x Hr Hx).
  - intros e Hin. cbn [civitai_models] in Hin.
    unfold has_id. cbn [name_rows].
    apply in_app_or in Hin as [Hin | [<- | []]].
    + destruct (He e Hin) as (H1 & H2 & H3). auto.
    + cbn [c_type_id c_base_model_id c_creator_id].
      split; [exact Ha|]. split; [exact Hb|].
      intros k E. injection E as <-. exact Hc.
  - apply in_or_app. right. now left.
Qed.

Lemma references_ok_staged_models p h c w :
  (forall j, c = Some j -> has_entry j (work (conn w))) ->
  references_ok (work (conn w)) ->
  references_ok (work (conn (staged (InsModels p h c) w))).
Proof.
  intros Hc (Hl & He). rewrite staged_work, execute_insert_models_eq.
  destruct (_ || _ || _); [now split|].
  split.
  - intros r x Hr Hx. cbn [models] in Hr. unfold has_entry. cbn [civitai_models].
    apply in_app_or in Hr as [Hr | [<- | []]]; [exact (Hl r x Hr Hx)|].
    cbn [model_row m_civitai_model_id] in Hx. now apply Hc.
  - intros e Hin. cbn [civitai_models] in Hin. exact (He e Hin).
Qed.

Lemma resolve_refs_references ty b c w :
  references_ok (work (conn w)) ->
  let o := resolve_refs ty b c w in
  references_ok (work (conn (world o)))
  /\ forall i j k, result o = Ok (i, j, k) ->
       has_id Types i (work (conn (world o)))
       /\ has_id BaseModels j (work (conn (world o)))
       /\ has_id Creators k (work (conn (world o))).
Proof.
  intros H. cbn zeta. unfold resolve_refs.
  match goal with |- context [result (?m w)] =>
    change (wp m (fun o =>
      references_ok (work (conn (world o)))
      /\ forall i j k, result o = Ok (i, j, k) ->
           has_id Types i (work (conn (world o)))
           /\ has_id BaseModels j (work (conn (world o)))
           /\ has_id Creators k (work (conn (world o)))) w) end.
  wp_go; unfold prepend, ret, raise; cbn [events result world];
    (split; [repeat apply references_ok_staged_name; exact H|]);
    intros i j k E; try discriminate E.
  injection E as <- <- <-.
  destruct ty as [ty|]; [|discriminate].
  repeat split;
    repeat (first [eapply select_id_has_id; eassumption | apply has_id_staged]).
Qed.

(** Lines 164-167 and 214-217 leave the same world, whether or not the
    ModelFile row goes through. *)
Lemma classified_rows_world (p : Path) (h : Hash) (i j k : nat) (w : World) :
  world ((insert_into_database (InsCivitai i j k) false false ;;
          cn <- get_conn ;;
          execute (InsModels p h (lastrowid cn))) w) =
  staged (InsModels p h (Some (next_entry (work (conn w)))))
         (staged (InsCivitai i j k) w).
Proof.
  rewrite bind_eq, insert_ignore_eq. cbn [result events world].
  rewrite world_prepend, bind_eq. cbn [get_conn result events world].
  rewrite world_prepend, execute_eq, staged_civitai.
  cbn [fs conn committed work lastrowid].
  destruct (execute_insert _ _) as [[? ?]|] eqn:E; cbn [world];
    [reflexivity|].
  unfold staged. cbn [conn work]. now rewrite E.
Qed.

Lemma found_rows_world (t : Path) (h : Hash) (i j k : nat) (w : World) :
  world ((insert_into_database (InsCivitai i j k) true false ;;
          cn <- get_conn ;;
          insert_into_database (InsModels t h (lastrowid cn)) true false ;;
          ret t) w) =
  staged (InsModels t h (Some (next_entry (work (conn w)))))
         (staged (InsCivitai i j k) w).
Proof.
  rewrite bind_eq, insert_strict_eq, execute_insert_civitai.
  cbn [result events world].
  rewrite world_prepend, bind_eq. cbn [get_conn result events world].
  rewrite world_prepend, bind_eq, insert_strict_eq, staged_civitai.
  cbn [fs conn committed work lastrowid].
  destruct (execute_insert _ _) as [[? ?]|] eqn:E; cbn [result world].
  - rewrite world_prepend. reflexivity.
  - unfold staged. cbn [conn work]. now rewrite E.
Qed.

Lemma rows_references (p : Path) (h : Hash) (i j k : nat) (w : World) :
  has_id Types i (work (conn w)) ->
  has_id BaseModels j (work (conn w)) ->
  has_id Creators k (work (conn w)) ->
  references_ok (work (conn w)) ->
  references_ok
    (work (conn (staged (InsModels p h (Some (next_entry (work (conn w)))))
                        (staged (InsCivitai i j k) w)))).
Proof.
  intros Hi Hj Hk H.
  destruct (references_ok_staged_civitai i j k w Hi Hj Hk H) as (H1 & H2).
  apply references_ok_staged_models; [|exact H1].
  intros x E. injection E as <-. exact H2.
Qed.

Lemma stage_classified_references p h ty b c w :
  references_ok (work (conn w)) ->
  references_ok (work (conn (world (stage_classified p h ty b c w)))).
Proof.
  intros H. unfold stage_classified. rewrite bind_eq.
  destruct (resolve_refs_references ty b c w H) as (H1 & H2). cbn zeta in *.
  destruct (result (resolve_refs ty b c w)) as [[[i j] k]| |];
    cbn [world]; try exact H1.
  rewrite world_prepend.
  destruct (H2 i j k eq_refl) as (Hi & Hj & Hk).
  rewrite classified_rows_world. now apply rows_references.
Qed.

Lemma stage_found_references t h ty b c w :
  references_ok (work (conn w)) ->
  references_ok (work (conn (world (stage_found t h ty b c w)))).
Proof.
  intros H. unfold stage_found. rewrite bind_eq.
  destruct (resolve_refs_references (Some ty) b c w H) as (H1 & H2).
  cbn zeta in *.
  destruct (result (resolve_refs (Some ty) b c w)) as [[[i j] k]| |];
    cbn [world]; try exact H1.
  rewrite world_prepend.
  destruct (H2 i j k eq_refl) as (Hi & Hj & Hk).
  rewrite found_rows_world. now apply rows_references.
Qed.

(** Reading the type off the response or off the reverse map changes
    nothing. *)
Lemma classified_type_world (r : Response ModelVersion) (a : string) (w : World) :
  world ((if Nat.eqb (status_code r) 404
          then ret (dict_get REVERSE_MAP a)
          else model_version <- response_json r;;
               t <- subscript (mv_model_type model_version);;
               ret (Some t)) w) = w.
Proof.
  destruct (Nat.eqb _ _); [reflexivity|].
  unfold response_json.
  destruct (json r) as [v|]; [|reflexivity].
  rewrite bind_eq. cbn [ret result events world].
  rewrite world_prepend. unfold subscript.
  destruct (mv_model_type v); reflexivity.
Qed.

Lemma classify_new_references reg p h w :
  references_ok (work (conn w)) ->
  references_ok (work (conn (world (classify_new reg p h w)))).
Proof.
  intros H. unfold classify_new. destruct (path_eqb _ _).
  - rewrite insert_ignore_eq. cbn [world].
    apply references_ok_staged_models; [discriminate|exact H].
  - unfold classify_entry.
    destruct (firstn 3 p) as [|a [|b [|c [|? ?]]]]; try exact H.
    rewrite bind_eq, send_get_request_eq. cbn [result events world].
    destruct (final_answer _) as [r|]; [|exact H].
    rewrite world_prepend, bind_eq.
    pose proof (classified_type_world r a w) as Hw.
    destruct (result _) as [ty| |]; rewrite ?world_prepend, ?Hw;
      cbn [world]; rewrite ?Hw; try exact H.
    now apply stage_classified_references.
Qed.

Lemma relocate_target_references reg p h w :
  references_ok (work (conn w)) ->
  references_ok (work (conn (world (relocate_target reg p h w)))).
Proof.
  intros H. pose proof (relocate_target_rw reg p h w) as Hrw. cbn zeta in Hrw.
  destruct (lookup reg h) as [|ty b c d|r]; destruct Hrw as (_ & ->);
    try exact H.
  now apply stage_found_references.
Qed.

Definition references_hold (w : World) : Prop :=
  references_ok (work (conn w)) /\ references_ok (committed (conn w)).

Lemma classify_references reg p w :
  references_hold w -> references_hold (world (classify reg p w)).
Proof.
  unfold references_hold. intros (Hw & Hc). rewrite classify_nf.
  destruct (recognized p && in_type_bucket p) eqn:Hpass; cbn [negb];
    [|now split].
  destruct (has_path _ _); [now split|].
  destruct (lookup_file (fs w) p) as [h|]; [|now split].
  destruct (has_hash _ _) eqn:Hh; [now split|].
  cbn zeta.
  pose proof (classify_new_references reg p h w Hw) as H1.
  apply andb_true_iff in Hpass as [_ Hb].
  destruct (staging_classify_new reg p h Hb w) as (Hst & _ & _).
  pose proof (stages_committed _ _ Hst) as Hcm.
  destruct (result (classify_new reg p h w)) as [[]| |];
    cbn [world committed_ conn work committed]; split; auto;
    now rewrite Hcm.
Qed.

Lemma relocate_references reg p w :
  references_hold w -> references_hold (world (relocate reg p w)).
Proof.
  unfold references_hold. intros (Hw & Hc). rewrite relocate_nf.
  destruct (negb _); [now split|].
  destruct (lookup_file (fs w) p) as [h|]; [|now split].
  destruct (has_hash _ _) eqn:Hh; [now split|].
  cbn zeta.
  pose proof (relocate_target_references reg p h w Hw) as H1.
  destruct (staging_relocate_target reg p h w) as (Hst & _ & _).
  pose proof (stages_committed _ _ Hst) as Hcm.
  destruct (result (relocate_target reg p h w)) as [t| |].
  - destruct (exists_ (fs w) t);
      [cbn [world rolled_back conn work committed]; rewrite Hcm; now split|].
    destruct (mkdir_blocked _ _);
      cbn [world moved conn work committed]; split; auto; now rewrite Hcm.
  - cbn [world]. split; [exact H1|now rewrite Hcm].
  - cbn [world]. split; [exact H1|now rewrite Hcm].
Qed.

Lemma reachable_references (w : World) : reachable w -> references_hold w.
Proof.
  induction 1 as [f | w _ IH | reg p w _ IH | reg p w _ IH | f w _ IH].
  - split; (split; [intros r c []|intros e []]).
  - destruct IH as (Hw & _). unfold seed. rewrite insert_commit_eq.
    cbn [world]. unfold references_hold.
    cbn [committed_ conn work committed].
    split; now apply references_ok_staged_name.
  - now apply classify_references.
  - now apply relocate_references.
  - destruct IH as (_ & Hc). split; exact Hc.
Qed.

(** X13.  The references between the tables hold in every state the
    script can reach, staged or committed, although nothing but the script
    enforces them: the CatalogEntry a ModelFile row links is there, and so
    are the type, the base model and the creator a CatalogEntry names.
    Each of them is one row exactly, ids being distinct within a table. *)
Theorem X13_references_hold (w : World) :
  reachable w ->
  references_ok (work (conn w))
  /\ references_ok (committed (conn w))
  /\ unique_ids (work (conn w))
  /\ unique_ids (committed (conn w)).
Proof.
  intros H. destruct (reachable_references w H) as (Hw & Hc).
  split; [exact Hw|]. split; [exact Hc|].
  apply (reachable_invariant unique_ids); [|apply execute_insert_ids|exact H].
  split; [constructor|]. split; [constructor|].
  intros t; destruct t; constructor.
Qed.

Lemma X13_witness :
  references_ok
    (committed (conn (world (main (knows_as "VAE") (fresh twins_disk))))).
Proof.
  exact (proj1 (proj2 (X13_references_hold _
           (reachable_main (knows_as "VAE") _ (reach_start twins_disk))))).
Defined.

(** ** What a file the registry knows gets *)

(** The CatalogEntry a successful insert appends. *)
Definition entry_row (db : DB) (i j k : nat) : CivitaiRow :=
  {| c_id := next_entry db; c_type_id := i; c_base_model_id := j;
     c_creator_id := Some k |}.

(** The catalog with one more CatalogEntry and the ModelFile row that
    links it. *)
Definition with_entry (db : DB) (p : Path) (h : Hash) (i j k : nat) : DB :=
  {| models := models db ++ [model_row db p h (Some (next_entry db))];
     civitai_models := civitai_models db ++ [entry_row db i j k];
     types := types db; base_models := base_models db;
     creators := creators db |}.

Lemma select_id_with_entry db p h i j k T n :
  select_id T n (with_entry db p h i j k) = select_id T n db.
Proof. destruct n; [|reflexivity]. now destruct T. Qed.

Lemma rows_work (p : Path) (h : Hash) (i j k : nat) (w : World) :
  has_path (work (conn w)) p = false ->
  has_hash (work (conn w)) h = false ->
  links_ok (work (conn w)) ->
  execute_insert (InsModels p h (Some (next_entry (work (conn w)))))
    (work (conn (staged (InsCivitai i j k) w))) =
  Some (with_entry (work (conn w)) p h i j k,
        next_id (map m_id (models (work (conn w))))).
Proof.
  intros Hp Hh Hl. rewrite staged_civitai. cbn [conn work].
  rewrite execute_insert_models_eq.
  unfold has_path, has_hash, has_civitai_link. cbn [models].
  fold (has_path (work (conn w)) p). fold (has_hash (work (conn w)) h).
  fold (has_civitai_link (work (conn w)) (Some (next_entry (work (conn w))))).
  rewrite Hp, Hh, (links_ok_fresh _ Hl). reflexivity.
Qed.

(** Lines 164-167, when the ModelFile row goes through. *)
Lemma classified_rows_ok (p : Path) (h : Hash) (i j k : nat) (w : World) :
  has_path (work (conn w)) p = false ->
  has_hash (work (conn w)) h = false ->
  links_ok (work (conn w)) ->
  let o := (insert_into_database (InsCivitai i j k) false false ;;
            cn <- get_conn ;;
            execute (InsModels p h (lastrowid cn))) w in
  result o = Ok tt
  /\ work (conn (world o)) = with_entry (work (conn w)) p h i j k.
Proof.
  intros Hp Hh Hl. cbn zeta. rewrite classified_rows_world.
  rewrite staged_work, (rows_work p h i j k w Hp Hh Hl). split; [|reflexivity].
  rewrite bind_eq, insert_ignore_eq. cbn [result events world].
  rewrite result_prepend, bind_eq. cbn [get_conn result events world].
  rewrite result_prepend, execute_eq.
  replace (lastrowid (conn (staged (InsCivitai i j k) w)))
    with (Some (next_entry (work (conn w)))) by now rewrite staged_civitai.
  now rewrite (rows_work p h i j k w Hp Hh Hl).
Qed.


(** The reference rows, then the two rows: where a classified or a found
    file leaves the staged catalog. *)
Lemma staged_entry (w w3 : World) (p : Path) (h : Hash) (ty b c : string)
    (i j k : nat) :
  refs_only w w3 ->
  select_id Types (Some ty) (work (conn w3)) = Some i ->
  select_id BaseModels (Some b) (work (conn w3)) = Some j ->
  select_id Creators (Some c) (work (conn w3)) = Some k ->
  let db := work (conn w) in
  let db' := with_entry (work (conn w3)) p h i j k in
  models db' = models db ++ [model_row db p h (Some (next_entry db))]
  /\ civitai_models db' = civitai_models db ++ [entry_row db i j k]
  /\ select_id Types (Some ty) db' = Some i
  /\ select_id BaseModels (Some b) db' = Some j
  /\ select_id Creators (Some c) db' = Some k.
Proof.
  intros (_ & _ & Em & Ec) Hi Hj Hk. cbn zeta.
  rewrite !select_id_with_entry.
  unfold with_entry, model_row, entry_row, next_entry. cbn [models civitai_models].
  rewrite Em, Ec. auto.
Qed.

(** What the entry of a file says, in a catalog [db'] that grew out of
    [db]: a ModelFile row for [p] and [h], linked to a new CatalogEntry
    whose references are the rows named [ty], [b] and [c]. *)
Definition cataloged_as (db db' : DB) (p : Path) (h : Hash) (ty b c : string)
  : Prop :=
  exists i j k,
    select_id Types (Some ty) db' = Some i
    /\ select_id BaseModels (Some b) db' = Some j
    /\ select_id Creators (Some c) db' = Some k
    /\ models db' = models db ++ [model_row db p h (Some (next_entry db))]
    /\ civitai_models db' = civitai_models db ++ [entry_row db i j k].

Lemma stage_classified_entry (p : Path) (h : Hash) (ty b c : string) (w : World) :
  has_path (work (conn w)) p = false ->
  has_hash (work (conn w)) h = false ->
  links_ok (work (conn w)) ->
  let o := stage_classified p h (Some ty) b c w in
  result o = Ok tt
  /\ cataloged_as (work (conn w)) (work (conn (world o))) p h ty b c.
Proof.
  intros Hp Hh Hl. cbn zeta. unfold stage_classified. rewrite bind_eq.
  destruct (resolve_refs_spec (Some ty) b c w) as (Hrefs & _).
  destruct (resolve_refs_ids ty b c w) as ((i & j & k & Hres & Hi & Hj & Hk) & _).
  cbn zeta in *. rewrite Hres, result_prepend, world_prepend.
  remember (world (resolve_refs (Some ty) b c w)) as w3 eqn:E3. clear E3 Hres.
  destruct Hrefs as (F1 & F2 & F3 & F4).
  destruct (classified_rows_ok p h i j k w3) as (R & W).
  - unfold has_path. now rewrite F3.
  - unfold has_hash. now rewrite F3.
  - now apply (links_ok_ext (work (conn w))).
  - cbn zeta in R, W. split; [exact R|]. rewrite W.
    destruct (staged_entry w w3 p h ty b c i j k) as (A & B & C & D & E);
      try assumption; [repeat split; assumption|].
    exists i, j, k. auto.
Qed.


Lemma classify_entry_found reg (a b c : string) (rest : list string) (h : Hash)
    (w : World) r v ty :
  final_answer (model_versions_by_hash reg h) = Some r ->
  status_code r <> 404 ->
  json r = Some v ->
  mv_model_type v = Some ty ->
  let p := a :: b :: c :: rest in
  result (classify_entry reg p h w) =
    result (stage_classified p h (Some ty) b c w)
  /\ world (classify_entry reg p h w) =
     world (stage_classified p h (Some ty) b c w).
Proof.
  intros Hr H404 Hj Hty. cbn zeta. unfold classify_entry. cbn [firstn].
  apply Nat.eqb_neq in H404.
  rewrite bind_eq, send_get_request_eq, Hr. cbn [result events world].
  rewrite result_prepend, world_prepend, H404.
  rewrite bind_eq. unfold response_json. rewrite Hj.
  rewrite bind_eq. cbn [ret result events world].
  unfold subscript. rewrite Hty.
  change ((t <- ret ty;; ret (Some t)) w) with (ret (Some ty) w).
  cbn [ret result events world].
  rewrite result_prepend, world_prepend. split; reflexivity.
Qed.

(** X14.  A recognized file that sits in a type bucket (not in
    [models/loras/null]), is not cataloged by path or by content, and is
    known to the registry under some type, is cataloged where it is: the
    files are not touched, and the classifier commits a ModelFile row for
    the path and hash, linked to a new CatalogEntry.  The entry's type is
    the one the registry reports; its base model is the row named after
    the second path segment (the type directory) and its creator the row
    named after the third, which is what the slice [parts[:3]] of line 144
    hands to the inserts; the registry's base model is not read. *)
Theorem X14_classifier_entry reg (bucket seg : string) (rest : list string)
    (h : Hash) (w : World) r v ty :
  let p := "models" :: bucket :: seg :: rest in
  recognized p = true ->
  in_type_bucket p = true ->
  parent p <> MODEL_NOT_FOUND_PATH ->
  has_path (work (conn w)) p = false ->
  lookup_file (fs w) p = Some h ->
  has_hash (work (conn w)) h = false ->
  links_ok (work (conn w)) ->
  final_answer (model_versions_by_hash reg h) = Some r ->
  status_code r <> 404 ->
  json r = Some v ->
  mv_model_type v = Some ty ->
  let o := classify reg p w in
  result o = Ok tt
  /\ fs (world o) = fs w
  /\ committed (conn (world o)) = work (conn (world o))
  /\ cataloged_as (work (conn w)) (committed (conn (world o))) p h ty bucket seg.
Proof.
  intros p Hrec Hb Hpar Hp Hl Hh Hlinks Hr H404 Hj Hty. cbn zeta.
  rewrite classify_nf, Hrec, Hb, Hp, Hl, Hh. cbn [andb negb]. cbn zeta.
  destruct (staging_classify_new reg p h Hb w) as (Hst & _ & _).
  pose proof (stages_fs _ _ Hst) as Hfs.
  unfold classify_new in *.
  apply path_eqb_neq in Hpar. rewrite Hpar in *.
  destruct (classify_entry_found reg "models" bucket seg rest h w r v ty
              Hr H404 Hj Hty) as (Eres & Ew).
  fold p in Eres, Ew.
  destruct (stage_classified_entry p h ty bucket seg w Hp Hh Hlinks) as (R & C).
  cbn zeta in R, C. rewrite <- Eres in R. rewrite <- Ew in C.
  rewrite R. cbn [result world committed_ fs conn work committed]. auto.
Qed.

(** [models/vae/x.safetensors], known to the registry as a VAE. *)
Definition vae_file : Path := ["models"; "vae"; "x.safetensors"].

Lemma X14_witness :
  cataloged_as empty_db
    (committed (conn (world (classify (knows_as "VAE") vae_file
                               (fresh [(vae_file, "h2")])))))
    vae_file "h2" "VAE" "vae" "x.safetensors".
Proof.
  refine (proj2 (proj2 (proj2
    (X14_classifier_entry (knows_as "VAE") "vae" "x.safetensors" [] "h2"
       (fresh [(vae_file, "h2")]) (found_version "VAE") _ "VAE"
       eq_refl eq_refl _ eq_refl eq_refl eq_refl _ eq_refl _ eq_refl eq_refl)))).
  - cbn. discriminate.
  - intros r c [].
  - cbn. discriminate.
Defined.




(** ** What a bucket file the registry does not know gets *)

(** X16.  The classifier's fallback for a file the registry reports as not
    found never catalogs anything.  For every recognized file in a type
    bucket outside [models/loras/null] that is not cataloged by path or by
    content, a 404 makes the classifier raise [TypeError]: the first
    segment of the path, [models], is looked up in the reverse map, the
    type name is [None], no [types] row is found.  Nothing is staged,
    nothing is committed, and the run ends there. *)
Theorem X16_classifier_not_found_raises reg (p : Path) (h : Hash) (w : World) r :
  recognized p = true ->
  in_type_bucket p = true ->
  parent p <> MODEL_NOT_FOUND_PATH ->
  has_path (work (conn w)) p = false ->
  lookup_file (fs w) p = Some h ->
  has_hash (work (conn w)) h = false ->
  final_answer (model_versions_by_hash reg h) = Some r ->
  status_code r = 404 ->
  let o := classify reg p w in
  result o = Raise TypeError
  /\ world o = w
  /\ existsb is_commit (events o) = false
  /\ forall l, result (for_each (p :: l) (classify reg) w) = Raise TypeError.
Proof.
  intros Hrec Hb Hpar Hp Hl Hh Hr H404. cbn zeta.
  assert (H : result (classify reg p w) = Raise TypeError
              /\ world (classify reg p w) = w
              /\ existsb is_commit (events (classify reg p w)) = false).
  { rewrite classify_nf, Hrec, Hb, Hp, Hl, Hh. cbn [andb negb]. cbn zeta.
    destruct (staging_classify_new reg p h Hb w) as (_ & Hq & _).
    unfold classify_new in *.
    apply path_eqb_neq in Hpar. rewrite Hpar in *.
    destruct (classify_entry_not_found_raises reg p h w r Hb
                (bucket_file_length p Hrec Hb) Hr H404) as (R & W).
    rewrite R. cbn [result world events]. split; [reflexivity|].
    split; [exact W|].
    rewrite existsb_app. cbn [existsb is_commit orb].
    now apply quiet_not_commit. }
  destruct H as (R & W & E). repeat split; auto.
  intros l. rewrite for_each_cons, R. reflexivity.
Qed.

Lemma X16_witness :
  result (classify offline x_safetensors (fresh [(x_safetensors, "h1")])) =
  Raise TypeError.
Proof.
  refine (proj1 (X16_classifier_not_found_raises offline x_safetensors "h1"
                   (fresh [(x_safetensors, "h1")]) not_found
                   eq_refl eq_refl _ eq_refl eq_refl eq_refl eq_refl eq_refl)).
  cbn. discriminate.
Defined.

(** * How a run can end *)

























(** ** One file, one transaction *)

(** [db'] is [db] with one more ModelFile row, for [p] and [h], and with
    the CatalogEntry the row links if it links one. *)
Definition one_more_file (db db' : DB) (p : Path) (h : Hash) : Prop :=
  exists c,
    models db' = models db ++ [model_row db p h c]
    /\ ((c = None /\ civitai_models db' = civitai_models db)
        \/ (c = Some (next_entry db)
            /\ map c_id (civitai_models db') =
               map c_id (civitai_models db) ++ [next_entry db])).

Lemma relocate_target_entry reg (p : Path) (h : Hash) (w : World) (t : Path) :
  result (relocate_target reg p h w) = Ok t ->
  let w1 := world (relocate_target reg p h w) in
  work (conn w1) = work (conn w)
  \/ one_more_file (work (conn w)) (work (conn w1)) t h.
Proof.
  intros Hres. cbn zeta.
  pose proof (relocate_target_rw reg p h w) as Hrw. cbn zeta in Hrw.
  destruct (lookup reg h) as [|ty b c d|r] eqn:Hlk.
  - destruct Hrw as (_ & ->). now left.
  - destruct Hrw as (Ht & ->).
    pose proof (stage_found_spec (found_target p b c d) h ty b c w) as Hsp.
    cbn zeta in Hsp. destruct Hsp as (_ & _ & Hsp).
    rewrite <- Ht, Hres in Hsp.
    destruct (_ || _ || _); [discriminate Hsp|].
    destruct Hsp as (Et & Hm & Hc). injection Et as ->.
    right. exists (Some (next_entry (work (conn w)))). split; [exact Hm|].
    right. split; [reflexivity|exact Hc].
  - destruct Hrw as (Ht & _). rewrite Hres in Ht. symmetry in Ht.
    now apply (lookup_failed_not_ok reg h r t Hlk) in Ht.
Qed.

(** X19.  Each file is a transaction of its own.  Starting with nothing
    staged, one file through either loop body either leaves the committed
    catalog as it is, or completes and commits exactly one new ModelFile
    row, for that file's hash and its (for the relocator: new) path,
    together with the one CatalogEntry the row links, if any.  A loop body
    that does not complete commits nothing, and one that completes leaves
    nothing staged for the next file. *)
Theorem X19_one_transaction_per_file reg (p : Path) (w : World) :
  clean w ->
  (let o := classify reg p w in
   (result o <> Ok tt -> committed (conn (world o)) = committed (conn w))
   /\ (result o = Ok tt -> clean (world o))
   /\ (committed (conn (world o)) = committed (conn w)
       \/ exists h, lookup_file (fs w) p = Some h
                    /\ one_more_file (committed (conn w))
                         (committed (conn (world o))) p h))
  /\ (let o := relocate reg p w in
      (result o <> Ok tt -> committed (conn (world o)) = committed (conn w))
      /\ (result o = Ok tt -> clean (world o))
      /\ (committed (conn (world o)) = committed (conn w)
          \/ exists h t, lookup_file (fs w) p = Some h
                         /\ fs (world o) = rename_file (fs w) p t h
                         /\ one_more_file (committed (conn w))
                              (committed (conn (world o))) t h)).
Proof.
  unfold clean. intros Hc. split; cbn zeta.
  - rewrite classify_nf.
    destruct (recognized p && in_type_bucket p) eqn:Hpass; cbn [negb];
      [|cbn; auto].
    destruct (has_path _ _) eqn:Hp; [cbn; auto|].
    destruct (lookup_file (fs w) p) as [h|] eqn:Hf; [|cbn; auto].
    destruct (has_hash _ _) eqn:Hh; [cbn; auto|].
    cbn zeta.
    apply andb_true_iff in Hpass as [_ Hb].
    destruct (staging_classify_new reg p h Hb w) as (Hst & _ & _).
    pose proof (stages_committed _ _ Hst) as Hcm.
    pose proof (classify_new_ok reg p h w Hp Hh) as Hnew. cbn zeta in Hnew.
    destruct (result (classify_new reg p h w)) as [[]| |];
      cbn [world result committed_ conn work committed];
      try (split; [auto|split; [discriminate|now left]]).
    split; [congruence|]. split; [reflexivity|]. right. exists h.
    split; [reflexivity|]. rewrite <- Hc.
    destruct (Hnew eq_refl) as [(_ & E) | (Em & Ec)].
    + exists None. rewrite E. cbn [models civitai_models]. auto.
    + exists (Some (next_entry (work (conn w)))). auto.
  - rewrite relocate_nf.
    destruct (negb _); [cbn; auto|].
    destruct (lookup_file (fs w) p) as [h|] eqn:Hf; [|cbn; auto].
    destruct (has_hash _ _) eqn:Hh; [cbn; auto|].
    cbn zeta.
    destruct (staging_relocate_target reg p h w) as (Hst & _ & _).
    pose proof (stages_committed _ _ Hst) as Hcm.
    pose proof (stages_fs _ _ Hst) as Hfs.
    pose proof (relocate_target_entry reg p h w) as Hent. cbn zeta in Hent.
    destruct (result (relocate_target reg p h w)) as [t| |];
      cbn [world result];
      try (split; [auto|split; [discriminate|now left]]).
    destruct (exists_ (fs w) t).
    { cbn [world result rolled_back conn work committed].
      split; [auto|]. split; [reflexivity|now left]. }
    destruct (mkdir_blocked _ _).
    { cbn [world result].
      split; [auto|]. split; [discriminate|now left]. }
    cbn [world result moved fs conn work committed].
    split; [congruence|]. split; [reflexivity|].
    destruct (Hent t eq_refl) as [E | E].
    + left. congruence.
    + right. exists h, t. rewrite Hfs, <- Hc. auto.
Qed.

Lemma X19_witness :
  clean (world (relocate (knows_as "VAE") a_safetensors
                  (fresh [(a_safetensors, "h1")]))).
Proof.
  refine (proj1 (proj2 (proj2
    (X19_one_transaction_per_file (knows_as "VAE") a_safetensors
       (fresh [(a_safetensors, "h1")]) eq_refl))) eq_refl).
Defined.

(** ** The sentinel creator (line 122) *)


(** * What is sent to the registry *)

(** Every event of [m], in every world, satisfies [P]. *)
Definition emits {A} (P : Event -> Prop) (m : M A) : Prop :=
  forall w, Forall P (events (m w)).

Lemma emits_ret {A} P (a : A) : emits P (ret a).
Proof. intros w. constructor. Qed.

Lemma emits_raise {A} P e : emits P (@raise A e).
Proof. intros w. constructor. Qed.

Lemma emits_emit (P : Event -> Prop) e : P e -> emits P (emit e).
Proof. intros H w. repeat constructor. exact H. Qed.

Lemma emits_get_conn P : emits P get_conn.
Proof. intros w. constructor. Qed.

Lemma emits_put_conn P c : emits P (put_conn c).
Proof. intros w. constructor. Qed.

Lemma emits_bind {A B} P (m : M A) (k : A -> M B) :
  emits P m -> (forall a, emits P (k a)) -> emits P (bind m k).
Proof.
  intros Hm Hk w. rewrite bind_eq. specialize (Hm w).
  destruct (result (m w)) as [a| |]; cbn [events]; try exact Hm.
  rewrite events_prepend. apply Forall_app. split; [exact Hm|apply Hk].
Qed.

Lemma emits_send_get_request {B} (P : Event -> Prop) url
    (answers : list (Response B)) :
  P (EvGet url) -> P EvSleep -> emits P (send_get_request url answers).
Proof.
  intros Hg Hs w. rewrite send_get_request_eq. cbn [events].
  induction answers as [|r rest IH]; cbn; [constructor|].
  constructor; [exact Hg|].
  destruct (Nat.eqb _ _); constructor; [exact Hs|exact IH].
Qed.

(** The requests among the events go to the urls [ok] allows. *)
Definition requests (ok : Url -> Prop) (e : Event) : Prop :=
  match e with
  | EvGet u => ok u
  | _ => True
  end.

Ltac emits_step :=
  first
    [ apply emits_ret | apply emits_raise | apply emits_get_conn
    | apply emits_put_conn
    | apply emits_emit; exact I
    | apply emits_bind; [|intros ?]
    | lazymatch goal with
      | |- emits _ (if ?b then _ else _) => destruct b
      | |- emits _ (let '(_, _) := ?x in _) => destruct x
      | |- emits _ (match ?x with _ => _ end) => destruct x
      end ].

Ltac emits_unfold :=
  unfold classify_new, classify_entry, stage_classified,
    relocate_target, relocate_found, stage_found,
    resolve_refs, insert_into_database, execute, fetch_id,
    commit, response_json, subscript.

Lemma classify_new_requests reg p h :
  emits (requests (fun u => u = UrlByHash h)) (classify_new reg p h).
Proof.
  emits_unfold.
  repeat first
    [ emits_step
    | apply emits_send_get_request; [reflexivity|exact I] ].
Qed.

Lemma relocate_target_requests reg p h :
  emits (requests (fun u => u = UrlByHash h \/ exists id, u = UrlModel id))
        (relocate_target reg p h).
Proof.
  emits_unfold.
  repeat first
    [ emits_step
    | apply emits_send_get_request; [cbn; eauto|exact I] ].
Qed.

Lemma in_requests (ok : Url -> Prop) (evs : list Event) (u : Url) :
  Forall (requests ok) evs -> In (EvGet u) evs -> ok u.
Proof.
  intros H Hin. rewrite Forall_forall in H. exact (H _ Hin).
Qed.

(** X21.  The registry hears of a file only when the script has nothing
    on it.  A request made while the classifier handles a file asks for
    the hash of that file, whose path and hash are then not cataloged and
    which is not in [models/loras/null]; the classifier never asks for a
    model record.  A request made while the relocator handles a file asks
    for the hash of that file, which is then not cataloged, or for a model
    record.  Files that do not pass a loop's filters cause no request. *)
Theorem X21_requests reg (p : Path) (w : World) (u : Url) :
  (In (EvGet u) (events (classify reg p w)) ->
   exists h,
     u = UrlByHash h
     /\ recognized p && in_type_bucket p = true
     /\ parent p <> MODEL_NOT_FOUND_PATH
     /\ lookup_file (fs w) p = Some h
     /\ has_path (work (conn w)) p = false
     /\ has_hash (work (conn w)) h = false)
  /\ (In (EvGet u) (events (relocate reg p w)) ->
      exists h,
        (u = UrlByHash h \/ exists id, u = UrlModel id)
        /\ recognized p && in_root p = true
        /\ lookup_file (fs w) p = Some h
        /\ has_hash (work (conn w)) h = false).
Proof.
  split.
  - rewrite classify_nf.
    destruct (recognized p && in_type_bucket p) eqn:Hpass; cbn [negb];
      [|intros []].
    destruct (has_path _ _) eqn:Hp;
      [cbn; intros [H | [H | []]]; discriminate H|].
    destruct (lookup_file (fs w) p) as [h|] eqn:Hf;
      [|cbn; intros [H | [H | [H | []]]]; discriminate H].
    destruct (has_hash _ _) eqn:Hh;
      [cbn; intros [H | [H | [H | [H | []]]]]; discriminate H|].
    cbn zeta. intros Hin.
    assert (Hin' : In (EvGet u) (events (classify_new reg p h w))).
    { destruct (result (classify_new reg p h w)); cbn [events] in Hin;
        rewrite ?in_app_iff in Hin; cbn [In] in Hin;
        intuition discriminate. }
    exists h.
    split; [exact (in_requests _ _ _ (classify_new_requests reg p h w) Hin')|].
    repeat split; auto.
    intros Hnull. apply path_eqb_eq in Hnull.
    unfold classify_new in Hin'. rewrite Hnull, insert_ignore_eq in Hin'.
    destruct Hin' as [H | []]. discriminate H.
  - rewrite relocate_nf.
    destruct (recognized p && in_root p) eqn:Hpass; cbn [negb]; [|intros []].
    destruct (lookup_file (fs w) p) as [h|] eqn:Hf;
      [|cbn; intros [H | [H | []]]; discriminate H].
    destruct (has_hash _ _) eqn:Hh;
      [cbn; intros [H | [H | [H | []]]]; discriminate H|].
    cbn zeta. intros Hin.
    assert (Hin' : In (EvGet u) (events (relocate_target reg p h w))).
    { destruct (result (relocate_target reg p h w)) as [t| |];
        [destruct (exists_ (fs w) t); [|destruct (mkdir_blocked _ _)]| |];
        cbn [events] in Hin;
        rewrite ?in_app_iff in Hin; cbn [In] in Hin;
        intuition discriminate. }
    exists h.
    split; [exact (in_requests _ _ _ (relocate_target_requests reg p h w) Hin')|].
    repeat split; auto.
Qed.

(** * What the log says (lines 129, 176 and 225) *)

Lemma quiet_not_log evs q : Forall quiet evs -> ~ In (EvLog q) evs.
Proof.
  intros H Hin. rewrite Forall_forall in H. exact (H _ Hin).
Qed.

Lemma quiet_not_moved evs t : Forall quiet evs -> ~ In (EvLogMoved t) evs.
Proof.
  intros H Hin. rewrite Forall_forall in H. exact (H _ Hin).
Qed.

Lemma quiet_not_renamed evs src t : Forall quiet evs -> ~ In (EvRename src t) evs.
Proof.
  intros H Hin. rewrite Forall_forall in H. exact (H _ Hin).
Qed.

Ltac in_events H :=
  cbn [events ret] in H; rewrite ?in_app_iff in H; cbn [In] in H;
  repeat match type of H with
    | _ \/ _ => destruct H as [H | H]
    end;
  try discriminate H; try contradiction.

Lemma classify_in_no_failure reg p w :
  classify_in no_failure reg p w = classify reg p w.
Proof. reflexivity. Qed.

Lemma classify_in_eq env reg p w :
  classify_in env reg p w =
  if negb (recognized p && in_type_bucket p) then ret tt w else
  match log_path env with
  | LogRaises written e =>
      {| events := if written then [EvLog p] else []; result := Raise e;
         world := w |}
  | Logged =>
      if has_path (work (conn w)) p then
        {| events := [EvLog p; EvSelectPath p]; result := Ok tt; world := w |}
      else
        match lookup_file (fs w) p with
        | None =>
            {| events := [EvLog p; EvSelectPath p; EvHash p];
               result := Raise OSError; world := w |}
        | Some h =>
            if has_hash (work (conn w)) h then
              {| events := [EvLog p; EvSelectPath p; EvHash p; EvSelectHash h];
                 result := Ok tt; world := w |}
            else
              prepend [EvLog p; EvSelectPath p; EvHash p; EvSelectHash h]
                (bind (classify_new reg p h)
                   (fun _ => commit_in (commit_raises env)) w)
        end
  end.
Proof.
  unfold recognized, in_type_bucket, classify_in.
  destruct (str_in (suffix p) MODEL_EXTENSIONS); [|reflexivity].
  destruct (path_in (firstn 2 p) MODEL_TYPE_PATHS); [|reflexivity].
  cbn [negb andb].
  unfold log_in. destruct (log_path env) as [|[] e]; [| reflexivity | reflexivity].
  match goal with |- ?m w = ?r => change (wp m (fun o => o = r) w) end.
  unfold calculate_hash, select_models_by_hash, select_models_by_path.
  repeat
    lazymatch goal with
    | |- wp (bind (classify_new _ _ _) _) _ _ => fail
    | _ => wp_step
    end;
    reflexivity.
Qed.

Ltac in_trace H :=
  repeat
    first
      [ progress (rewrite in_app_iff in H)
      | progress (cbn [In events ret prepend app] in H)
      | match type of H with _ \/ _ => destruct H as [H | H] end ];
  try discriminate H; try contradiction.

(** The events of the classifier's body: the log line first, if there is
    one, and no other log line after it. *)
Lemma classify_in_events env reg p w :
  (recognized p && in_type_bucket p = false
   /\ classify_in env reg p w = ret tt w)
  \/ (recognized p && in_type_bucket p = true
      /\ ((exists e, log_path env = LogRaises false e)
          /\ events (classify_in env reg p w) = []
          \/ exists evs, events (classify_in env reg p w) = EvLog p :: evs
                         /\ forall q, ~ In (EvLog q) evs)).
Proof.
  rewrite classify_in_eq.
  destruct (recognized p && in_type_bucket p) eqn:Hf; cbn [negb]; [right|left; auto].
  split; [reflexivity|].
  destruct (log_path env) as [|[] e] eqn:Hlog.
  2:{ right. exists []. split; [reflexivity|]. intros q []. }
  2:{ left. split; [now exists e|reflexivity]. }
  right.
  destruct (has_path (work (conn w)) p).
  { eexists. split; [reflexivity|]. intros q Hin. in_events Hin. }
  destruct (lookup_file (fs w) p) as [h|].
  2:{ eexists. split; [reflexivity|]. intros q Hin. in_events Hin. }
  destruct (has_hash (work (conn w)) h).
  { eexists. split; [reflexivity|]. intros q Hin. in_events Hin. }
  eexists. split; [reflexivity|]. intros q Hin.
  apply andb_true_iff in Hf as [_ Hb].
  destruct (staging_classify_new reg p h Hb w) as (_ & He & _).
  rewrite bind_eq in Hin.
  destruct (result (classify_new reg p h w)) as [[]| |];
    unfold commit_in in Hin; try destruct (commit_raises env);
    rewrite ?commit_eq in Hin; unfold prepend in Hin;
    cbn [events raise app] in Hin; rewrite ?app_nil_r in Hin; in_events Hin;
    try in_events Hin; eapply quiet_not_log; eassumption.
Qed.

(** X22.  The log tells what was done, also when writing it fails.  A loop
    body logs a path only if it is the file at hand and the file passes the
    loop's filters, and then it logs it first, before anything else is done
    with the file; a file that is filtered out leaves no trace.  When the
    relocator has logged [Moved into t], it has renamed the file to [t] and
    the file is at [t] with its content: a move that was not made is never
    logged as done.  A relocation that completes after a rename has logged
    the move and committed. *)
Theorem X22_log_is_faithful env reg (p : Path) (w : World) :
  (forall q, In (EvLog q) (events (classify_in env reg p w)) ->
             q = p /\ recognized p && in_type_bucket p = true
             /\ hd_error (events (classify_in env reg p w)) = Some (EvLog p))
  /\ (recognized p && in_type_bucket p = false ->
      events (classify_in env reg p w) = [])
  /\ (forall q, In (EvLog q) (events (relocate_in env reg p w)) ->
                q = p /\ recognized p && in_root p = true
                /\ hd_error (events (relocate_in env reg p w)) = Some (EvLog p))
  /\ (recognized p && in_root p = false ->
      events (relocate_in env reg p w) = [])
  /\ (forall t, In (EvLogMoved t) (events (relocate_in env reg p w)) ->
                In (EvRename p t) (events (relocate_in env reg p w))
                /\ exists h, lookup_file (fs w) p = Some h
                             /\ lookup_file
                                  (fs (world (relocate_in env reg p w))) t
                                = Some h)
  /\ (forall t, In (EvRename p t) (events (relocate_in env reg p w)) ->
                result (relocate_in env reg p w) = Ok tt ->
                In (EvLogMoved t) (events (relocate_in env reg p w))
                /\ In EvCommit (events (relocate_in env reg p w))).
Proof.
  split; [|split; [|split; [|split; [|split]]]].
  - intros q Hin.
    destruct (classify_in_events env reg p w)
      as [(Hf & E) | (Hf & [(_ & E) | (evs & E & Hno)])];
      rewrite E in *; try contradiction.
    destruct Hin as [Hin | Hin]; [|now elim (Hno q)].
    injection Hin as <-. auto.
  - intros Hf.
    destruct (classify_in_events env reg p w) as [(_ & E) | (Hf' & _)];
      [now rewrite E|congruence].
  - intros q Hin.
    destruct (relocate_in_outcome_holds env reg p w)
      as [Hf E | written e Hf Hlog E | Hf Hl E | h Hf Hl Hh E
          | h evs w1 r Hf Hl Hh Hs He Hr E
          | h evs w1 t Hf Hl Hh Hs He Hex E
          | h evs w1 t Hf Hl Hh Hs He Hex Hmk E
          | h evs w1 t e made Hf Hl Hh Hs He Hex Hmv E
          | h evs w1 t Hf Hlog Hmv Hl Hh Hs He Hex Hmk E];
      rewrite E in *; try destruct written; try destruct made;
      try (unfold after_move in *;
           destruct (log_moved env) as [|[] e1], (commit_raises env) as [e2|]);
      cbn [prepend events app] in *;
      in_trace Hin;
      try (exfalso; eapply quiet_not_log; eassumption);
      injection Hin as <-; repeat split; auto.
  - intros Hf. rewrite relocate_in_eq, Hf. reflexivity.
  - intros t' Hin.
    destruct (relocate_in_outcome_holds env reg p w)
      as [Hf E | written e Hf Hlog E | Hf Hl E | h Hf Hl Hh E
          | h evs w1 r Hf Hl Hh Hs He Hr E
          | h evs w1 t Hf Hl Hh Hs He Hex E
          | h evs w1 t Hf Hl Hh Hs He Hex Hmk E
          | h evs w1 t e made Hf Hl Hh Hs He Hex Hmv E
          | h evs w1 t Hf Hlog Hmv Hl Hh Hs He Hex Hmk E];
      rewrite E in *; try destruct written; try destruct made;
      try (unfold after_move in *;
           destruct (log_moved env) as [|[] e1], (commit_raises env) as [e2|]);
      cbn [prepend events result world app renamed committed_ fs] in *;
      in_trace Hin;
      try (exfalso; eapply quiet_not_moved; eassumption);
      injection Hin as <-;
      (split; [repeat first [progress cbn [In app] | rewrite in_app_iff]; auto 12|]);
      exists h; (split; [exact Hl|]);
      rewrite (stages_fs _ _ Hs); apply lookup_file_rename_dst.
  - intros t' Hin Hres.
    destruct (relocate_in_outcome_holds env reg p w)
      as [Hf E | written e Hf Hlog E | Hf Hl E | h Hf Hl Hh E
          | h evs w1 r Hf Hl Hh Hs He Hr E
          | h evs w1 t Hf Hl Hh Hs He Hex E
          | h evs w1 t Hf Hl Hh Hs He Hex Hmk E
          | h evs w1 t e made Hf Hl Hh Hs He Hex Hmv E
          | h evs w1 t Hf Hlog Hmv Hl Hh Hs He Hex Hmk E];
      rewrite E in *; try destruct written; try destruct made;
      try (unfold after_move in *;
           destruct (log_moved env) as [|[] e1], (commit_raises env) as [e2|]);
      cbn [prepend events result world app] in *;
      try discriminate Hres;
      in_trace Hin;
      try (exfalso; eapply quiet_not_renamed; eassumption).
    injection Hin as <-.
    split; repeat first [progress cbn [In app] | rewrite in_app_iff]; auto 12.
Qed.
